(** * Heatmap server: order-book aggregation and per-session streams

    A shallow embedding of the server of the heatmap application:

    - [aggregator.ts] : the [MarketAggregator] class (order book, trade
      buffer, bucketing into [HeatmapColumn]s);
    - [projectx.ts]   : the [ProjectXSocket] fields the server reads and writes;
    - [auth.ts]       : the session store and [validateAndRefresh];
    - [index.ts]      : the [streams] registry, the [/stream/start] and
      [/stream/stop] handlers and the token refresh loop.

    Numbers.  Tick indices are the results of [Math.round] and are modelled as
    [Z]; sums and differences of ticks are rounded to the nearest double as
    the source's numbers are ([JS.add], [JS.sub]), which matters from [2^53]
    on.  Prices and the tick size are JavaScript numbers; every finite double
    is a rational, so they are modelled as [Q] (the rounding error of the
    floating point division, NaN and the infinities are outside the model).
    Volumes and quantities are lot counts and are modelled as [Z], negative
    values included, since the source does not exclude them.  The two
    sentinels [-Infinity] and [Infinity] of the best bid / best ask scan are
    the [None] of an [option Z]. *)

From Stdlib Require Import ZArith QArith Qround Lia.
From stdpp Require Import gmap strings list fin_maps.

Local Open Scope Z_scope.

(** ** JavaScript primitives used by the source *)

Module JS.

(** [Math.round(x)]: nearest integer, halves towards +Infinity.  The result
    [-0] of JavaScript is [0] here; the source only compares it with
    [=== 0], which holds for both. *)
Definition Math_round (x : Q) : Z := Qfloor (x + (1 # 2))%Q.

(** [Math.floor(x)]. *)
Definition Math_floor (x : Q) : Z := Qfloor x.

(** [a / b] on two numbers. *)
Definition div (a b : Q) : Q := (a / b)%Q.

(** Integers as numbers.  A number is an IEEE 754 double, and an integer is
    a double exactly when it has at most 53 significant bits.  [fl z] is the
    double nearest to the integer [z], ties going to the even significand:
    what an integer result becomes when it is stored in a number.  Around
    [z] the doubles are [2^e] apart with [e = log2 |z| - 52], so [fl] is the
    identity up to [2^53] in magnitude.  (From [2^1024] on the result would
    be an infinity, which is outside the model.) *)
Definition fl (z : Z) : Z :=
  let q := 2 ^ Z.max 0 (Z.log2 (Z.abs z) - 52) in
  let d := z / q in
  let r := z mod q in
  if 2 * r <? q then d * q
  else if q <? 2 * r then (d + 1) * q
  else if Z.even d then d * q else (d + 1) * q.

(** [a + b] and [a - b] on two integer-valued numbers. *)
Definition add (a b : Z) : Z := fl (a + b).

Definition sub (a b : Z) : Z := fl (a - b).

(** [Number.MAX_SAFE_INTEGER] and [Number.isSafeInteger] on an integer. *)
Definition MAX_SAFE_INTEGER : Z := 2 ^ 53 - 1.

Definition isSafeInteger (z : Z) : bool := Z.abs z <=? MAX_SAFE_INTEGER.

(** [v || 0] where [v] is the result of [Map.prototype.get]: [undefined]
    and [0] are the falsy cases. *)
Definition or_zero (v : option Z) : Z :=
  match v with
  | Some x => if x =? 0 then 0 else x
  | None => 0
  end.

(** [new Array(n)] throws a RangeError unless [n] is an integer in
    [0, 2^32 - 1]. *)
Definition valid_array_length (n : Z) : bool :=
  (0 <=? n) && (n <=? 4294967295).

(** [new Array(n).fill(x)]. *)
Definition Array_fill (n : Z) (x : Z) : list Z := replicate (Z.to_nat n) x.

(** Truthiness of a string: only the empty string is falsy. *)
Definition truthy (s : string) : bool :=
  match s with
  | EmptyString => false
  | _ => true
  end.

End JS.

(** ** config.ts *)

(** The two aggregation settings of [CONFIG], each the result of a
    [parseInt].  A [PRICE_WINDOW_TICKS] that is negative (or not a number, for
    which any negative value stands here) makes [new Array(windowSize)]
    throw; see [JS.valid_array_length]. *)
Record Config := {
  BUCKET_MS : Z;
  PRICE_WINDOW_TICKS : Z
}.

(** The values used when the environment does not override them. *)
Definition CONFIG_default : Config :=
  {| BUCKET_MS := 100; PRICE_WINDOW_TICKS := 200 |}.

(** ** types.ts *)

Inductive Side := Buy | Sell | NoSide.

Record TradeData := {
  priceTick : Z;
  price : Q;
  volume : Z;
  side : Side;
  timestamp : Z
}.

Record HeatmapColumn := {
  t : Z;
  midTick : Z;
  col_bids : list Z;
  col_asks : list Z;
  trades : list TradeData
}.

(** ** aggregator.ts *)

Record DepthMessage := {
  d_contractId : string;
  domType : Z;
  d_price : Q;
  d_volume : Z;
  d_timestamp : string
}.

Record TradeMessage := {
  t_contractId : string;
  t_price : Q;
  quantity : Z;
  aggressorSide : Z;
  t_timestamp : string
}.

(** The fields of a [MarketAggregator] instance.  The callback
    [onColumnGenerated] is not a field of the model: a call of it is the
    [Emitted] outcome of [bucket]. *)
Record MarketAggregator := {
  contractId : string;
  tickSize : Q;
  bids : gmap Z Z;
  asks : gmap Z Z;
  currentBucketTrades : list TradeData;
  intervalId : option nat;
  lastMidTick : Z
}.

Definition set_bids (f : gmap Z Z → gmap Z Z) (a : MarketAggregator) :=
  {| contractId := contractId a; tickSize := tickSize a;
     bids := f (bids a); asks := asks a;
     currentBucketTrades := currentBucketTrades a;
     intervalId := intervalId a; lastMidTick := lastMidTick a |}.

Definition set_asks (f : gmap Z Z → gmap Z Z) (a : MarketAggregator) :=
  {| contractId := contractId a; tickSize := tickSize a;
     bids := bids a; asks := f (asks a);
     currentBucketTrades := currentBucketTrades a;
     intervalId := intervalId a; lastMidTick := lastMidTick a |}.

Definition set_trades (l : list TradeData) (a : MarketAggregator) :=
  {| contractId := contractId a; tickSize := tickSize a;
     bids := bids a; asks := asks a;
     currentBucketTrades := l;
     intervalId := intervalId a; lastMidTick := lastMidTick a |}.

Definition set_intervalId (i : option nat) (a : MarketAggregator) :=
  {| contractId := contractId a; tickSize := tickSize a;
     bids := bids a; asks := asks a;
     currentBucketTrades := currentBucketTrades a;
     intervalId := i; lastMidTick := lastMidTick a |}.

Definition set_lastMidTick (m : Z) (a : MarketAggregator) :=
  {| contractId := contractId a; tickSize := tickSize a;
     bids := bids a; asks := asks a;
     currentBucketTrades := currentBucketTrades a;
     intervalId := intervalId a; lastMidTick := m |}.

(** [new MarketAggregator(contractId, tickSize, cb)]. *)
Definition new_MarketAggregator (cid : string) (ts : Q) : MarketAggregator :=
  {| contractId := cid; tickSize := ts;
     bids := ∅; asks := ∅;
     currentBucketTrades := [];
     intervalId := None; lastMidTick := 0 |}.

(** [start()]: [h] is the handle [setInterval] returns. *)
Definition start (h : nat) (a : MarketAggregator) : MarketAggregator :=
  match intervalId a with
  | Some _ => a
  | None => set_intervalId (Some h) a
  end.

(** [stop()]. *)
Definition stop (a : MarketAggregator) : MarketAggregator :=
  match intervalId a with
  | Some _ => set_intervalId None a
  | None => a
  end.

(** [Math.round(price / this.tickSize)].  The tick size is never 0:
    [/stream/start] answers 400 to a falsy [tickSize] (see [start_enter]). *)
Definition tickOf (a : MarketAggregator) (p : Q) : Z :=
  JS.Math_round (JS.div p (tickSize a)).

(** The two branches [if (msg.volume === 0) side.delete(tick); else
    side.set(tick, msg.volume)]. *)
Definition updateLevel (tick vol : Z) (m : gmap Z Z) : gmap Z Z :=
  if vol =? 0 then delete tick m else <[tick := vol]> m.

(** [handleDepth(msg)]. *)
Definition handleDepth (msg : DepthMessage) (a : MarketAggregator)
  : MarketAggregator :=
  let tick := tickOf a (d_price msg) in
  match domType msg with
  | 6 => set_asks (λ _, ∅) (set_bids (λ _, ∅) a)
  | 1 | 3 | 10 => set_asks (updateLevel tick (d_volume msg)) a
  | 2 | 4 | 9 => set_bids (updateLevel tick (d_volume msg)) a
  | _ => a
  end.

(** The object literal that [handleTrade] pushes.  [getTime] stands for the
    runtime's [new Date(s).getTime()] (a timestamp that does not parse is
    outside the model). *)
Definition tradeRecord (getTime : string → Z) (msg : TradeMessage)
    (a : MarketAggregator) : TradeData :=
  let tick := tickOf a (t_price msg) in
  let side := NoSide in
  let side := if aggressorSide msg =? 0 then Buy
              else if aggressorSide msg =? 1 then Sell
              else side in
  {| priceTick := tick; price := t_price msg; volume := quantity msg;
     side := side; timestamp := getTime (t_timestamp msg) |}.

(** [handleTrade(msg)]. *)
Definition handleTrade (getTime : string → Z) (msg : TradeMessage)
    (a : MarketAggregator) : MarketAggregator :=
  set_trades (currentBucketTrades a ++ [tradeRecord getTime msg a]) a.

(** The scan [let bestBid = -Infinity; for (const t of keys) if (t > bestBid)
    bestBid = t;] over the keys in iteration order. *)
Definition scanBestBid (keys : list Z) : option Z :=
  foldl (λ best t, match best with
                   | None => Some t
                   | Some b => if b <? t then Some t else Some b
                   end) None keys.

(** The scan [let bestAsk = Infinity; for (const t of keys) if (t < bestAsk)
    bestAsk = t;]. *)
Definition scanBestAsk (keys : list Z) : option Z :=
  foldl (λ best t, match best with
                   | None => Some t
                   | Some b => if t <? b then Some t else Some b
                   end) None keys.

(** [m.keys()].  A JavaScript [Map] iterates in insertion order, which a
    [gmap] does not record; the two scans are shown below ([bestBid_Some],
    [bestAsk_Some]) to return the largest resp. smallest key whatever the
    order of the enumeration. *)
Definition keys (m : gmap Z Z) : list Z := (map_to_list m).*1.

Definition bestBid (a : MarketAggregator) : option Z := scanBestBid (keys (bids a)).
Definition bestAsk (a : MarketAggregator) : option Z := scanBestAsk (keys (asks a)).

(** The value of [midTick] after the [if / else if] chain of [bucket]
    ("Calculate Mid"). *)
Definition calcMid (a : MarketAggregator) : Z :=
  match bestBid a, bestAsk a with
  | Some b, Some k => JS.Math_round (JS.div (inject_Z (JS.add b k)) 2)
  | bb, ba =>
      match last (currentBucketTrades a) with
      | Some tr => priceTick tr
      | None =>
          match bb with
          | Some b => b
          | None =>
              match ba with
              | Some k => k
              | None => lastMidTick a
              end
          end
      end
  end.

(** The value of [midTick] that reaches the test [if (midTick === 0) return],
    that is after the two "Fallback" lines. *)
Definition guardMid (a : MarketAggregator) : Z :=
  let midTick := calcMid a in
  let midTick := match bestBid a with
                 | Some b => if midTick =? 0 then b else midTick
                 | None => midTick
                 end in
  let midTick := match bestAsk a with
                 | Some k => if midTick =? 0 then k else midTick
                 | None => midTick
                 end in
  midTick.

(** The loop [for (let i = 0; i < windowSize; i++) arr[i] = side.get(startTick
    + i) || 0] on an array created by [new Array(windowSize).fill(0)]. *)
Definition fillWindow (windowSize startTick : Z) (m : gmap Z Z) : list Z :=
  foldl (λ arr i, <[i := JS.or_zero (m !! JS.add startTick (Z.of_nat i))]> arr)
        (JS.Array_fill windowSize 0)
        (seq 0 (Z.to_nat windowSize)).

(** What one call of [bucket()] does besides updating the fields. *)
Inductive Outcome :=
| Skipped                       (* the early [return]; the callback is not called *)
| Emitted (col : HeatmapColumn) (* [this.onColumnGenerated(column)] *)
| RangeError.                   (* [new Array(windowSize)] threw *)

(** [bucket()]; [now] is the value of [Date.now()]. *)
Definition bucket (cfg : Config) (now : Z) (a : MarketAggregator)
  : MarketAggregator * Outcome :=
  let midTick := guardMid a in
  if midTick =? 0 then (a, Skipped)
  else
    let a := set_lastMidTick midTick a in
    let windowSize := PRICE_WINDOW_TICKS cfg in
    let halfWindow := JS.Math_floor (JS.div (inject_Z windowSize) 2) in
    let startTick := JS.sub midTick halfWindow in
    if JS.valid_array_length windowSize then
      let bidArray := fillWindow windowSize startTick (bids a) in
      let askArray := fillWindow windowSize startTick (asks a) in
      let column := {| t := now; midTick := midTick;
                       col_bids := bidArray; col_asks := askArray;
                       trades := currentBucketTrades a |} in
      (set_trades [] a, Emitted column)
    else (a, RangeError).

(** The events one aggregator instance sees, and the trace it leaves: the
    trade records pushed by [handleTrade] and the columns handed to the
    callback, in order. *)
Inductive Event :=
| EvDepth (msg : DepthMessage)
| EvTrade (msg : TradeMessage)
| EvBucket (now : Z).

Inductive LogItem :=
| LogTrade (tr : TradeData)
| LogEmit (col : HeatmapColumn).

Definition stepEvent (cfg : Config) (getTime : string → Z)
    (st : MarketAggregator * list LogItem) (e : Event)
  : MarketAggregator * list LogItem :=
  let '(a, log) := st in
  match e with
  | EvDepth msg => (handleDepth msg a, log)
  | EvTrade msg =>
      (handleTrade getTime msg a, log ++ [LogTrade (tradeRecord getTime msg a)])
  | EvBucket now =>
      match bucket cfg now a with
      | (a', Emitted col) => (a', log ++ [LogEmit col])
      | (a', _) => (a', log)
      end
  end.

Definition run (cfg : Config) (getTime : string → Z) (a : MarketAggregator)
    (evs : list Event) : MarketAggregator * list LogItem :=
  foldl (stepEvent cfg getTime) (a, []) evs.

(** A sequence of [handleDepth] calls. *)
Definition applyDepths (msgs : list DepthMessage) (a : MarketAggregator)
  : MarketAggregator :=
  foldl (λ a msg, handleDepth msg a) a msgs.

(** The trade records of a trace that come after its last emitted column. *)
Fixpoint sinceLastEmit_aux (acc : list TradeData) (log : list LogItem)
  : list TradeData :=
  match log with
  | [] => acc
  | LogTrade tr :: log' => sinceLastEmit_aux (acc ++ [tr]) log'
  | LogEmit _ :: log' => sinceLastEmit_aux [] log'
  end.

Definition sinceLastEmit (log : list LogItem) : list TradeData :=
  sinceLastEmit_aux [] log.

(** ** projectx.ts *)

(** The fields of a [ProjectXSocket] that the server code reads and writes.
    The SignalR [connection] itself is outside the model; the settling of its
    promises is an input of the handlers below. *)
Record ProjectXSocket := {
  token : string;
  isConnected : bool
}.

(** [new ProjectXSocket(token)]. *)
Definition new_ProjectXSocket (tok : string) : ProjectXSocket :=
  {| token := tok; isConnected := false |}.

(** [updateToken(newToken)]. *)
Definition updateToken (newToken : string) (s : ProjectXSocket) : ProjectXSocket :=
  {| token := newToken; isConnected := isConnected s |}.

Definition set_isConnected (b : bool) (s : ProjectXSocket) : ProjectXSocket :=
  {| token := token s; isConnected := b |}.

(** ** auth.ts *)

Record UserSession := {
  userName : string;
  accessToken : string;
  tokenExpiresAt : Z
}.

(** What the [/api/Auth/validate] call comes back with. *)
Inductive ValidateReply :=
| RequestFailed                                     (* [axios.post] rejected *)
| Reply (success : bool) (newToken : option string). (* [response.data] *)

Definition ms_23h : Z := 23 * 60 * 60 * 1000.

(** What the [/api/Auth/loginKey] call comes back with; a missing [token]
    is the empty string. *)
Inductive LoginReply :=
| LoginRequestFailed
| LoginData (success : bool) (token : string).

(** [AuthService.login(userName, apiKey)]; [uuid] is the identifier
    [uuidv4()] generates. *)
Definition login (reply : LoginReply) (uuid : string) (now : Z) (user : string)
    (sessionStore : gmap string UserSession)
  : gmap string UserSession * option string :=
  match reply with
  | LoginData true tok =>
      if JS.truthy tok then
        (<[uuid := {| userName := user; accessToken := tok;
                      tokenExpiresAt := now + ms_23h |}]> sessionStore,
         Some uuid)
      else (sessionStore, None)
  | _ => (sessionStore, None)
  end.

(** [AuthService.logout(sessionId)]. *)
Definition logout (sessionId : string) (sessionStore : gmap string UserSession)
  : gmap string UserSession :=
  delete sessionId sessionStore.

(** [AuthService.validateAndRefresh(sessionId)], with the reply of the
    upstream and the value of [Date.now()] as inputs. *)
Definition validateAndRefresh (reply : ValidateReply) (now : Z) (sessionId : string)
    (sessionStore : gmap string UserSession)
  : gmap string UserSession * option string :=
  match sessionStore !! sessionId with
  | None => (sessionStore, None)
  | Some session =>
      match reply with
      | Reply true nt =>
          match nt with
          | Some tok =>
              if JS.truthy tok then
                (<[sessionId := {| userName := userName session;
                                   accessToken := tok;
                                   tokenExpiresAt := now + ms_23h |}]> sessionStore,
                 Some tok)
              else (sessionStore, Some (accessToken session))
          | None => (sessionStore, Some (accessToken session))
          end
      | _ => (sessionStore, None)
      end
  end.

(** ** index.ts *)

(** One [ProjectXSocket] / [MarketAggregator] pair created by
    [/stream/start].  [sessionId] is the session identifier captured by the
    closure passed as [onColumnGenerated]: columns of this aggregator go to
    the clients of that session. *)
Record StreamObj := {
  socket : ProjectXSocket;
  aggregator : MarketAggregator;
  s_contractId : string;
  sessionId : string
}.

Definition set_socket (f : ProjectXSocket → ProjectXSocket) (o : StreamObj) :=
  {| socket := f (socket o); aggregator := aggregator o;
     s_contractId := s_contractId o; sessionId := sessionId o |}.

Definition set_aggregator (f : MarketAggregator → MarketAggregator) (o : StreamObj) :=
  {| socket := socket o; aggregator := f (aggregator o);
     s_contractId := s_contractId o; sessionId := sessionId o |}.

(** The server's mutable state.  JavaScript objects are references: [heap]
    holds every socket/aggregator pair ever created, by address, and the
    registry [streams] maps a session identifier to the address of its
    registered stream.  A pair that is no longer (or not yet) in [streams]
    stays alive as long as its connection or its interval timer does. *)
Record Server := {
  heap : gmap nat StreamObj;
  nextAddr : nat;
  streams : gmap string nat;
  sessionStore : gmap string UserSession
}.

Definition set_heap (f : gmap nat StreamObj → gmap nat StreamObj) (σ : Server) :=
  {| heap := f (heap σ); nextAddr := nextAddr σ;
     streams := streams σ; sessionStore := sessionStore σ |}.

Definition set_streams (f : gmap string nat → gmap string nat) (σ : Server) :=
  {| heap := heap σ; nextAddr := nextAddr σ;
     streams := f (streams σ); sessionStore := sessionStore σ |}.

Definition set_sessionStore (st : gmap string UserSession) (σ : Server) :=
  {| heap := heap σ; nextAddr := nextAddr σ;
     streams := streams σ; sessionStore := st |}.

Definition alloc (o : StreamObj) (σ : Server) : Server :=
  {| heap := <[nextAddr σ := o]> (heap σ); nextAddr := S (nextAddr σ);
     streams := streams σ; sessionStore := sessionStore σ |}.

(** The body of a [/stream/start] request. *)
Record StartReq := {
  r_sessionId : option string;   (* [req.session?.sessionId] *)
  r_contractId : string;
  r_tickSize : Q
}.

(** An [async] handler runs without interruption up to its next [await] on
    network I/O, where the event loop may run other handlers and timers.  A
    continuation records where a [/stream/start] handler is suspended, with
    the local variables it needs afterwards ([session] is kept as read at the
    entry of the handler). *)
Inductive StartK :=
| KStop (sid : string) (session : UserSession) (req : StartReq) (old : nat)
    (* in [await stream.socket.stop()], at [await this.connection.stop()] *)
| KConnect (sid : string) (req : StartReq) (new : nat)
    (* in [await socket.start()], at [await this.connection.start()] *)
| KSubscribe (sid : string) (req : StartReq) (new : nat)
    (* in [await socket.subscribe(..)], at the two [connection.invoke] *)
| KDone (status : Z)
    (* a response was sent *)
| KThrew.
    (* the handler's promise rejected outside its [try] *)

(** From "Create new components" to the suspension in [socket.start()]. *)
Definition start_create (sid : string) (session : UserSession) (req : StartReq)
    (σ : Server) : Server * StartK :=
  let n := nextAddr σ in
  let o := {| socket := new_ProjectXSocket (accessToken session);
              aggregator := new_MarketAggregator (r_contractId req) (r_tickSize req);
              s_contractId := r_contractId req;
              sessionId := sid |} in
  (alloc o σ, KConnect sid req n).

(** [stream.aggregator.stop(); streams.delete(sessionId);] and what follows. *)
Definition start_teardown (sid : string) (session : UserSession) (req : StartReq)
    (old : nat) (σ : Server) : Server * StartK :=
  let σ := set_heap (alter (set_aggregator stop) old) σ in
  let σ := set_streams (delete sid) σ in
  start_create sid session req σ.

(** The handler from its entry to its first suspension (or response). *)
Definition start_enter (req : StartReq) (σ : Server) : Server * StartK :=
  match r_sessionId req with
  | None => (σ, KDone 401)
  | Some sid =>
      if negb (JS.truthy sid) then (σ, KDone 401) else
      match sessionStore σ !! sid with
      | None => (σ, KDone 401)
      | Some session =>
          if negb (JS.truthy (r_contractId req)) || Qeq_bool (r_tickSize req) 0
          then (σ, KDone 400)
          else
            match streams σ !! sid with
            | Some old =>
                match heap σ !! old with
                | Some o =>
                    if isConnected (socket o)
                    then (σ, KStop sid session req old)
                    else start_teardown sid session req old σ
                | None => start_teardown sid session req old σ
                end
            | None => start_create sid session req σ
            end
      end
  end.

(** The handler resumes because the promise it awaits settled; [ok] tells
    whether it was fulfilled or rejected. *)
Definition start_resume (ok : bool) (k : StartK) (σ : Server) : Server * StartK :=
  match k with
  | KStop sid session req old =>
      if ok then
        let σ := set_heap (alter (set_socket (set_isConnected false)) old) σ in
        start_teardown sid session req old σ
      else (σ, KThrew)
  | KConnect sid req n =>
      if ok then
        (set_heap (alter (set_socket (set_isConnected true)) n) σ, KSubscribe sid req n)
      else (σ, KDone 500)
  | KSubscribe sid req n =>
      if ok then
        let σ := set_heap (alter (set_aggregator (start n)) n) σ in
        let σ := set_streams (<[sid := n]>) σ in
        (σ, KDone 200)
      else (σ, KDone 500)
  | KDone _ | KThrew => (σ, k)
  end.

(** A [/stream/start] handler that runs from its entry to its response with
    no other handler or timer in between; the three flags are the outcomes
    of [connection.stop()], [connection.start()] and the two
    [connection.invoke] calls, each used only if the handler gets there. *)
Definition startStream (okStop okConnect okSubscribe : bool) (req : StartReq)
    (σ : Server) : Server * StartK :=
  let '(σ, k) := start_enter req σ in
  let '(σ, k) := match k with
                 | KStop _ _ _ _ => start_resume okStop k σ
                 | _ => (σ, k)
                 end in
  let '(σ, k) := match k with
                 | KConnect _ _ _ => start_resume okConnect k σ
                 | _ => (σ, k)
                 end in
  match k with
  | KSubscribe _ _ _ => start_resume okSubscribe k σ
  | _ => (σ, k)
  end.

(** [/stream/stop] (and the stream part of [/auth/logout]), from the lookup
    to the response; [ok] is the outcome of [connection.stop()], used only
    when the socket is connected.  The handler is shown here run to its end. *)
Definition stopStream (ok : bool) (sid : string) (σ : Server) : Server :=
  match streams σ !! sid with
  | Some old =>
      match heap σ !! old with
      | Some o =>
          if isConnected (socket o) && negb ok then σ
          else
            let σ := set_heap (alter (set_socket (set_isConnected false)) old) σ in
            let σ := set_heap (alter (set_aggregator stop) old) σ in
            set_streams (delete sid) σ
      | None => σ
      end
  | None => σ
  end.

(** The whole system: the server state, the suspended [/stream/start]
    handlers by request number, and every column broadcast so far with the
    session it was broadcast to and the address of the aggregator that
    produced it. *)
Record World := {
  server : Server;
  pending : gmap nat StartK;
  broadcasts : list (string * nat * HeatmapColumn)
}.

Definition initWorld (store : gmap string UserSession) : World :=
  {| server := {| heap := ∅; nextAddr := 0; streams := ∅; sessionStore := store |};
     pending := ∅; broadcasts := [] |}.

(** What the event loop can run next. *)
Inductive Action :=
| AStart (rid : nat) (req : StartReq)   (* a [/stream/start] request arrives *)
| AResume (rid : nat) (ok : bool)       (* the promise awaited by request [rid] settles *)
| ADepth (addr : nat) (msg : DepthMessage)  (* connection of [addr] delivers GatewayDepth *)
| ATrade (addr : nat) (msg : TradeMessage)  (* connection of [addr] delivers GatewayTrade *)
| ATimer (addr : nat) (now : Z).        (* the interval timer of [addr] is due *)

Definition stepWorld (cfg : Config) (getTime : string → Z) (w : World) (act : Action)
  : World :=
  match act with
  | AStart rid req =>
      let '(σ, k) := start_enter req (server w) in
      {| server := σ; pending := <[rid := k]> (pending w); broadcasts := broadcasts w |}
  | AResume rid ok =>
      match pending w !! rid with
      | Some k =>
          let '(σ, k') := start_resume ok k (server w) in
          {| server := σ; pending := <[rid := k']> (pending w);
             broadcasts := broadcasts w |}
      | None => w
      end
  | ADepth addr msg =>
      match heap (server w) !! addr with
      | Some o =>
          if isConnected (socket o) && String.eqb (d_contractId msg) (s_contractId o)
          then {| server := set_heap (alter (set_aggregator (handleDepth msg)) addr) (server w);
                  pending := pending w; broadcasts := broadcasts w |}
          else w
      | None => w
      end
  | ATrade addr msg =>
      match heap (server w) !! addr with
      | Some o =>
          if isConnected (socket o) && String.eqb (t_contractId msg) (s_contractId o)
          then {| server := set_heap (alter (set_aggregator (handleTrade getTime msg)) addr) (server w);
                  pending := pending w; broadcasts := broadcasts w |}
          else w
      | None => w
      end
  | ATimer addr now =>
      match heap (server w) !! addr with
      | Some o =>
          match intervalId (aggregator o) with
          | Some _ =>
              let '(a', out) := bucket cfg now (aggregator o) in
              {| server := set_heap (<[addr := set_aggregator (λ _, a') o]>) (server w);
                 pending := pending w;
                 broadcasts := broadcasts w ++
                               match out with
                               | Emitted col => [(sessionId o, addr, col)]
                               | _ => []
                               end |}
          | None => w
          end
      | None => w
      end
  end.

Definition runWorld (cfg : Config) (getTime : string → Z) (w : World)
    (acts : list Action) : World :=
  foldl (stepWorld cfg getTime) w acts.

(** The addresses of the aggregators of session [sid] whose interval timer
    is armed. *)
Definition runningFor (sid : string) (σ : Server) : list nat :=
  (filter (λ p, sessionId p.2 = sid ∧ is_Some (intervalId (aggregator p.2)))
          (map_to_list (heap σ))).*1.

(** One iteration of the token refresh loop, for the registry entry
    [(sid, addr)]. *)
Definition refreshEntry (reply : ValidateReply) (now : Z) (sid : string) (addr : nat)
    (σ : Server) : Server :=
  let '(store, newToken) := validateAndRefresh reply now sid (sessionStore σ) in
  let σ := set_sessionStore store σ in
  match newToken with
  | Some tok =>
      if JS.truthy tok
      then set_heap (alter (set_socket (updateToken tok)) addr) σ
      else σ
  | None => σ
  end.

(** A whole refresh cycle: the loop over [streams.entries()]; [replies]
    gives the upstream's answer for each session.  The cycle is shown run
    from its first entry to its last; what other handlers do while it awaits
    a reply is not part of it. *)
Definition refreshCycle (replies : string → ValidateReply) (now : Z) (σ : Server)
  : Server :=
  foldl (λ σ e, refreshEntry (replies e.1) now e.1 e.2 σ) σ (map_to_list (streams σ)).

(** ** index.ts: the clients of a session *)

(** [ClientManager.clients] maps a session identifier to the set of its
    WebSocket connections; a connection is named by the address of its
    [WebSocket] object.  [ClientManager.add(sessionId, ws)]. *)
Definition ClientManager_add (sid : string) (ws : nat)
    (clients : gmap string (gset nat)) : gmap string (gset nat) :=
  let clients := match clients !! sid with
                 | Some _ => clients
                 | None => <[sid := ∅]> clients
                 end in
  alter (λ set, {[ws]} ∪ set) sid clients.

(** [ClientManager.remove(sessionId, ws)]: the set is updated in place, and
    its entry is deleted when it becomes empty. *)
Definition ClientManager_remove (sid : string) (ws : nat)
    (clients : gmap string (gset nat)) : gmap string (gset nat) :=
  match clients !! sid with
  | Some set =>
      let set := set ∖ {[ws]} in
      if decide (size set = 0%nat) then delete sid clients
      else <[sid := set]> clients
  | None => clients
  end.

(** [ClientManager.getClients(sessionId)]. *)
Definition ClientManager_getClients (sid : string)
    (clients : gmap string (gset nat)) : option (gset nat) :=
  clients !! sid.

(** [WebSocket.OPEN]. *)
Definition WebSocket_OPEN : Z := 1.

(** The callback given to [new MarketAggregator] by [/stream/start]: the
    connections on which [client.send(msg)] is called for one column, where
    [readyState] gives the state of each connection. *)
Definition broadcastTo (readyState : nat → Z) (sid : string)
    (clients : gmap string (gset nat)) : list nat :=
  match ClientManager_getClients sid clients with
  | Some set => filter (λ ws, readyState ws = WebSocket_OPEN) (elements set)
  | None => []
  end.

(** The operations on the client registry: [wss.on('connection')] of an
    authenticated client adds, [ws.on('close')] removes. *)
Inductive ClientOp :=
| CAdd (sid : string) (ws : nat)
| CRemove (sid : string) (ws : nat).

Definition applyClientOp (clients : gmap string (gset nat)) (op : ClientOp)
  : gmap string (gset nat) :=
  match op with
  | CAdd sid ws => ClientManager_add sid ws clients
  | CRemove sid ws => ClientManager_remove sid ws clients
  end.

(** ** index.ts: the other routes *)

(** Whether [await stream.socket.stop()] rejects in a handler that stops the
    stream of [sid]: the socket is connected and [connection.stop()] fails. *)
Definition stopThrows (ok : bool) (sid : string) (σ : Server) : bool :=
  match streams σ !! sid with
  | Some old =>
      match heap σ !! old with
      | Some o => isConnected (socket o) && negb ok
      | None => false
      end
  | None => false
  end.

(** [POST /stream/stop], run from entry to response; [cookie] is
    [req.session?.sessionId]. *)
Definition streamStopHandler (ok : bool) (cookie : option string) (σ : Server)
  : Server * StartK :=
  match cookie with
  | Some sid =>
      if JS.truthy sid then
        if stopThrows ok sid σ then (σ, KThrew)
        else (stopStream ok sid σ, KDone 200)
      else (σ, KDone 401)
  | None => (σ, KDone 401)
  end.

(** [POST /auth/logout], run from entry to response. *)
Definition logoutHandler (ok : bool) (cookie : option string) (σ : Server)
  : Server * StartK :=
  match cookie with
  | Some sid =>
      if JS.truthy sid then
        if stopThrows ok sid σ then (σ, KThrew)
        else
          let σ := stopStream ok sid σ in
          (set_sessionStore (logout sid (sessionStore σ)) σ, KDone 200)
      else (σ, KDone 200)
  | None => (σ, KDone 200)
  end.

(** [POST /auth/login], run from entry to response: the new server state,
    the status and the [sessionId] stored in the cookie. *)
Definition loginHandler (reply : LoginReply) (uuid : string) (now : Z)
    (user apiKey : string) (σ : Server) : Server * Z * option string :=
  if negb (JS.truthy user) || negb (JS.truthy apiKey) then (σ, 400, None)
  else
    match login reply uuid now user (sessionStore σ) with
    | (store, Some sid) => (set_sessionStore store σ, 200, Some sid)
    | (store, None) => (set_sessionStore store σ, 401, None)
    end.

(** [AuthService.getSession(sessionId)]. *)
Definition getSession (sid : string) (store : gmap string UserSession)
  : option UserSession :=
  store !! sid.

(** Requests served one at a time, each handler (and each refresh cycle)
    running to its end before the next one starts. *)
Inductive Request :=
| ReqLogin (reply : LoginReply) (uuid : string) (now : Z) (user apiKey : string)
| ReqLogout (ok : bool) (cookie : option string)
| ReqStart (okStop okConnect okSubscribe : bool) (req : StartReq)
| ReqStop (ok : bool) (cookie : option string)
| ReqRefresh (replies : string → ValidateReply) (now : Z).

Definition serve (σ : Server) (r : Request) : Server :=
  match r with
  | ReqLogin reply uuid now user apiKey =>
      (loginHandler reply uuid now user apiKey σ).1.1
  | ReqLogout ok cookie => (logoutHandler ok cookie σ).1
  | ReqStart okStop okConnect okSubscribe req =>
      (startStream okStop okConnect okSubscribe req σ).1
  | ReqStop ok cookie => (streamStopHandler ok cookie σ).1
  | ReqRefresh replies now => refreshCycle replies now σ
  end.

Definition serveAll (σ : Server) (rs : list Request) : Server :=
  foldl serve σ rs.

(** The server right after it is started. *)
Definition initServer : Server :=
  {| heap := ∅; nextAddr := 0; streams := ∅; sessionStore := ∅ |}.

(** ** client: App.tsx and HeatmapCanvas.tsx *)

(** The state updater of [startStream] in [App.tsx]: the received column is
    appended to the buffer and, when the buffer then holds more than 5000
    columns, the oldest one is dropped ([next.shift()]). *)
Definition pushColumn (prev : list HeatmapColumn) (col : HeatmapColumn)
  : list HeatmapColumn :=
  let next := prev ++ [col] in
  if (5000 <? Z.of_nat (length next)) then tail next else next.

(** One pixel written by the heatmap loop of [HeatmapCanvas]: the index of
    its first channel in [ImageData.data], and the tick and the volume it
    stands for.  The colour and the intensity (a logarithm) are left out. *)
Record PixelWrite := {
  px_idx : Z;
  px_tick : Z;
  px_vol : Z
}.

(** The loop [for (let j = 0; j < arr.length; j++)] over one side [arr] of
    column number [i] of a buffer of [dataLength] columns: the pixels it
    writes.  [arrLength] is [col.bids.length] (both sides use it for
    [startTick]); [topTick] and [visibleTicks] come from the zoom.  The
    index [(row * data.length + i) * 4] is computed for a row of the image
    that [createImageData(data.length, visibleTicks)] returned; it is below
    the byte length of that image, where the arithmetic of numbers is
    exact. *)
Definition sidePixels (arr : list Z) (arrLength : nat) (mid : Z)
    (topTick visibleTicks dataLength i : Z) : list PixelWrite :=
  let startTick :=
    JS.sub mid (JS.Math_floor (JS.div (inject_Z (Z.of_nat arrLength)) 2)) in
  omap (λ jv : nat * Z,
          let vol := jv.2 in
          if 0 <? vol then
            let tick := JS.add startTick (Z.of_nat jv.1) in
            let row := JS.sub topTick tick in
            if (0 <=? row) && (row <? visibleTicks) then
              Some {| px_idx := (row * dataLength + i) * 4;
                      px_tick := tick; px_vol := vol |}
            else None
          else None)
       (imap pair arr).

Definition bidPixels (col : HeatmapColumn) (topTick visibleTicks dataLength i : Z)
  : list PixelWrite :=
  sidePixels (col_bids col) (length (col_bids col)) (midTick col)
             topTick visibleTicks dataLength i.

Definition askPixels (col : HeatmapColumn) (topTick visibleTicks dataLength i : Z)
  : list PixelWrite :=
  sidePixels (col_asks col) (length (col_bids col)) (midTick col)
             topTick visibleTicks dataLength i.

(** ** Vocabulary of the statements *)

(** The [domType] codes of the two update groups of the [switch]. *)
Definition isAskType (d : Z) : bool := (d =? 1) || (d =? 3) || (d =? 10).
Definition isBidType (d : Z) : bool := (d =? 2) || (d =? 4) || (d =? 9).

(** Every volume stored in the book, on either side, satisfies [P]. *)
Definition book_all (P : Z → Prop) (a : MarketAggregator) : Prop :=
  ∀ T v, bids a !! T = Some v ∨ asks a !! T = Some v → P v.

(** The column handed to the callback by a call of [bucket], if any. *)
Definition emitted (r : MarketAggregator * Outcome) : option HeatmapColumn :=
  match r.2 with
  | Emitted col => Some col
  | _ => None
  end.

(** The columns of a trace. *)
Definition columnsOf (log : list LogItem) : list HeatmapColumn :=
  omap (λ it, match it with LogEmit col => Some col | LogTrade _ => None end) log.

(** Every stored session has a non-empty access token. *)
Definition tokens_truthy (store : gmap string UserSession) : Prop :=
  ∀ sid session, store !! sid = Some session → JS.truthy (accessToken session) = true.

(** Every aggregator whose interval timer is armed is the registered stream
    of its session; allocated addresses are below [nextAddr]; registered
    addresses are allocated. *)
Definition registered_if_running (σ : Server) : Prop :=
  (∀ addr o, heap σ !! addr = Some o →
             is_Some (intervalId (aggregator o)) →
             streams σ !! sessionId o = Some addr)
  ∧ (∀ addr, is_Some (heap σ !! addr) → (addr < nextAddr σ)%nat)
  ∧ (∀ sid addr, streams σ !! sid = Some addr → is_Some (heap σ !! addr)).

(** What a suspended [/stream/start] handler relies on when it resumes:
    the stream it is stopping is still the registered one of its session,
    resp. the session has no registered stream while the handler connects
    its own. *)
Definition K_ok (σ : Server) (k : StartK) : Prop :=
  match k with
  | KStop sid _ _ old => streams σ !! sid = Some old
  | KConnect sid _ n | KSubscribe sid _ n =>
      streams σ !! sid = None
      ∧ ∃ o, heap σ !! n = Some o ∧ sessionId o = sid
             ∧ intervalId (aggregator o) = None
  | KDone _ | KThrew => True
  end.

(** [streams.set(sessionId, { socket, aggregator, contractId })] is the only
    write to the registry, with the pair that the same request created: every
    registry entry holds an allocated pair whose columns go to the session of
    the entry. *)
Definition registered_own (σ : Server) : Prop :=
  ∀ sid addr, streams σ !! sid = Some addr →
    ∃ o, heap σ !! addr = Some o ∧ sessionId o = sid.

(** An unchanged stream apart from its socket's token. *)
Definition same_but_token (o o' : StreamObj) : Prop :=
  aggregator o' = aggregator o
  ∧ isConnected (socket o') = isConnected (socket o)
  ∧ s_contractId o' = s_contractId o
  ∧ sessionId o' = sessionId o.

(** Some concrete messages and states used in the examples. *)
Definition depthMsg (d : Z) (p : Q) (v : Z) : DepthMessage :=
  {| d_contractId := "ES"; domType := d; d_price := p; d_volume := v;
     d_timestamp := "2025-01-01T00:00:00Z" |}.

Definition tradeMsg (p : Q) (q : Z) (s : Z) : TradeMessage :=
  {| t_contractId := "ES"; t_price := p; quantity := q; aggressorSide := s;
     t_timestamp := "2025-01-01T00:00:00Z" |}.

Definition freshES : MarketAggregator := new_MarketAggregator "ES" 1.

Definition noClock : string → Z := λ _, 0.

(** A book with one bid level at price [b] and one ask level at price [k],
    built by two depth updates on a new aggregator of tick size 1. *)
Definition bookAt (b k : Q) : MarketAggregator :=
  handleDepth (depthMsg 1 k 7) (handleDepth (depthMsg 2 b 5) freshES).

(** The book [bookAt 100 104] after one more bid update, of volume [v] at
    price 101. *)
Definition bidAt101 (v : Z) : MarketAggregator :=
  handleDepth (depthMsg 2 101 v) (bookAt 100 104).

(** A short run: two trades, a bucket, another bucket (which emits a column
    without trades, anchored at the carried [lastMidTick]), a third trade, a
    book reset and a last bucket. *)
Definition demoEvents : list Event :=
  [EvTrade (tradeMsg 50 1 0); EvTrade (tradeMsg 51 2 1);
   EvBucket 100; EvBucket 200;
   EvTrade (tradeMsg 52 3 7); EvDepth (depthMsg 6 0 0);
   EvBucket 300].

(** One logged-in session "S" and its [/stream/start] request. *)
Definition storeS : gmap string UserSession :=
  {[ "S" := {| userName := "trader"; accessToken := "jwt-1"; tokenExpiresAt := 0 |} ]}.

Definition reqS : StartReq :=
  {| r_sessionId := Some "S"; r_contractId := "ES"; r_tickSize := 1 |}.

(** Two [/stream/start] requests of session "S" that overlap: request 2
    enters while request 1 is suspended in [socket.start()]; both then
    connect, subscribe and register. *)
Definition overlappingStarts : list Action :=
  [AStart 1 reqS; AStart 2 reqS;
   AResume 1 true; AResume 1 true;
   AResume 2 true; AResume 2 true].

(** The same two requests one after the other: request 2 enters after
    request 1 has responded, and stops the stream of request 1 first. *)
Definition consecutiveStarts : list Action :=
  [AStart 1 reqS; AResume 1 true; AResume 1 true;
   AStart 2 reqS; AResume 2 true; AResume 2 true; AResume 2 true].

(** Upstream traffic for the aggregator at address 0, then its timer. *)
Definition feedFirst : list Action :=
  [ATrade 0 (tradeMsg 50 1 0); ATimer 0 100].

Definition afterOverlap : World :=
  runWorld CONFIG_default noClock (initWorld storeS) overlappingStarts.

Definition afterConsecutive : World :=
  runWorld CONFIG_default noClock (initWorld storeS) consecutiveStarts.

(** Session, source address and anchor of each broadcast column. *)
Definition broadcastAnchors (w : World) : list (string * nat * Z) :=
  (λ b, (b.1.1, b.1.2, midTick b.2)) <$> broadcasts w.

(** A new aggregator of tick size 1 whose book is one bid level of volume 5
    at price [p]. *)
Definition oneBidAt (p : Q) : MarketAggregator :=
  handleDepth (depthMsg 2 p 5) freshES.

(** The tick that [bucket()] computes for slot [i] of a window of size [W]
    anchored at [mid]: [startTick + i] with [startTick = mid - floor(W/2)],
    both on numbers. *)
Definition slotTick (mid W : Z) (i : nat) : Z :=
  JS.add (JS.sub mid (JS.Math_floor (JS.div (inject_Z W) 2))) (Z.of_nat i).

(** A new aggregator that has received one trade at price [p]. *)
Definition oneTradeAt (p : Q) : MarketAggregator :=
  handleTrade noClock (tradeMsg p 1 0) freshES.

(** The trade records of a trace, in order. *)
Definition tradesLogged (log : list LogItem) : list TradeData :=
  omap (λ it, match it with LogTrade tr => Some tr | LogEmit _ => None end) log.

(** Every registered stream is allocated, belongs to the session it is
    registered for, is connected and has its timer armed. *)
Definition registered_live (σ : Server) : Prop :=
  ∀ sid addr, streams σ !! sid = Some addr →
    ∃ o, heap σ !! addr = Some o ∧ sessionId o = sid
         ∧ isConnected (socket o) = true
         ∧ is_Some (intervalId (aggregator o)).

(** No session is registered with the pair at address [n]. *)
Definition unregistered (n : nat) (σ : Server) : Prop :=
  ∀ sid, streams σ !! sid ≠ Some n.

(** What a suspended [/stream/start] handler knows besides [K_ok]: the
    session it read has a token, the pair it created is not registered, and
    once connected it stays so. *)
Definition K_live (σ : Server) (k : StartK) : Prop :=
  match k with
  | KStop _ session _ _ => JS.truthy (accessToken session) = true
  | KConnect _ _ n => unregistered n σ
  | KSubscribe _ _ n =>
      unregistered n σ ∧ ∃ o, heap σ !! n = Some o ∧ isConnected (socket o) = true
  | _ => True
  end.

(** Every socket holds a non-empty token. *)
Definition sockets_truthy (σ : Server) : Prop :=
  ∀ addr o, heap σ !! addr = Some o → JS.truthy (token (socket o)) = true.

(** The four properties that handlers served one at a time maintain. *)
Definition server_ok (σ : Server) : Prop :=
  registered_if_running σ ∧ registered_live σ
  ∧ tokens_truthy (sessionStore σ) ∧ sockets_truthy σ.

(** What holds between the segments of a [/stream/start] handler that
    entered in server state [σ0]. *)
Definition handler_ok (σ0 σ : Server) (k : StartK) : Prop :=
  registered_if_running σ ∧ K_ok σ k ∧ registered_live σ ∧ sockets_truthy σ
  ∧ K_live σ k ∧ sessionStore σ = sessionStore σ0.

(** Connection [ws] is one of the clients of session [sid]. *)
Definition has_client (sid : string) (ws : nat)
    (clients : gmap string (gset nat)) : Prop :=
  ∃ set, clients !! sid = Some set ∧ ws ∈ set.

(** A login of user "trader" that the upstream accepts, and the start of a
    stream in the session it creates. *)
Definition loginS : Request :=
  ReqLogin (LoginData true "jwt-1") "S" 0 "trader" "key".

Definition startS : Request := ReqStart true true true reqS.

(** Allocated addresses are below [nextAddr]. *)
Definition heap_fresh (σ : Server) : Prop :=
  ∀ addr, is_Some (heap σ !! addr) → (addr < nextAddr σ)%nat.

(** Every pair of [σ] is still there in [σ'], for the same session and the
    same contract. *)
Definition keeps_objects (σ σ' : Server) : Prop :=
  ∀ addr o, heap σ !! addr = Some o →
    ∃ o', heap σ' !! addr = Some o' ∧ sessionId o' = sessionId o
          ∧ s_contractId o' = s_contractId o.

(** Every broadcast column is a well-formed column sent to the session that
    owns the aggregator it came from. *)
Definition broadcasts_ok (cfg : Config) (w : World) : Prop :=
  ∀ sid addr col, (sid, addr, col) ∈ broadcasts w →
    midTick col ≠ 0
    ∧ length (col_bids col) = Z.to_nat (PRICE_WINDOW_TICKS cfg)
    ∧ length (col_asks col) = Z.to_nat (PRICE_WINDOW_TICKS cfg)
    ∧ ∃ o, heap (server w) !! addr = Some o ∧ sessionId o = sid.

(** The aggregator event behind an action of the event loop. *)
Definition eventOf (act : Action) : option Event :=
  match act with
  | ADepth _ msg => Some (EvDepth msg)
  | ATrade _ msg => Some (EvTrade msg)
  | ATimer _ now => Some (EvBucket now)
  | AStart _ _ | AResume _ _ => None
  end.

(** The action is an upstream message for contract [cid] delivered to the
    pair at [addr], or a tick of the timer of that pair. *)
Definition feeds (addr : nat) (cid : string) (act : Action) : Prop :=
  match act with
  | ADepth a msg => a = addr ∧ d_contractId msg = cid
  | ATrade a msg => a = addr ∧ t_contractId msg = cid
  | ATimer a _ => a = addr
  | AStart _ _ | AResume _ _ => False
  end.

(** A suspended [/stream/start] handler that has created its pair holds a
    pair of the session it serves. *)
Definition K_own (σ : Server) (k : StartK) : Prop :=
  match k with
  | KConnect sid _ n | KSubscribe sid _ n =>
      ∃ o, heap σ !! n = Some o ∧ sessionId o = sid
  | _ => True
  end.

(** What holds of the server however the handlers interleave. *)
Definition world_own (w : World) : Prop :=
  heap_fresh (server w) ∧ registered_own (server w)
  ∧ ∀ rid k, pending w !! rid = Some k → K_own (server w) k.

(** * Properties *)

(** ** JavaScript primitives *)

Lemma Math_round_half (n : Z) :
  JS.Math_round (JS.div (inject_Z n) 2) = (n + 1) / 2.
Proof.
  unfold JS.Math_round, JS.div, Qfloor, Qdiv, Qplus, Qmult, Qinv, inject_Z.
  cbn [Qnum Qden].
  change (Z.pos (1 * 2 * 2)) with (2 * 2).
  change (Z.pos (1 * 2)) with 2.
  replace (n * 1 * 2 + 1 * 2) with ((n + 1) * 2) by lia.
  apply Z.div_mul_cancel_r; lia.
Qed.

Lemma Math_floor_half (n : Z) :
  JS.Math_floor (JS.div (inject_Z n) 2) = n / 2.
Proof.
  unfold JS.Math_floor, JS.div, Qfloor, Qdiv, Qmult, Qinv, inject_Z.
  cbn [Qnum Qden]. change (Z.pos (1 * 2)) with 2. f_equal. lia.
Qed.

(** Safe integers are doubles: on them the arithmetic of numbers is exact. *)
Lemma fl_safe (z : Z) : JS.isSafeInteger z = true → JS.fl z = z.
Proof.
  unfold JS.isSafeInteger, JS.MAX_SAFE_INTEGER. intros H. apply Z.leb_le in H.
  change (2 ^ 53 - 1) with 9007199254740991 in H.
  assert (Hq : Z.max 0 (Z.log2 (Z.abs z) - 52) = 0).
  { destruct (Z.eq_dec (Z.abs z) 0) as [E|Hne]; [rewrite E; reflexivity|].
    assert (Z.log2 (Z.abs z) < 53); [|lia].
    apply Z.log2_lt_pow2; [lia|]. change (2 ^ 53) with 9007199254740992. lia. }
  unfold JS.fl. rewrite Hq. change (2 ^ 0) with 1.
  rewrite Z.mod_1_r, Z.div_1_r. simpl. lia.
Qed.

Lemma add_safe (a b : Z) : JS.isSafeInteger (a + b) = true → JS.add a b = a + b.
Proof. apply fl_safe. Qed.

Lemma sub_safe (a b : Z) : JS.isSafeInteger (a - b) = true → JS.sub a b = a - b.
Proof. apply fl_safe. Qed.

Lemma isSafeInteger_le (x y : Z) :
  Z.abs x ≤ Z.abs y → JS.isSafeInteger y = true → JS.isSafeInteger x = true.
Proof.
  unfold JS.isSafeInteger. intros Hle H. apply Z.leb_le in H. apply Z.leb_le. lia.
Qed.

Lemma or_zero_default (v : option Z) : JS.or_zero v = default 0 v.
Proof.
  destruct v as [x|]; simpl; [|reflexivity].
  destruct (Z.eqb_spec x 0); congruence.
Qed.

(** ** The best bid / best ask scans *)

Lemma scanBestBid_from (l : list Z) (b : Z) :
  ∃ b', foldl (λ best t, match best with
                         | None => Some t
                         | Some b => if b <? t then Some t else Some b
                         end) (Some b) l = Some b'
        ∧ (b' = b ∨ b' ∈ l) ∧ b ≤ b' ∧ (∀ x, x ∈ l → x ≤ b').
Proof.
  revert b. induction l as [|x l IH]; intros b; simpl.
  - exists b. split_and!; auto with lia. intros x Hx. inversion Hx.
  - destruct (Z.ltb_spec b x) as [Hlt|Hge].
    + destruct (IH x) as (b' & -> & Hin & Hle & Hmax).
      exists b'. split_and!; auto with lia.
      * right. destruct Hin as [->|Hin]; [left | right; assumption].
      * intros y [->|Hy]%elem_of_cons; auto.
    + destruct (IH b) as (b' & -> & Hin & Hle & Hmax).
      exists b'. split_and!; auto.
      * destruct Hin as [->|Hin]; [left; reflexivity | right; right; assumption].
      * intros y [->|Hy]%elem_of_cons; auto with lia.
Qed.

Lemma scanBestAsk_from (l : list Z) (b : Z) :
  ∃ b', foldl (λ best t, match best with
                         | None => Some t
                         | Some b => if t <? b then Some t else Some b
                         end) (Some b) l = Some b'
        ∧ (b' = b ∨ b' ∈ l) ∧ b' ≤ b ∧ (∀ x, x ∈ l → b' ≤ x).
Proof.
  revert b. induction l as [|x l IH]; intros b; simpl.
  - exists b. split_and!; auto with lia. intros x Hx. inversion Hx.
  - destruct (Z.ltb_spec x b) as [Hlt|Hge].
    + destruct (IH x) as (b' & -> & Hin & Hle & Hmax).
      exists b'. split_and!; auto with lia.
      * right. destruct Hin as [->|Hin]; [left | right; assumption].
      * intros y [->|Hy]%elem_of_cons; auto.
    + destruct (IH b) as (b' & -> & Hin & Hle & Hmax).
      exists b'. split_and!; auto.
      * destruct Hin as [->|Hin]; [left; reflexivity | right; right; assumption].
      * intros y [->|Hy]%elem_of_cons; auto with lia.
Qed.

Lemma scanBestBid_spec (l : list Z) :
  match scanBestBid l with
  | None => l = []
  | Some b => b ∈ l ∧ ∀ x, x ∈ l → x ≤ b
  end.
Proof.
  destruct l as [|x l]; [reflexivity|].
  unfold scanBestBid. simpl.
  destruct (scanBestBid_from l x) as (b' & -> & Hin & Hle & Hmax).
  split.
  - destruct Hin as [->|Hin]; [left | right; assumption].
  - intros y [->|Hy]%elem_of_cons; auto.
Qed.

Lemma scanBestAsk_spec (l : list Z) :
  match scanBestAsk l with
  | None => l = []
  | Some b => b ∈ l ∧ ∀ x, x ∈ l → b ≤ x
  end.
Proof.
  destruct l as [|x l]; [reflexivity|].
  unfold scanBestAsk. simpl.
  destruct (scanBestAsk_from l x) as (b' & -> & Hin & Hle & Hmax).
  split.
  - destruct Hin as [->|Hin]; [left | right; assumption].
  - intros y [->|Hy]%elem_of_cons; auto.
Qed.

Lemma elem_of_keys (m : gmap Z Z) (k : Z) : k ∈ keys m ↔ is_Some (m !! k).
Proof.
  unfold keys. rewrite list_elem_of_fmap. split.
  - intros ([k' v] & -> & Hin). apply elem_of_map_to_list in Hin. eauto.
  - intros [v Hv]. exists (k, v). split; [reflexivity|].
    by apply elem_of_map_to_list.
Qed.

Lemma keys_nil (m : gmap Z Z) : keys m = [] ↔ m = ∅.
Proof.
  unfold keys. rewrite <- map_to_list_empty_iff. split.
  - apply fmap_nil_inv.
  - intros ->. reflexivity.
Qed.

(** The best bid is the largest tick of the bid mapping, and there is none
    exactly when the mapping is empty. *)
Lemma bestBid_Some (a : MarketAggregator) (b : Z) :
  bestBid a = Some b ↔
  is_Some (bids a !! b) ∧ ∀ k, is_Some (bids a !! k) → k ≤ b.
Proof.
  unfold bestBid. pose proof (scanBestBid_spec (keys (bids a))) as H.
  split.
  - intros E. rewrite E in H. destruct H as [Hin Hmax]. split.
    + by apply elem_of_keys.
    + intros k Hk. apply Hmax. by apply elem_of_keys.
  - intros [Hin Hmax]. destruct (scanBestBid (keys (bids a))) as [b'|].
    + destruct H as [Hin' Hmax']. f_equal.
      apply elem_of_keys in Hin'. apply elem_of_keys in Hin.
      specialize (Hmax _ Hin'). specialize (Hmax' _ Hin). lia.
    + apply elem_of_keys in Hin. rewrite H in Hin. inversion Hin.
Qed.

Lemma bestBid_None (a : MarketAggregator) : bestBid a = None ↔ bids a = ∅.
Proof.
  unfold bestBid. pose proof (scanBestBid_spec (keys (bids a))) as H.
  rewrite <- keys_nil. split.
  - intros E. by rewrite E in H.
  - intros E. rewrite E. reflexivity.
Qed.

Lemma bestAsk_Some (a : MarketAggregator) (b : Z) :
  bestAsk a = Some b ↔
  is_Some (asks a !! b) ∧ ∀ k, is_Some (asks a !! k) → b ≤ k.
Proof.
  unfold bestAsk. pose proof (scanBestAsk_spec (keys (asks a))) as H.
  split.
  - intros E. rewrite E in H. destruct H as [Hin Hmax]. split.
    + by apply elem_of_keys.
    + intros k Hk. apply Hmax. by apply elem_of_keys.
  - intros [Hin Hmax]. destruct (scanBestAsk (keys (asks a))) as [b'|].
    + destruct H as [Hin' Hmax']. f_equal.
      apply elem_of_keys in Hin'. apply elem_of_keys in Hin.
      specialize (Hmax _ Hin'). specialize (Hmax' _ Hin). lia.
    + apply elem_of_keys in Hin. rewrite H in Hin. inversion Hin.
Qed.

Lemma bestAsk_None (a : MarketAggregator) : bestAsk a = None ↔ asks a = ∅.
Proof.
  unfold bestAsk. pose proof (scanBestAsk_spec (keys (asks a))) as H.
  rewrite <- keys_nil. split.
  - intros E. by rewrite E in H.
  - intros E. rewrite E. reflexivity.
Qed.

(** ** The window arrays *)

Lemma fill_loop (f : nat → Z) (n k : nat) (arr : list Z) :
  (k ≤ n)%nat → length arr = n →
  let r := foldl (λ arr i, <[i := f i]> arr) arr (seq 0 k) in
  length r = n ∧ (∀ i, (i < k)%nat → r !! i = Some (f i)).
Proof.
  intros Hk Hlen. cbv zeta. induction k as [|k IH].
  - split; [assumption | intros i Hi; lia].
  - rewrite seq_S, foldl_app. simpl.
    destruct IH as [IHlen IHget]; [lia|].
    split.
    + by rewrite length_insert.
    + intros i Hi. destruct (decide (i = k)) as [->|Hne].
      * apply list_lookup_insert_eq. lia.
      * rewrite list_lookup_insert_ne by congruence. apply IHget. lia.
Qed.

Lemma fillWindow_spec (W s : Z) (m : gmap Z Z) :
  length (fillWindow W s m) = Z.to_nat W
  ∧ ∀ i : nat, Z.of_nat i < W →
      fillWindow W s m !! i = Some (default 0 (m !! JS.add s (Z.of_nat i))).
Proof.
  unfold fillWindow, JS.Array_fill.
  pose proof (fill_loop (λ i, JS.or_zero (m !! JS.add s (Z.of_nat i)))
                (Z.to_nat W) (Z.to_nat W) (replicate (Z.to_nat W) 0)) as H.
  destruct H as [Hlen Hget]; [lia | apply length_replicate |].
  split; [exact Hlen|].
  intros i Hi. rewrite <- or_zero_default. apply Hget. lia.
Qed.

Lemma slotTick_safe (mid W : Z) (i : nat) :
  0 ≤ W → JS.isSafeInteger (Z.abs mid + W) = true → Z.of_nat i < W →
  slotTick mid W i = mid - W / 2 + Z.of_nat i.
Proof.
  intros HW Hsafe Hi. unfold slotTick. rewrite Math_floor_half.
  assert (Hhalf : 0 ≤ W / 2 ≤ W)
    by (split; [apply Z.div_pos; lia | apply Z.div_le_upper_bound; lia]).
  rewrite (sub_safe mid (W / 2)).
  - apply add_safe. apply (isSafeInteger_le _ (Z.abs mid + W)); [lia | exact Hsafe].
  - apply (isSafeInteger_le _ (Z.abs mid + W)); [lia | exact Hsafe].
Qed.

(** ** [handleDepth] by kind of update *)

Lemma handleDepth_cases (msg : DepthMessage) (a : MarketAggregator) :
  (domType msg = 6 ∧ handleDepth msg a = set_asks (λ _, ∅) (set_bids (λ _, ∅) a))
  ∨ (isAskType (domType msg) = true ∧
     handleDepth msg a = set_asks (updateLevel (tickOf a (d_price msg)) (d_volume msg)) a)
  ∨ (isBidType (domType msg) = true ∧
     handleDepth msg a = set_bids (updateLevel (tickOf a (d_price msg)) (d_volume msg)) a)
  ∨ (domType msg ≠ 6 ∧ isAskType (domType msg) = false ∧
     isBidType (domType msg) = false ∧ handleDepth msg a = a).
Proof.
  unfold handleDepth. destruct (domType msg) as [|p|p].
  - right; right; right. repeat split; discriminate.
  - do 4 (try (destruct p as [p|p|])); simpl;
      first [ left; split; reflexivity
            | right; left; split; reflexivity
            | right; right; left; split; reflexivity
            | right; right; right; repeat split; discriminate ].
  - right; right; right. repeat split; discriminate.
Qed.

Lemma handleDepth_ask (msg : DepthMessage) (a : MarketAggregator) :
  isAskType (domType msg) = true →
  handleDepth msg a = set_asks (updateLevel (tickOf a (d_price msg)) (d_volume msg)) a.
Proof.
  intros H. destruct (handleDepth_cases msg a) as [[E _]|[[_ E]|[[E _]|(_ & E & _)]]].
  - rewrite E in H. discriminate.
  - exact E.
  - revert H E. unfold isAskType, isBidType.
    destruct (Z.eqb_spec (domType msg) 1) as [->|]; [discriminate|].
    destruct (Z.eqb_spec (domType msg) 3) as [->|]; [discriminate|].
    destruct (Z.eqb_spec (domType msg) 10) as [->|]; discriminate.
  - congruence.
Qed.

Lemma handleDepth_bid (msg : DepthMessage) (a : MarketAggregator) :
  isBidType (domType msg) = true →
  handleDepth msg a = set_bids (updateLevel (tickOf a (d_price msg)) (d_volume msg)) a.
Proof.
  intros H. destruct (handleDepth_cases msg a) as [[E _]|[[E _]|[[_ E]|(_ & _ & E & _)]]].
  - rewrite E in H. discriminate.
  - revert H E. unfold isAskType, isBidType.
    destruct (Z.eqb_spec (domType msg) 2) as [->|]; [discriminate|].
    destruct (Z.eqb_spec (domType msg) 4) as [->|]; [discriminate|].
    destruct (Z.eqb_spec (domType msg) 9) as [->|]; discriminate.
  - exact E.
  - congruence.
Qed.

Lemma handleDepth_reset (msg : DepthMessage) (a : MarketAggregator) :
  domType msg = 6 →
  handleDepth msg a = set_asks (λ _, ∅) (set_bids (λ _, ∅) a).
Proof. intros H. unfold handleDepth. rewrite H. reflexivity. Qed.

(** ** [bucket] by outcome *)

Lemma bucket_skip (cfg : Config) (now : Z) (a : MarketAggregator) :
  guardMid a = 0 → bucket cfg now a = (a, Skipped).
Proof. intros H. unfold bucket. rewrite H. reflexivity. Qed.

Lemma bucket_emit (cfg : Config) (now : Z) (a : MarketAggregator) :
  guardMid a ≠ 0 → JS.valid_array_length (PRICE_WINDOW_TICKS cfg) = true →
  let W := PRICE_WINDOW_TICKS cfg in
  let startTick := JS.sub (guardMid a) (W / 2) in
  bucket cfg now a =
    (set_trades [] (set_lastMidTick (guardMid a) a),
     Emitted {| t := now; midTick := guardMid a;
                col_bids := fillWindow W startTick (bids a);
                col_asks := fillWindow W startTick (asks a);
                trades := currentBucketTrades a |}).
Proof.
  intros Hne Hv. unfold bucket.
  destruct (Z.eqb_spec (guardMid a) 0) as [E|_]; [contradiction|].
  rewrite Hv, Math_floor_half. reflexivity.
Qed.

Lemma bucket_Emitted_inv (cfg : Config) (now : Z) (a a' : MarketAggregator)
    (col : HeatmapColumn) :
  bucket cfg now a = (a', Emitted col) →
  guardMid a ≠ 0 ∧ JS.valid_array_length (PRICE_WINDOW_TICKS cfg) = true.
Proof.
  unfold bucket. destruct (Z.eqb_spec (guardMid a) 0) as [E|Hne]; [discriminate|].
  destruct (JS.valid_array_length (PRICE_WINDOW_TICKS cfg)); [|discriminate].
  intros _. split; [assumption | reflexivity].
Qed.


(** ** The mid tick *)

Lemma guardMid_both (a : MarketAggregator) (b k : Z) :
  bestBid a = Some b → bestAsk a = Some k →
  guardMid a =
    let r := JS.Math_round (JS.div (inject_Z (JS.add b k)) 2) in
    if r =? 0 then (if b =? 0 then k else b) else r.
Proof.
  intros Hb Hk. unfold guardMid, calcMid. rewrite Hb, Hk. cbv zeta.
  destruct (Z.eqb_spec (JS.Math_round (JS.div (inject_Z (JS.add b k)) 2)) 0)
    as [E|Hne].
  - reflexivity.
  - destruct (Z.eqb_spec (JS.Math_round (JS.div (inject_Z (JS.add b k)) 2)) 0);
      [contradiction | reflexivity].
Qed.

Lemma calcMid_trade (a : MarketAggregator) (tr : TradeData) :
  bestBid a = None ∨ bestAsk a = None →
  last (currentBucketTrades a) = Some tr →
  calcMid a = priceTick tr.
Proof.
  intros Hbk Hl. unfold calcMid. rewrite Hl.
  destruct Hbk as [-> | ->]; [reflexivity|].
  destruct (bestBid a); reflexivity.
Qed.

Lemma guardMid_nonzero (a : MarketAggregator) :
  calcMid a ≠ 0 → guardMid a = calcMid a.
Proof.
  intros Hne. unfold guardMid.
  destruct (Z.eqb_spec (calcMid a) 0) as [E|_]; [contradiction|].
  destruct (bestBid a), (bestAsk a); try reflexivity;
    destruct (Z.eqb_spec (calcMid a) 0); congruence.
Qed.

Lemma guardMid_no_data (a : MarketAggregator) :
  bids a = ∅ → asks a = ∅ → currentBucketTrades a = [] →
  guardMid a = lastMidTick a.
Proof.
  intros Hb Ha Ht. unfold guardMid, calcMid.
  apply bestBid_None in Hb. apply bestAsk_None in Ha.
  rewrite Hb, Ha, Ht. reflexivity.
Qed.

(** ** Traces *)

Lemma handleDepth_trades (msg : DepthMessage) (a : MarketAggregator) :
  currentBucketTrades (handleDepth msg a) = currentBucketTrades a.
Proof.
  destruct (handleDepth_cases msg a) as [[_ E]|[[_ E]|[[_ E]|(_ & _ & _ & E)]]];
    rewrite E; reflexivity.
Qed.

Lemma bucket_trades (cfg : Config) (now : Z) (a : MarketAggregator) :
  match bucket cfg now a with
  | (a', Emitted col) =>
      trades col = currentBucketTrades a ∧ currentBucketTrades a' = []
  | (a', _) => currentBucketTrades a' = currentBucketTrades a
  end.
Proof.
  unfold bucket. destruct (guardMid a =? 0); [reflexivity|].
  destruct (JS.valid_array_length (PRICE_WINDOW_TICKS cfg)); simpl; auto.
Qed.

Lemma run_snoc (cfg : Config) (getTime : string → Z) (a : MarketAggregator)
    (evs : list Event) (e : Event) :
  run cfg getTime a (evs ++ [e]) = stepEvent cfg getTime (run cfg getTime a evs) e.
Proof. unfold run. by rewrite foldl_app. Qed.

Lemma applyDepths_snoc (msgs : list DepthMessage) (msg : DepthMessage)
    (a : MarketAggregator) :
  applyDepths (msgs ++ [msg]) a = handleDepth msg (applyDepths msgs a).
Proof. unfold applyDepths. by rewrite foldl_app. Qed.

Lemma sinceLastEmit_aux_trade (acc : list TradeData) (log : list LogItem)
    (tr : TradeData) :
  sinceLastEmit_aux acc (log ++ [LogTrade tr]) = sinceLastEmit_aux acc log ++ [tr].
Proof.
  revert acc. induction log as [|[tr'|col] log IH]; intros acc; simpl; auto.
Qed.

Lemma sinceLastEmit_aux_emit (acc : list TradeData) (log : list LogItem)
    (col : HeatmapColumn) :
  sinceLastEmit_aux acc (log ++ [LogEmit col]) = [].
Proof.
  revert acc. induction log as [|[tr'|col'] log IH]; intros acc; simpl; auto.
Qed.

Lemma snoc_eq_split {A} (l pre post : list A) (x y : A) :
  l ++ [x] = pre ++ y :: post →
  (post = [] ∧ pre = l ∧ y = x) ∨ (∃ post', post = post' ++ [x] ∧ l = pre ++ y :: post').
Proof.
  destruct post as [|z post _] using rev_ind; intros E.
  - left. apply app_inj_tail in E as [-> ->]. auto.
  - right. exists post.
    change (pre ++ y :: post ++ [z]) with (pre ++ (y :: post) ++ [z]) in E.
    rewrite app_assoc in E. apply app_inj_tail in E as [-> ->]. auto.
Qed.

(** The trade buffer always holds the trades logged since the last emitted
    column, and each emitted column carries the trades logged between the
    column before it and itself. *)
Lemma run_trades (cfg : Config) (getTime : string → Z) (a0 : MarketAggregator)
    (evs : list Event) :
  currentBucketTrades a0 = [] →
  currentBucketTrades (run cfg getTime a0 evs).1
    = sinceLastEmit (run cfg getTime a0 evs).2
  ∧ ∀ pre col post,
      (run cfg getTime a0 evs).2 = pre ++ LogEmit col :: post →
      trades col = sinceLastEmit pre.
Proof.
  intros H0. induction evs as [|e evs [IHbuf IHcol]] using rev_ind.
  - simpl. split; [exact H0|]. intros [|? ?] col post E; discriminate.
  - rewrite run_snoc. destruct (run cfg getTime a0 evs) as [a log].
    simpl in IHbuf, IHcol. destruct e as [msg|msg|now]; simpl.
    + split; [by rewrite handleDepth_trades | exact IHcol].
    + split.
      * unfold sinceLastEmit. rewrite sinceLastEmit_aux_trade. by f_equal.
      * intros pre col post E.
        apply snoc_eq_split in E as [(_ & _ & E)|(post' & _ & E)];
          [discriminate | eauto].
    + pose proof (bucket_trades cfg now a) as Hb.
      destruct (bucket cfg now a) as [a' [|c|]]; simpl.
      * split; [congruence | exact IHcol].
      * destruct Hb as [Htr Hbuf]. split.
        -- unfold sinceLastEmit. by rewrite sinceLastEmit_aux_emit.
        -- intros pre col post E.
           apply snoc_eq_split in E as [(_ & -> & [= ->])|(post' & _ & E)];
             [congruence | eauto].
      * split; [congruence | exact IHcol].
Qed.

Lemma run_columns_nonzero (cfg : Config) (getTime : string → Z)
    (a0 : MarketAggregator) (evs : list Event) (col : HeatmapColumn) :
  LogEmit col ∈ (run cfg getTime a0 evs).2 → midTick col ≠ 0.
Proof.
  induction evs as [|e evs IH] using rev_ind.
  - simpl. intros H. inversion H.
  - rewrite run_snoc. destruct (run cfg getTime a0 evs) as [a log].
    simpl in IH. destruct e as [msg|msg|now]; simpl.
    + exact IH.
    + rewrite elem_of_app, list_elem_of_singleton. intros [H|H]; [auto | discriminate].
    + destruct (bucket cfg now a) as [a' [|c|]] eqn:E; simpl; auto.
      rewrite elem_of_app, list_elem_of_singleton. intros [H|[= <-]]; [auto|].
      destruct (bucket_Emitted_inv _ _ _ _ _ E) as [Hg0 Hv].
      rewrite (bucket_emit cfg now a Hg0 Hv) in E.
      injection E as _ <-. exact Hg0.
Qed.

(** ** Volumes stored in the book *)

Lemma updateLevel_all (P : Z → Prop) (T V : Z) (m : gmap Z Z) :
  (V ≠ 0 → P V) →
  (∀ k v, m !! k = Some v → P v) →
  ∀ k v, updateLevel T V m !! k = Some v → P v.
Proof.
  intros HV Hm k v. unfold updateLevel.
  destruct (Z.eqb_spec V 0) as [E|Hne].
  - rewrite lookup_delete. case_decide; [discriminate | apply Hm].
  - rewrite lookup_insert. case_decide; [intros [= <-]; auto | apply Hm].
Qed.

Lemma handleDepth_all (P : Z → Prop) (msg : DepthMessage) (a : MarketAggregator) :
  (d_volume msg ≠ 0 → P (d_volume msg)) →
  book_all P a → book_all P (handleDepth msg a).
Proof.
  intros HV Ha.
  destruct (handleDepth_cases msg a) as [[_ E]|[[_ E]|[[_ E]|(_ & _ & _ & E)]]];
    rewrite E; [| | | exact Ha].
  - intros T v [H|H]; simpl in H; rewrite lookup_empty in H; discriminate.
  - intros T v [H|H]; simpl in H.
    + apply (Ha T v). auto.
    + revert H. apply updateLevel_all; [exact HV|]. intros k w Hk. apply (Ha k w). auto.
  - intros T v [H|H]; simpl in H.
    + revert H. apply updateLevel_all; [exact HV|]. intros k w Hk. apply (Ha k w). auto.
    + apply (Ha T v). auto.
Qed.

Lemma applyDepths_all (P : Z → Prop) (msgs : list DepthMessage) (a : MarketAggregator) :
  Forall (λ msg, d_volume msg ≠ 0 → P (d_volume msg)) msgs →
  book_all P a → book_all P (applyDepths msgs a).
Proof.
  intros Hmsgs Ha. induction msgs as [|msg msgs IH] using rev_ind.
  - exact Ha.
  - rewrite applyDepths_snoc. apply Forall_app in Hmsgs as [Hmsgs Hmsg].
    apply handleDepth_all; [by inversion Hmsg | auto].
Qed.
(** ** The stream registry *)

Lemma stop_intervalId (a : MarketAggregator) : intervalId (stop a) = None.
Proof. unfold stop. destruct (intervalId a) eqn:E; [reflexivity | exact E]. Qed.

Lemma stop_frame (a : MarketAggregator) :
  bids (stop a) = bids a ∧ asks (stop a) = asks a
  ∧ currentBucketTrades (stop a) = currentBucketTrades a
  ∧ lastMidTick (stop a) = lastMidTick a.
Proof. unfold stop. destruct (intervalId a); auto. Qed.

Lemma wf_alloc (σ : Server) (o : StreamObj) :
  registered_if_running σ → intervalId (aggregator o) = None →
  registered_if_running (alloc o σ).
Proof.
  intros (Hrun & Hfresh & Hreg) Hnone. split_and!; simpl.
  - intros addr o' Hl Hs. apply lookup_insert_Some in Hl as [[<- <-]|[Hne Hl]].
    + rewrite Hnone in Hs. by destruct Hs.
    + eauto.
  - intros addr Hs. apply lookup_insert_is_Some in Hs as [<-|[_ Hs]].
    + lia.
    + apply Hfresh in Hs. lia.
  - intros sid addr Hs. apply lookup_insert_is_Some.
    destruct (decide (nextAddr σ = addr)); [left; assumption | right; eauto].
Qed.

Lemma wf_set_socket (f : ProjectXSocket → ProjectXSocket) (n : nat) (σ : Server) :
  registered_if_running σ →
  registered_if_running (set_heap (alter (set_socket f) n) σ).
Proof.
  intros (Hrun & Hfresh & Hreg). split_and!; simpl.
  - intros addr o' Hl Hs.
    apply lookup_alter_Some in Hl as [(<- & o & Hl & ->)|[_ Hl]]; eauto.
    apply (Hrun _ o Hl Hs).
  - intros addr Hs. apply lookup_alter_is_Some in Hs. auto.
  - intros sid addr Hs. apply lookup_alter_is_Some. eauto.
Qed.

Lemma wf_unregister (sid : string) (old : nat) (σ : Server) :
  registered_if_running σ → streams σ !! sid = Some old →
  registered_if_running
    (set_streams (delete sid) (set_heap (alter (set_aggregator stop) old) σ)).
Proof.
  intros (Hrun & Hfresh & Hreg) Hold. split_and!; simpl.
  - intros addr o' Hl Hs.
    apply lookup_alter_Some in Hl as [(<- & o & Hl & ->)|[Hne Hl]].
    + simpl in Hs. rewrite stop_intervalId in Hs. by destruct Hs.
    + pose proof (Hrun _ _ Hl Hs) as Hr.
      rewrite lookup_delete_ne; [exact Hr|].
      intros E. rewrite <- E in Hr. congruence.
  - intros addr Hs. apply lookup_alter_is_Some in Hs. auto.
  - intros sid' addr Hs. apply lookup_delete_Some in Hs as [_ Hs].
    apply lookup_alter_is_Some. eauto.
Qed.

Lemma wf_register (sid : string) (n : nat) (o : StreamObj) (σ : Server) :
  registered_if_running σ → streams σ !! sid = None →
  heap σ !! n = Some o → sessionId o = sid →
  registered_if_running
    (set_streams (<[sid := n]>) (set_heap (alter (set_aggregator (start n)) n) σ)).
Proof.
  intros (Hrun & Hfresh & Hreg) Hnone Hn Hsid. split_and!; simpl.
  - intros addr o' Hl Hs.
    apply lookup_alter_Some in Hl as [(<- & o0 & Hl & ->)|[Hne Hl]].
    + simpl. rewrite Hn in Hl. injection Hl as <-. rewrite Hsid.
      apply lookup_insert_eq.
    + pose proof (Hrun _ _ Hl Hs) as Hr.
      rewrite lookup_insert_ne; [exact Hr|].
      intros E. rewrite <- E in Hr. congruence.
  - intros addr Hs. apply lookup_alter_is_Some in Hs. auto.
  - intros sid' addr Hs. apply lookup_alter_is_Some.
    apply lookup_insert_Some in Hs as [[_ <-]|[_ Hs]]; eauto.
Qed.

Lemma start_create_ok (sid : string) (session : UserSession) (req : StartReq)
    (σ : Server) :
  registered_if_running σ → streams σ !! sid = None →
  registered_if_running (start_create sid session req σ).1
  ∧ K_ok (start_create sid session req σ).1 (start_create sid session req σ).2.
Proof.
  intros Hwf Hnone. unfold start_create. cbn [fst snd]. split.
  - by apply wf_alloc.
  - simpl. split; [exact Hnone|]. eexists. rewrite lookup_insert_eq.
    split_and!; reflexivity.
Qed.

Lemma start_teardown_ok (sid : string) (session : UserSession) (req : StartReq)
    (old : nat) (σ : Server) :
  registered_if_running σ → streams σ !! sid = Some old →
  registered_if_running (start_teardown sid session req old σ).1
  ∧ K_ok (start_teardown sid session req old σ).1
         (start_teardown sid session req old σ).2.
Proof.
  intros Hwf Hold. unfold start_teardown. apply start_create_ok.
  - by apply wf_unregister.
  - simpl. apply lookup_delete_eq.
Qed.

Lemma start_enter_ok (req : StartReq) (σ : Server) :
  registered_if_running σ →
  registered_if_running (start_enter req σ).1
  ∧ K_ok (start_enter req σ).1 (start_enter req σ).2.
Proof.
  intros Hwf. unfold start_enter.
  destruct (r_sessionId req) as [sid|]; [|by split].
  destruct (JS.truthy sid); simpl; [|by split].
  destruct (sessionStore σ !! sid) as [session|]; [|by split].
  destruct (negb (JS.truthy (r_contractId req)) || Qeq_bool (r_tickSize req) 0);
    [by split|].
  destruct (streams σ !! sid) as [old|] eqn:Hold.
  - destruct (heap σ !! old) as [o|].
    + destruct (isConnected (socket o)).
      * by split.
      * by apply start_teardown_ok.
    + by apply start_teardown_ok.
  - by apply start_create_ok.
Qed.

Lemma start_resume_ok (ok : bool) (k : StartK) (σ : Server) :
  registered_if_running σ → K_ok σ k →
  registered_if_running (start_resume ok k σ).1
  ∧ K_ok (start_resume ok k σ).1 (start_resume ok k σ).2.
Proof.
  intros Hwf Hk. destruct k as [sid session req old|sid req n|sid req n|st|];
    simpl in *; [| | |by split|by split].
  - destruct ok; [|by split].
    apply start_teardown_ok; [by apply wf_set_socket | exact Hk].
  - destruct ok; [|by split]. simpl. split; [by apply wf_set_socket|].
    destruct Hk as (Hnone & o & Hn & Hsid & Htimer).
    split; [exact Hnone|]. exists (set_socket (set_isConnected true) o).
    rewrite lookup_alter_eq, Hn. auto.
  - destruct ok; [|by split]. simpl.
    destruct Hk as (Hnone & o & Hn & Hsid & Htimer).
    split; [|exact I]. by eapply wf_register.
Qed.

(** A [/stream/start] handler that is not interleaved with another one keeps
    every running aggregator registered. *)
Lemma startStream_registered (okStop okConnect okSubscribe : bool)
    (req : StartReq) (σ : Server) :
  registered_if_running σ →
  registered_if_running (startStream okStop okConnect okSubscribe req σ).1.
Proof.
  intros Hwf. unfold startStream.
  destruct (start_enter_ok req σ Hwf) as [Hwf1 Hk1].
  destruct (start_enter req σ) as [σ1 k1]. cbn [fst snd] in *.
  assert (H2 : ∃ σ2 k2,
             match k1 with
             | KStop _ _ _ _ => start_resume okStop k1 σ1
             | _ => (σ1, k1)
             end = (σ2, k2)
             ∧ registered_if_running σ2 ∧ K_ok σ2 k2).
  { destruct k1; try (eexists _, _; split; [reflexivity | by split]).
    pose proof (start_resume_ok okStop _ σ1 Hwf1 Hk1) as H.
    destruct (start_resume okStop _ σ1) as [σ2 k2]. eauto. }
  destruct H2 as (σ2 & k2 & -> & Hwf2 & Hk2).
  assert (H3 : ∃ σ3 k3,
             match k2 with
             | KConnect _ _ _ => start_resume okConnect k2 σ2
             | _ => (σ2, k2)
             end = (σ3, k3)
             ∧ registered_if_running σ3 ∧ K_ok σ3 k3).
  { destruct k2; try (eexists _, _; split; [reflexivity | by split]).
    pose proof (start_resume_ok okConnect _ σ2 Hwf2 Hk2) as H.
    destruct (start_resume okConnect _ σ2) as [σ3 k3]. eauto. }
  destruct H3 as (σ3 & k3 & -> & Hwf3 & Hk3).
  destruct k3; try exact Hwf3.
  apply (start_resume_ok okSubscribe _ σ3 Hwf3 Hk3).
Qed.

Lemma elem_of_runningFor (sid : string) (σ : Server) (addr : nat) :
  addr ∈ runningFor sid σ ↔
  ∃ o, heap σ !! addr = Some o ∧ sessionId o = sid
       ∧ is_Some (intervalId (aggregator o)).
Proof.
  unfold runningFor. rewrite list_elem_of_fmap. split.
  - intros ([a o] & -> & Hin). apply list_elem_of_filter in Hin as [[Hs Ht] Hin].
    apply elem_of_map_to_list in Hin. eauto.
  - intros (o & Hl & Hs & Ht). exists (addr, o). split; [reflexivity|].
    apply list_elem_of_filter. split; [by split|]. by apply elem_of_map_to_list.
Qed.

(** When every running aggregator is registered, a session has at most one. *)
Lemma running_unique (sid : string) (σ : Server) (a1 a2 : nat) :
  registered_if_running σ →
  a1 ∈ runningFor sid σ → a2 ∈ runningFor sid σ → a1 = a2.
Proof.
  intros (Hrun & _ & _) H1 H2.
  apply elem_of_runningFor in H1 as (o1 & Hl1 & Hs1 & Ht1).
  apply elem_of_runningFor in H2 as (o2 & Hl2 & Hs2 & Ht2).
  pose proof (Hrun _ _ Hl1 Ht1) as R1. pose proof (Hrun _ _ Hl2 Ht2) as R2.
  rewrite Hs1 in R1. rewrite Hs2 in R2. congruence.
Qed.

(** A disarmed timer never fires: no bucket, no broadcast. *)
Lemma timer_disarmed (cfg : Config) (getTime : string → Z) (w : World)
    (addr : nat) (now : Z) (o : StreamObj) :
  heap (server w) !! addr = Some o → intervalId (aggregator o) = None →
  stepWorld cfg getTime w (ATimer addr now) = w.
Proof. intros Hl Ht. simpl. rewrite Hl, Ht. reflexivity. Qed.

(** A [/stream/start] handler that is not interleaved with another one and
    answers 200 has stopped the socket and the timer of the stream that was
    registered for the session, and has registered the new one instead. *)
Lemma startStream_replaces (okStop okConnect okSubscribe : bool)
    (req : StartReq) (σ : Server) (sid : string) (old : nat) (o : StreamObj) :
  registered_if_running σ →
  r_sessionId req = Some sid → streams σ !! sid = Some old →
  heap σ !! old = Some o →
  (startStream okStop okConnect okSubscribe req σ).2 = KDone 200 →
  let σ' := (startStream okStop okConnect okSubscribe req σ).1 in
  streams σ' !! sid = Some (nextAddr σ) ∧ nextAddr σ ≠ old
  ∧ ∃ o', heap σ' !! old = Some o'
          ∧ intervalId (aggregator o') = None
          ∧ isConnected (socket o') = false.
Proof.
  intros (Hrun & Hfresh & Hreg) Hsid Hold Ho.
  assert (Hlt : (old < nextAddr σ)%nat) by (apply Hfresh; eauto).
  unfold startStream, start_enter. rewrite Hsid.
  destruct (JS.truthy sid); simpl; [|discriminate].
  destruct (sessionStore σ !! sid) as [session|]; [|discriminate].
  destruct (negb (JS.truthy (r_contractId req)) || Qeq_bool (r_tickSize req) 0);
    [discriminate|].
  rewrite Hold, Ho.
  destruct (isConnected (socket o)) eqn:Hconn; simpl.
  - destruct okStop; simpl; [|discriminate].
    destruct okConnect; simpl; [|discriminate].
    destruct okSubscribe; simpl; [|discriminate].
    intros _. split_and!; [apply lookup_insert_eq | lia |].
    eexists. split_and!.
    + rewrite lookup_alter_ne by lia. rewrite lookup_alter_ne by lia.
      rewrite lookup_insert_ne by lia.
      rewrite lookup_alter_eq, lookup_alter_eq, Ho. reflexivity.
    + simpl. apply stop_intervalId.
    + reflexivity.
  - destruct okConnect; simpl; [|discriminate].
    destruct okSubscribe; simpl; [|discriminate].
    intros _. split_and!; [apply lookup_insert_eq | lia |].
    eexists. split_and!.
    + rewrite lookup_alter_ne by lia. rewrite lookup_alter_ne by lia.
      rewrite lookup_insert_ne by lia.
      rewrite lookup_alter_eq, Ho. reflexivity.
    + simpl. apply stop_intervalId.
    + exact Hconn.
Qed.

(** ** Sessions and the token refresh *)

Lemma login_tokens_truthy (reply : LoginReply) (uuid : string) (now : Z)
    (user : string) (store : gmap string UserSession) :
  tokens_truthy store → tokens_truthy (login reply uuid now user store).1.
Proof.
  intros Hst. unfold login. destruct reply as [|[|] tok]; try exact Hst.
  destruct (JS.truthy tok) eqn:Htok; [|exact Hst].
  intros sid session Hl. simpl in Hl.
  apply lookup_insert_Some in Hl as [[_ <-]|[_ Hl]]; [exact Htok | eauto].
Qed.

Lemma logout_tokens_truthy (sid : string) (store : gmap string UserSession) :
  tokens_truthy store → tokens_truthy (logout sid store).
Proof.
  intros Hst sid' session Hl. unfold logout in Hl.
  apply lookup_delete_Some in Hl as [_ Hl]. eauto.
Qed.

Lemma validateAndRefresh_tokens_truthy (reply : ValidateReply) (now : Z)
    (sid : string) (store : gmap string UserSession) :
  tokens_truthy store →
  tokens_truthy (validateAndRefresh reply now sid store).1
  ∧ ∀ tok, (validateAndRefresh reply now sid store).2 = Some tok →
           JS.truthy tok = true.
Proof.
  intros Hst. unfold validateAndRefresh.
  destruct (store !! sid) as [session|] eqn:Hs; [|split; [exact Hst | discriminate]].
  destruct reply as [|[|] [tok|]]; simpl; try (split; [exact Hst | discriminate]).
  - destruct (JS.truthy tok) eqn:Htok; simpl.
    + split.
      * intros sid' session' Hl.
        apply lookup_insert_Some in Hl as [[_ <-]|[_ Hl]]; [exact Htok | eauto].
      * intros tok' [= <-]. exact Htok.
    + split; [exact Hst|]. intros tok' [= <-]. eauto.
  - split; [exact Hst|]. intros tok' [= <-]. eauto.
Qed.

Lemma same_but_token_refl (o : StreamObj) : same_but_token o o.
Proof. by repeat split. Qed.

Lemma same_but_token_trans (o1 o2 o3 : StreamObj) :
  same_but_token o1 o2 → same_but_token o2 o3 → same_but_token o1 o3.
Proof. unfold same_but_token. intros (?&?&?&?) (?&?&?&?). split_and!; congruence. Qed.

Lemma refreshEntry_frame (reply : ValidateReply) (now : Z) (sid : string)
    (addr : nat) (σ : Server) :
  streams (refreshEntry reply now sid addr σ) = streams σ
  ∧ ∀ a o, heap σ !! a = Some o →
      ∃ o', heap (refreshEntry reply now sid addr σ) !! a = Some o'
            ∧ same_but_token o o'.
Proof.
  unfold refreshEntry.
  destruct (validateAndRefresh reply now sid (sessionStore σ)) as [store [tok|]].
  - destruct (JS.truthy tok); simpl.
    + split; [reflexivity|]. intros a o Hl. rewrite lookup_alter.
      case_decide as E.
      * subst a. rewrite Hl. simpl. eexists. split; [reflexivity|]. by repeat split.
      * exists o. split; [exact Hl | apply same_but_token_refl].
    + split; [reflexivity|]. intros a o Hl. exists o.
      split; [exact Hl | apply same_but_token_refl].
  - simpl. split; [reflexivity|]. intros a o Hl. exists o.
    split; [exact Hl | apply same_but_token_refl].
Qed.

Lemma refreshEntries_frame (replies : string → ValidateReply) (now : Z)
    (l : list (string * nat)) (σ : Server) :
  let σ' := foldl (λ σ e, refreshEntry (replies e.1) now e.1 e.2 σ) σ l in
  streams σ' = streams σ
  ∧ ∀ a o, heap σ !! a = Some o →
      ∃ o', heap σ' !! a = Some o' ∧ same_but_token o o'.
Proof.
  revert σ. induction l as [|[sid addr] l IH]; intros σ; simpl.
  - split; [reflexivity|]. intros a o Hl. exists o.
    split; [exact Hl | apply same_but_token_refl].
  - destruct (refreshEntry_frame (replies sid) now sid addr σ) as [Hs Hh].
    destruct (IH (refreshEntry (replies sid) now sid addr σ)) as [Hs' Hh'].
    split; [congruence|]. intros a o Hl.
    destruct (Hh a o Hl) as (o1 & Hl1 & Hsame1).
    destruct (Hh' a o1 Hl1) as (o2 & Hl2 & Hsame2).
    exists o2. split; [exact Hl2 | by eapply same_but_token_trans].
Qed.

Lemma refreshEntry_token (reply : ValidateReply) (now : Z) (sid : string)
    (addr : nat) (σ : Server) (o : StreamObj) :
  tokens_truthy (sessionStore σ) →
  heap σ !! addr = Some o →
  ∃ o', heap (refreshEntry reply now sid addr σ) !! addr = Some o'
        ∧ token (socket o') =
            match sessionStore σ !! sid, reply with
            | Some session, Reply true (Some tok) =>
                if JS.truthy tok then tok else accessToken session
            | Some session, Reply true None => accessToken session
            | _, _ => token (socket o)
            end.
Proof.
  intros Hst Hl. unfold refreshEntry, validateAndRefresh.
  destruct (sessionStore σ !! sid) as [session|] eqn:Hs; [|simpl; eauto].
  pose proof (Hst _ _ Hs) as Htr.
  destruct reply as [|[|] [tok|]]; simpl; eauto.
  - destruct (JS.truthy tok) eqn:Htok; simpl.
    + rewrite Htok. simpl. rewrite lookup_alter_eq, Hl. simpl. eauto.
    + rewrite Htr. simpl. rewrite lookup_alter_eq, Hl. simpl. eauto.
  - rewrite Htr. simpl. rewrite lookup_alter_eq, Hl. simpl. eauto.
Qed.

Lemma refreshEntry_heap_other (reply : ValidateReply) (now : Z) (sid : string)
    (addr : nat) (σ : Server) (a : nat) :
  a ≠ addr → heap (refreshEntry reply now sid addr σ) !! a = heap σ !! a.
Proof.
  intros Hne. unfold refreshEntry.
  destruct (validateAndRefresh reply now sid (sessionStore σ)) as [store [tok|]];
    [|reflexivity].
  destruct (JS.truthy tok); simpl; [|reflexivity].
  rewrite lookup_alter_ne by congruence. reflexivity.
Qed.

Lemma refreshEntry_store (reply : ValidateReply) (now : Z) (sid : string)
    (addr : nat) (σ : Server) :
  sessionStore (refreshEntry reply now sid addr σ)
  = (validateAndRefresh reply now sid (sessionStore σ)).1.
Proof.
  unfold refreshEntry.
  destruct (validateAndRefresh reply now sid (sessionStore σ)) as [store [tok|]];
    [destruct (JS.truthy tok)|]; reflexivity.
Qed.

Lemma validateAndRefresh_other (reply : ValidateReply) (now : Z) (sid sid' : string)
    (store : gmap string UserSession) :
  sid' ≠ sid → (validateAndRefresh reply now sid store).1 !! sid' = store !! sid'.
Proof.
  intros Hne. unfold validateAndRefresh.
  destruct (store !! sid) as [session|]; [|reflexivity].
  destruct reply as [|[|] [tok|]]; simpl; try reflexivity.
  destruct (JS.truthy tok); simpl; [|reflexivity].
  rewrite lookup_insert_ne by congruence. reflexivity.
Qed.

Lemma refreshEntries_heap_other (replies : string → ValidateReply) (now : Z)
    (l : list (string * nat)) (σ : Server) (a : nat) :
  a ∉ l.*2 →
  heap (foldl (λ σ e, refreshEntry (replies e.1) now e.1 e.2 σ) σ l) !! a
  = heap σ !! a.
Proof.
  revert σ. induction l as [|[s a'] l IH]; intros σ Hnin; [reflexivity|].
  simpl in *. apply not_elem_of_cons in Hnin as [Hne Hnin].
  rewrite IH by exact Hnin. by apply refreshEntry_heap_other.
Qed.

(** The cycle visits every registry entry once; the token of a registered
    pair is decided by the reply for the session of its entry. *)
Lemma refreshEntries_token (replies : string → ValidateReply) (now : Z)
    (l : list (string * nat)) (σ : Server) :
  NoDup l.*1 → NoDup l.*2 → tokens_truthy (sessionStore σ) →
  ∀ sid addr o, (sid, addr) ∈ l → heap σ !! addr = Some o →
    ∃ o', heap (foldl (λ σ e, refreshEntry (replies e.1) now e.1 e.2 σ) σ l) !! addr
          = Some o'
          ∧ token (socket o') =
              match sessionStore σ !! sid, replies sid with
              | Some session, Reply true (Some tok) =>
                  if JS.truthy tok then tok else accessToken session
              | Some session, Reply true None => accessToken session
              | _, _ => token (socket o)
              end.
Proof.
  revert σ. induction l as [|[s a] l IH]; intros σ H1 H2 Hst sid addr o Hin Hl.
  - inversion Hin.
  - simpl in H1, H2. apply NoDup_cons in H1 as [Hs1 H1].
    apply NoDup_cons in H2 as [Ha2 H2]. simpl.
    apply elem_of_cons in Hin as [[= <- <-]|Hin].
    + destruct (refreshEntry_token (replies sid) now sid addr σ o Hst Hl)
        as (o' & Hl' & Htok).
      exists o'. split; [|exact Htok].
      rewrite refreshEntries_heap_other by exact Ha2. exact Hl'.
    + assert (Hsid : sid ≠ s).
      { intros ->. apply Hs1. apply list_elem_of_fmap. by exists (s, addr). }
      assert (Haddr : addr ≠ a).
      { intros ->. apply Ha2. apply list_elem_of_fmap. by exists (sid, a). }
      destruct (IH (refreshEntry (replies s) now s a σ) H1 H2) with sid addr o
        as (o' & Hl' & Htok); auto.
      * rewrite refreshEntry_store.
        by apply validateAndRefresh_tokens_truthy.
      * rewrite refreshEntry_heap_other by exact Haddr. exact Hl.
      * exists o'. split; [exact Hl'|].
        rewrite refreshEntry_store, validateAndRefresh_other in Htok by exact Hsid.
        exact Htok.
Qed.

Lemma registered_own_NoDup (σ : Server) :
  registered_own σ → NoDup (map_to_list (streams σ)).*2.
Proof.
  intros Hown. apply NoDup_fmap_2_strong; [|apply NoDup_map_to_list].
  intros [s1 a1] [s2 a2] H1 H2 E. simpl in E. subst a2.
  apply elem_of_map_to_list in H1, H2.
  destruct (Hown _ _ H1) as (o1 & Ho1 & <-).
  destruct (Hown _ _ H2) as (o2 & Ho2 & <-). congruence.
Qed.

Lemma storeS_tokens_truthy : tokens_truthy storeS.
Proof.
  intros sid session Hl. unfold storeS in Hl.
  apply lookup_singleton_Some in Hl as [_ <-]. reflexivity.
Qed.

(** * The claims *)

(** C1.  With no bid level, no ask level, an empty trade buffer and
    [lastMidTick] still at its initial value, [bucket()] returns before
    building a column: the callback is not called and no field of the
    aggregator (book, trade buffer, [lastMidTick]) changes. *)
Theorem C1_bucket_without_data (cfg : Config) (now : Z) (a : MarketAggregator) :
  bids a = ∅ → asks a = ∅ → currentBucketTrades a = [] → lastMidTick a = 0 →
  bucket cfg now a = (a, Skipped).
Proof.
  intros Hb Ha Ht Hm. apply bucket_skip.
  rewrite guardMid_no_data by assumption. exact Hm.
Qed.

Lemma C1_witness :
  bucket CONFIG_default 1700000000000 freshES = (freshES, Skipped).
Proof.
  apply (C1_bucket_without_data CONFIG_default 1700000000000 freshES);
    reflexivity.
Defined.




(** Beyond the safe integers the sum of the two ticks is rounded before it
    is halved: with the best bid at [2^53] and the best ask at [2^53 + 2] the
    column is anchored at [2^53], the best bid, and not at [2^53 + 1]. *)
Example mid_beyond_safe_integers :
  bestBid (bookAt 9007199254740992 9007199254740994) = Some (2 ^ 53)
  ∧ bestAsk (bookAt 9007199254740992 9007199254740994) = Some (2 ^ 53 + 2)
  ∧ JS.Math_round (JS.div (inject_Z (2 ^ 53 + (2 ^ 53 + 2))) 2) = 2 ^ 53 + 1
  ∧ midTick <$> emitted (bucket CONFIG_default 0
                           (bookAt 9007199254740992 9007199254740994))
    = Some (2 ^ 53).
Proof. vm_compute. auto. Qed.

(** C3 (counterexample).  On an empty book with one buffered trade at tick 0,
    [bucket()] emits nothing and leaves the aggregator as it was. *)
Lemma C3_counterexample :
  bestBid (oneTradeAt 0) = None ∧ bestAsk (oneTradeAt 0) = None
  ∧ priceTick <$> last (currentBucketTrades (oneTradeAt 0)) = Some 0
  ∧ bucket CONFIG_default 0 (oneTradeAt 0) = (oneTradeAt 0, Skipped).
Proof. vm_compute. auto. Qed.

(** C3 (amended).  When best bid and best ask are not both known and the
    trade buffer is not empty, and the tick of the most recent buffered trade
    is not 0, [bucket()] (with a window size that is a valid array length)
    emits a column whose [midTick] is that tick. *)
Theorem C3_mid_of_last_trade (cfg : Config) (now : Z) (a : MarketAggregator)
    (tr : TradeData) :
  bestBid a = None ∨ bestAsk a = None →
  last (currentBucketTrades a) = Some tr →
  priceTick tr ≠ 0 →
  JS.valid_array_length (PRICE_WINDOW_TICKS cfg) = true →
  ∃ a' col, bucket cfg now a = (a', Emitted col) ∧ midTick col = priceTick tr.
Proof.
  intros Hbk Hl Hne Hv.
  assert (Hg : guardMid a = priceTick tr).
  { rewrite guardMid_nonzero; rewrite (calcMid_trade a tr Hbk Hl); auto. }
  rewrite bucket_emit by (rewrite ?Hg; assumption).
  eexists _, _. split; [reflexivity|]. exact Hg.
Qed.

Lemma C3_witness :
  ∃ a' col, bucket CONFIG_default 0 (oneTradeAt 50) = (a', Emitted col)
            ∧ midTick col = 50.
Proof.
  apply (C3_mid_of_last_trade CONFIG_default 0 (oneTradeAt 50)
           {| priceTick := 50; price := 50; volume := 1; side := Buy;
              timestamp := 0 |}).
  - left. vm_compute. reflexivity.
  - vm_compute. reflexivity.
  - simpl. lia.
  - reflexivity.
Defined.

(** C4 (counterexample).  Ticks are numbers, and from [2^53] on not every
    integer is one.  With one bid level at tick [2^53] the column is anchored
    there, slot 100 is the slot of that tick, and slot 101 reads the same
    level: the book stores nothing at tick [midTick - floor(W/2) + 101], yet
    the slot holds 5. *)
Lemma C4_counterexample :
  let a := oneBidAt 9007199254740992 in
  let out := emitted (bucket CONFIG_default 0 a) in
  midTick <$> out = Some (2 ^ 53)
  ∧ bids a !! (2 ^ 53 - PRICE_WINDOW_TICKS CONFIG_default / 2 + 101) = None
  ∧ (out ≫= λ col, col_bids col !! 100%nat) = Some 5
  ∧ (out ≫= λ col, col_bids col !! 101%nat) = Some 5.
Proof. vm_compute. auto. Qed.

(** C4 (amended).  A column emitted by [bucket()] has [bids] and [asks]
    arrays of length [W = PRICE_WINDOW_TICKS]; slot [i] of each holds the
    volume the book stores at the tick the code computes for it,
    [startTick + i] on numbers, or 0 when the book has no such tick.  When
    the magnitude of [midTick] plus [W] is a safe integer, that tick is
    [midTick - floor(W/2) + i]; hence after a bid update of tick [T] with
    volume [V] the slot whose tick is [T] reads [V], which is 0 after an
    update with volume 0. *)
Theorem C4_window (cfg : Config) (now : Z) (a a' : MarketAggregator)
    (col : HeatmapColumn) :
  bucket cfg now a = (a', Emitted col) →
  let W := PRICE_WINDOW_TICKS cfg in
  length (col_bids col) = Z.to_nat W ∧ length (col_asks col) = Z.to_nat W
  ∧ 0 ≤ W
  ∧ (∀ i : nat, Z.of_nat i < W →
       col_bids col !! i = Some (default 0 (bids a !! slotTick (midTick col) W i))
       ∧ col_asks col !! i = Some (default 0 (asks a !! slotTick (midTick col) W i)))
  ∧ (JS.isSafeInteger (Z.abs (midTick col) + W) = true →
     (∀ i : nat, Z.of_nat i < W →
        col_bids col !! i
        = Some (default 0 (bids a !! (midTick col - W / 2 + Z.of_nat i)))
        ∧ col_asks col !! i
          = Some (default 0 (asks a !! (midTick col - W / 2 + Z.of_nat i))))
     ∧ (∀ (msg : DepthMessage) (a0 : MarketAggregator) (i : nat),
          a = handleDepth msg a0 → isBidType (domType msg) = true →
          Z.of_nat i < W →
          midTick col - W / 2 + Z.of_nat i = tickOf a0 (d_price msg) →
          col_bids col !! i = Some (d_volume msg))).
Proof.
  intros Hbucket W.
  destruct (bucket_Emitted_inv _ _ _ _ _ Hbucket) as [Hg0 Hv].
  rewrite (bucket_emit cfg now a Hg0 Hv) in Hbucket.
  injection Hbucket as _ <-. cbn [col_bids col_asks midTick]. fold W.
  destruct (fillWindow_spec W (JS.sub (guardMid a) (W / 2)) (bids a)) as [Hlb Hgb].
  destruct (fillWindow_spec W (JS.sub (guardMid a) (W / 2)) (asks a)) as [Hla Hga].
  assert (HW : 0 ≤ W).
  { unfold JS.valid_array_length in Hv. fold W in Hv.
    apply andb_true_iff in Hv as [Hv _]. by apply Z.leb_le. }
  assert (Hslot : ∀ i : nat, Z.of_nat i < W →
            fillWindow W (JS.sub (guardMid a) (W / 2)) (bids a) !! i
            = Some (default 0 (bids a !! slotTick (guardMid a) W i))
            ∧ fillWindow W (JS.sub (guardMid a) (W / 2)) (asks a) !! i
              = Some (default 0 (asks a !! slotTick (guardMid a) W i))).
  { intros i Hi. unfold slotTick. rewrite Math_floor_half. auto. }
  split_and!; auto.
  intros Hsafe.
  assert (Hexact : ∀ i : nat, Z.of_nat i < W →
            fillWindow W (JS.sub (guardMid a) (W / 2)) (bids a) !! i
            = Some (default 0 (bids a !! (guardMid a - W / 2 + Z.of_nat i)))
            ∧ fillWindow W (JS.sub (guardMid a) (W / 2)) (asks a) !! i
              = Some (default 0 (asks a !! (guardMid a - W / 2 + Z.of_nat i)))).
  { intros i Hi. rewrite <- (slotTick_safe (guardMid a) W i HW Hsafe Hi). auto. }
  split; [exact Hexact|].
  intros msg a0 i Ha Hbid Hi Htick.
  destruct (Hexact i Hi) as [Hb _]. rewrite Hb, Htick. f_equal.
  rewrite Ha, (handleDepth_bid msg a0 Hbid). cbn [bids set_bids]. unfold updateLevel.
  destruct (Z.eqb_spec (d_volume msg) 0) as [E|Hne].
  - rewrite lookup_delete_eq. simpl. congruence.
  - rewrite lookup_insert_eq. reflexivity.
Qed.

Lemma C4_witness :
  ∃ col, emitted (bucket CONFIG_default 0 (bidAt101 9)) = Some col
         ∧ length (col_bids col) = 200%nat ∧ length (col_asks col) = 200%nat
         ∧ col_bids col !! 98%nat = Some 9 ∧ col_asks col !! 101%nat = Some 7.
Proof.
  destruct (bucket CONFIG_default 0 (bidAt101 9)) as [a' out] eqn:E.
  assert (Hout : ∃ col, out = Emitted col ∧ midTick col = 103).
  { revert E. vm_compute. intros [= <- <-]. eexists. split; reflexivity. }
  destruct Hout as (col & -> & Hmid).
  destruct (C4_window CONFIG_default 0 (bidAt101 9) a' col E)
    as (Hlb & Hla & _ & _ & Hsafe).
  destruct Hsafe as [Hget Hround]; [rewrite Hmid; reflexivity|].
  exists col. split_and!.
  - reflexivity.
  - exact Hlb.
  - exact Hla.
  - apply (Hround (depthMsg 2 101 9) (bookAt 100 104) 98%nat).
    + reflexivity.
    + reflexivity.
    + simpl. lia.
    + rewrite Hmid. vm_compute. reflexivity.
  - destruct (Hget 101%nat) as [_ Ha]; [simpl; lia|].
    rewrite Ha, Hmid. vm_compute. reflexivity.
Defined.

(** C5.  A depth update of a bid type touches only the bid mapping and one
    of an ask type only the ask mapping.  With volume 0 the tick is deleted
    from that mapping (which leaves the mapping as it was when the tick is
    absent); with any other volume the tick is set to that volume, whatever
    was stored before.  After a volume-0 update for tick [T] the best bid
    (resp. best ask) is not [T], and the mapping has exactly one entry fewer
    when [T] was present. *)
Theorem C5_depth_update (msg : DepthMessage) (a : MarketAggregator) :
  let T := tickOf a (d_price msg) in
  let V := d_volume msg in
  let a' := handleDepth msg a in
  (isBidType (domType msg) = true →
     asks a' = asks a
     ∧ (V ≠ 0 → bids a' = <[T := V]> (bids a))
     ∧ (V = 0 →
        bids a' = delete T (bids a)
        ∧ (bids a !! T = None → bids a' = bids a)
        ∧ bestBid a' ≠ Some T
        ∧ (is_Some (bids a !! T) → S (size (bids a')) = size (bids a))))
  ∧ (isAskType (domType msg) = true →
     bids a' = bids a
     ∧ (V ≠ 0 → asks a' = <[T := V]> (asks a))
     ∧ (V = 0 →
        asks a' = delete T (asks a)
        ∧ (asks a !! T = None → asks a' = asks a)
        ∧ bestAsk a' ≠ Some T
        ∧ (is_Some (asks a !! T) → S (size (asks a')) = size (asks a)))).
Proof.
  intros T V a'. split; intros Hty.
  - assert (Ha' : bids a' = updateLevel T V (bids a) ∧ asks a' = asks a).
    { unfold a'. rewrite (handleDepth_bid msg a Hty). split; reflexivity. }
    destruct Ha' as [Hb Ha]. unfold updateLevel in Hb.
    split_and!; [exact Ha | |].
    + intros HV. destruct (Z.eqb_spec V 0); [contradiction | exact Hb].
    + intros HV. rewrite HV in Hb. simpl in Hb. split_and!.
      * exact Hb.
      * intros Hnone. rewrite Hb. by apply delete_id.
      * intros Hbest. apply bestBid_Some in Hbest as [[v Hv] _].
        rewrite Hb, lookup_delete_eq in Hv. discriminate.
      * intros Hsome. rewrite Hb, (map_size_delete_Some _ _ Hsome).
        destruct Hsome as [v Hv].
        assert (size (bids a) ≠ 0%nat) by (apply map_size_ne_0_lookup; eauto).
        lia.
  - assert (Ha' : asks a' = updateLevel T V (asks a) ∧ bids a' = bids a).
    { unfold a'. rewrite (handleDepth_ask msg a Hty). split; reflexivity. }
    destruct Ha' as [Ha Hb]. unfold updateLevel in Ha.
    split_and!; [exact Hb | |].
    + intros HV. destruct (Z.eqb_spec V 0); [contradiction | exact Ha].
    + intros HV. rewrite HV in Ha. simpl in Ha. split_and!.
      * exact Ha.
      * intros Hnone. rewrite Ha. by apply delete_id.
      * intros Hbest. apply bestAsk_Some in Hbest as [[v Hv] _].
        rewrite Ha, lookup_delete_eq in Hv. discriminate.
      * intros Hsome. rewrite Ha, (map_size_delete_Some _ _ Hsome).
        destruct Hsome as [v Hv].
        assert (size (asks a) ≠ 0%nat) by (apply map_size_ne_0_lookup; eauto).
        lia.
Qed.

Lemma C5_witness :
  bids (bidAt101 0) = delete 101 (bids (bidAt101 9))
  ∧ bestBid (handleDepth (depthMsg 2 101 0) (bidAt101 9)) ≠ Some 101
  ∧ S (size (bids (handleDepth (depthMsg 2 101 0) (bidAt101 9))))
    = size (bids (bidAt101 9)).
Proof.
  destruct (C5_depth_update (depthMsg 2 101 0) (bidAt101 9)) as [Hbid _].
  destruct (Hbid eq_refl) as (_ & _ & Hzero).
  destruct (Hzero eq_refl) as (_ & _ & Hbest & Hsize).
  split_and!.
  - vm_compute. reflexivity.
  - exact Hbest.
  - apply Hsize. vm_compute. eauto.
Defined.


(** C6 (counterexample).  One ask update with volume -5 on a new aggregator
    stores the negative volume at its tick. *)
Lemma C6_counterexample :
  asks (applyDepths [depthMsg 1 100 (-5)] freshES) !! 100 = Some (-5)
  ∧ -5 ≤ 0.
Proof. split; [vm_compute; reflexivity | lia]. Qed.

(** C6 (amended).  After any sequence of [handleDepth] calls on a new
    aggregator no tick is present in the bid or ask mapping with volume 0;
    and when no message of the sequence carries a negative volume, every
    stored volume is strictly positive. *)
Theorem C6_stored_volumes (cid : string) (ts : Q) (msgs : list DepthMessage) :
  let a := applyDepths msgs (new_MarketAggregator cid ts) in
  book_all (λ v, v ≠ 0) a
  ∧ (Forall (λ msg, 0 ≤ d_volume msg) msgs → book_all (λ v, 0 < v) a).
Proof.
  assert (Hnew : ∀ P, book_all P (new_MarketAggregator cid ts)).
  { intros P T v [H|H]; simpl in H; rewrite lookup_empty in H; discriminate. }
  split.
  - apply applyDepths_all; [|apply Hnew].
    apply Forall_forall. auto.
  - intros Hpos. apply applyDepths_all; [|apply Hnew].
    eapply Forall_impl; [exact Hpos|]. simpl. intros msg H0 Hne. lia.
Qed.

Lemma C6_witness :
  book_all (λ v, 0 < v)
    (applyDepths [depthMsg 2 100 5; depthMsg 1 104 7; depthMsg 2 100 0]
                 (new_MarketAggregator "ES" 1)).
Proof.
  apply (C6_stored_volumes "ES" 1
           [depthMsg 2 100 5; depthMsg 1 104 7; depthMsg 2 100 0]).
  repeat constructor; simpl; lia.
Defined.

(** C7.  In any run of a new aggregator, each emitted column carries in
    [trades] exactly the records pushed by [handleTrade] after the previous
    emitted column (after the creation of the aggregator for the first one),
    in arrival order; right after an emission the trade buffer is empty; and
    a depth message with [domType] 6 leaves both mappings empty and the trade
    buffer as it was. *)
Theorem C7_trades_of_a_column (cfg : Config) (getTime : string → Z)
    (cid : string) (ts : Q) (evs : list Event) :
  (∀ pre col post,
     (run cfg getTime (new_MarketAggregator cid ts) evs).2
       = pre ++ LogEmit col :: post →
     trades col = sinceLastEmit pre)
  ∧ (∀ now a a' col,
       bucket cfg now a = (a', Emitted col) →
       trades col = currentBucketTrades a ∧ currentBucketTrades a' = [])
  ∧ (∀ msg a,
       domType msg = 6 →
       bids (handleDepth msg a) = ∅ ∧ asks (handleDepth msg a) = ∅
       ∧ currentBucketTrades (handleDepth msg a) = currentBucketTrades a).
Proof.
  split_and!.
  - apply run_trades. reflexivity.
  - intros now a a' col E. pose proof (bucket_trades cfg now a) as H.
    rewrite E in H. exact H.
  - intros msg a H6. rewrite (handleDepth_reset msg a H6). auto.
Qed.

Lemma C7_witness :
  ∃ c1 c2 c3,
    columnsOf (run CONFIG_default noClock freshES demoEvents).2 = [c1; c2; c3]
    ∧ priceTick <$> trades c1 = [50; 51]
    ∧ trades c2 = []
    ∧ priceTick <$> trades c3 = [52].
Proof.
  destruct (C7_trades_of_a_column CONFIG_default noClock "ES" 1 demoEvents)
    as (Hcol & _ & _).
  fold freshES in Hcol.
  set (log := (run CONFIG_default noClock freshES demoEvents).2) in *.
  destruct (log !! 2%nat) as [[tr|c1]|] eqn:E1;
    [vm_compute in E1; discriminate E1 | | vm_compute in E1; discriminate E1].
  destruct (log !! 3%nat) as [[tr|c2]|] eqn:E2;
    [vm_compute in E2; discriminate E2 | | vm_compute in E2; discriminate E2].
  destruct (log !! 5%nat) as [[tr|c3]|] eqn:E3;
    [vm_compute in E3; discriminate E3 | | vm_compute in E3; discriminate E3].
  pose proof (Hcol _ _ _ (eq_sym (take_drop_middle log 2 _ E1))) as H1.
  pose proof (Hcol _ _ _ (eq_sym (take_drop_middle log 3 _ E2))) as H2.
  pose proof (Hcol _ _ _ (eq_sym (take_drop_middle log 5 _ E3))) as H3.
  exists c1, c2, c3. split_and!.
  - symmetry in E1, E2, E3. vm_compute in E1, E2, E3.
    injection E1 as ->. injection E2 as ->. injection E3 as ->.
    vm_compute. reflexivity.
  - rewrite H1. vm_compute. reflexivity.
  - rewrite H2. vm_compute. reflexivity.
  - rewrite H3. vm_compute. reflexivity.
Defined.
(** C8 (the code at the failing input).  Two [/stream/start] requests of one
    session overlap: the second enters while the first is suspended in
    [await socket.start()], so neither finds a stream to stop.  Both answer
    200.  Afterwards the session has two connected sockets and two armed
    bucket timers, the registry knows only the second pair, and the first,
    unregistered aggregator still broadcasts columns to the clients of the
    session. *)
Theorem C8_overlapping_starts_leave_two_streams :
  pending afterOverlap !! 1%nat = Some (KDone 200)
  ∧ pending afterOverlap !! 2%nat = Some (KDone 200)
  ∧ streams (server afterOverlap) !! "S" = Some 1%nat
  ∧ runningFor "S" (server afterOverlap) = [1%nat; 0%nat]
  ∧ (isConnected ∘ socket) <$> heap (server afterOverlap) !! 0%nat = Some true
  ∧ (isConnected ∘ socket) <$> heap (server afterOverlap) !! 1%nat = Some true
  ∧ broadcastAnchors (runWorld CONFIG_default noClock afterOverlap feedFirst)
    = [("S", 0%nat, 50)].
Proof. vm_compute. repeat split. Qed.

(** The same two requests one after the other: the second stops the socket
    and the timer of the first stream before creating its own, and the first
    aggregator does not broadcast any more. *)
Example consecutive_starts_replace :
  pending afterConsecutive !! 1%nat = Some (KDone 200)
  ∧ pending afterConsecutive !! 2%nat = Some (KDone 200)
  ∧ streams (server afterConsecutive) !! "S" = Some 1%nat
  ∧ runningFor "S" (server afterConsecutive) = [1%nat]
  ∧ (isConnected ∘ socket) <$> heap (server afterConsecutive) !! 0%nat = Some false
  ∧ broadcastAnchors (runWorld CONFIG_default noClock afterConsecutive feedFirst)
    = [].
Proof. vm_compute. repeat split. Qed.

(** C9.  A token refresh cycle leaves the registry as it is and, in every
    stream, changes nothing but the socket's token: the aggregator (book,
    trade buffer, [lastMidTick], interval timer) and the connection flag are
    the same before and after.  For every registered stream (the registry
    entries holding the pairs that were created for them, [registered_own]),
    when its session exists and the validation succeeds, the socket's token after the cycle is
    the token the validation returns (the new one if the upstream sent one,
    else the session's current one); in every other case the token stays.  A
    pair that is not registered is not touched at all.  The same holds for
    one iteration of the loop, for its registry entry. *)
Theorem C9_refresh_changes_only_the_token (replies : string → ValidateReply)
    (now : Z) (σ : Server) :
  tokens_truthy (sessionStore σ) →
  (streams (refreshCycle replies now σ) = streams σ
   ∧ ∀ a o, heap σ !! a = Some o →
       ∃ o', heap (refreshCycle replies now σ) !! a = Some o'
             ∧ same_but_token o o')
  ∧ (registered_own σ →
     ∀ sid addr, streams σ !! sid = Some addr →
       ∃ o o', heap σ !! addr = Some o
               ∧ heap (refreshCycle replies now σ) !! addr = Some o'
               ∧ same_but_token o o'
               ∧ token (socket o') =
                   match sessionStore σ !! sid, replies sid with
                   | Some session, Reply true (Some tok) =>
                       if JS.truthy tok then tok else accessToken session
                   | Some session, Reply true None => accessToken session
                   | _, _ => token (socket o)
                   end)
  ∧ (∀ addr, (∀ sid, streams σ !! sid ≠ Some addr) →
       heap (refreshCycle replies now σ) !! addr = heap σ !! addr)
  ∧ (∀ reply sid addr o,
       heap σ !! addr = Some o →
       ∃ o', heap (refreshEntry reply now sid addr σ) !! addr = Some o'
             ∧ same_but_token o o'
             ∧ token (socket o') =
                 match sessionStore σ !! sid, reply with
                 | Some session, Reply true (Some tok) =>
                     if JS.truthy tok then tok else accessToken session
                 | Some session, Reply true None => accessToken session
                 | _, _ => token (socket o)
                 end).
Proof.
  intros Hst.
  pose proof (refreshEntries_frame replies now (map_to_list (streams σ)) σ)
    as Hframe.
  cbv zeta in Hframe. fold (refreshCycle replies now σ) in Hframe.
  split; [|split; [|split]].
  - exact Hframe.
  - intros Hown sid addr Hreg. destruct (Hown _ _ Hreg) as (o & Ho & _).
    destruct (refreshEntries_token replies now (map_to_list (streams σ)) σ
                (NoDup_fst_map_to_list (streams σ)) (registered_own_NoDup σ Hown)
                Hst sid addr o) as (o' & Ho' & Htok);
      [by apply elem_of_map_to_list | exact Ho |].
    destruct Hframe as [_ Hsame]. destruct (Hsame addr o Ho) as (o'' & Ho'' & Hs).
    fold (refreshCycle replies now σ) in Ho'.
    exists o, o'. split_and!; auto.
    rewrite Ho' in Ho''. by injection Ho'' as <-.
  - intros addr Hun. apply refreshEntries_heap_other.
    intros Hin. apply list_elem_of_fmap in Hin as ([s a] & -> & Hin).
    apply elem_of_map_to_list in Hin. by apply (Hun s).
  - intros reply sid addr o Hl.
    destruct (refreshEntry_token reply now sid addr σ o Hst Hl) as (o' & Hl' & Htok).
    destruct (refreshEntry_frame reply now sid addr σ) as [_ Hf].
    destruct (Hf addr o Hl) as (o'' & Hl'' & Hsame).
    exists o'. rewrite Hl' in Hl''. injection Hl'' as <-. auto.
Qed.

Lemma C9_witness :
  ∃ o o', heap (server afterConsecutive) !! 1%nat = Some o
          ∧ heap (refreshCycle (λ _, Reply true (Some "jwt-2")) 0
                    (server afterConsecutive)) !! 1%nat = Some o'
          ∧ same_but_token o o'
          ∧ token (socket o) = "jwt-1" ∧ token (socket o') = "jwt-2".
Proof.
  assert (Hstore : sessionStore (server afterConsecutive) = storeS)
    by (vm_compute; reflexivity).
  assert (Hstreams : streams (server afterConsecutive) = {[ "S" := 1%nat ]})
    by (vm_compute; reflexivity).
  assert (Hst : tokens_truthy (sessionStore (server afterConsecutive)))
    by (rewrite Hstore; apply storeS_tokens_truthy).
  assert (Hown : registered_own (server afterConsecutive)).
  { intros sid addr Hl. rewrite Hstreams in Hl.
    apply lookup_singleton_Some in Hl as [<- <-]. vm_compute. eauto. }
  destruct (C9_refresh_changes_only_the_token (λ _, Reply true (Some "jwt-2")) 0
              (server afterConsecutive) Hst) as (_ & Hreg & _).
  destruct (Hreg Hown "S" 1%nat) as (o & o' & Ho & Ho' & Hsame & Htok).
  { rewrite Hstreams. apply lookup_singleton_eq. }
  exists o, o'. split_and!; [exact Ho | exact Ho' | exact Hsame | |].
  - vm_compute in Ho. injection Ho as <-. reflexivity.
  - rewrite Htok, Hstore. reflexivity.
Defined.

(** C10.  A column emitted by [bucket()] never has [midTick] 0: its
    [midTick] is the value that reaches the test [if (midTick === 0) return],
    and when that value is 0 the call returns without emitting and without
    changing the aggregator.  This includes a book whose only bid and ask are
    both at tick 0 and an empty book with a buffered trade at tick 0.  So no
    column of any run of an aggregator is anchored at tick 0. *)
Theorem C10_no_column_at_tick_zero (cfg : Config) (now : Z) (a : MarketAggregator) :
  (∀ a' col, bucket cfg now a = (a', Emitted col) →
             midTick col = guardMid a ∧ midTick col ≠ 0)
  ∧ (guardMid a = 0 → bucket cfg now a = (a, Skipped))
  ∧ (∀ getTime evs col,
       LogEmit col ∈ (run cfg getTime a evs).2 → midTick col ≠ 0)
  ∧ bucket cfg now (bookAt 0 0) = (bookAt 0 0, Skipped)
  ∧ bucket cfg now (oneTradeAt 0) = (oneTradeAt 0, Skipped).
Proof.
  split_and!.
  - intros a' col Hbucket.
    destruct (bucket_Emitted_inv _ _ _ _ _ Hbucket) as [Hg0 Hv].
    rewrite (bucket_emit cfg now a Hg0 Hv) in Hbucket.
    injection Hbucket as _ <-. split; [reflexivity | exact Hg0].
  - apply bucket_skip.
  - intros getTime evs col. apply run_columns_nonzero.
  - apply bucket_skip. vm_compute. reflexivity.
  - apply bucket_skip. vm_compute. reflexivity.
Qed.

Lemma C10_witness :
  ∃ col, emitted (bucket CONFIG_default 0 (bookAt 100 104)) = Some col
         ∧ midTick col ≠ 0.
Proof.
  destruct (bucket CONFIG_default 0 (bookAt 100 104)) as [a' out] eqn:E.
  assert (Hout : ∃ col, out = Emitted col).
  { revert E. vm_compute. intros [= <- <-]. eexists. reflexivity. }
  destruct Hout as (col & ->).
  destruct (C10_no_column_at_tick_zero CONFIG_default 0 (bookAt 100 104))
    as (Hemit & _).
  exists col. split; [reflexivity|]. exact (proj2 (Hemit a' col E)).
Defined.

(** * Further properties of the aggregator *)

(** ** Timer life cycle *)

(** X1.  [start()] arms the timer once: a second [start()] keeps the first
    handle.  [stop()] disarms it and is idempotent; stopping an aggregator
    that was idle before it was started gives that aggregator back.  Neither
    touches the book, the trade buffer or [lastMidTick]. *)
Theorem X1_start_stop_lifecycle (h h' : nat) (a : MarketAggregator) :
  start h' (start h a) = start h a
  ∧ stop (stop a) = stop a
  ∧ (intervalId a = None → stop (start h a) = a)
  ∧ is_Some (intervalId (start h a))
  ∧ intervalId (stop a) = None
  ∧ (bids (start h a), asks (start h a), currentBucketTrades (start h a),
     lastMidTick (start h a))
    = (bids a, asks a, currentBucketTrades a, lastMidTick a)
  ∧ (bids (stop a), asks (stop a), currentBucketTrades (stop a),
     lastMidTick (stop a))
    = (bids a, asks a, currentBucketTrades a, lastMidTick a).
Proof.
  destruct a as [cid ts b k tr [i|] m]; unfold start, stop; simpl;
    split_and!; eauto; try discriminate.
Qed.

(** ** The best bid / best ask scans *)

(** X2.  The two scans of [bucket()] do not depend on the order in which the
    keys are enumerated: on any two enumerations of the same keys they return
    the same tick.  The best bid is the largest key of the bid mapping, the
    best ask the smallest key of the ask mapping, and each is missing exactly
    when its mapping is empty. *)
Theorem X2_best_ticks (a : MarketAggregator) :
  (∀ l l' : list Z, l ≡ₚ l' →
     scanBestBid l = scanBestBid l' ∧ scanBestAsk l = scanBestAsk l')
  ∧ (∀ b, bestBid a = Some b ↔
          is_Some (bids a !! b) ∧ ∀ k, is_Some (bids a !! k) → k ≤ b)
  ∧ (∀ b, bestAsk a = Some b ↔
          is_Some (asks a !! b) ∧ ∀ k, is_Some (asks a !! k) → b ≤ k)
  ∧ (bestBid a = None ↔ bids a = ∅)
  ∧ (bestAsk a = None ↔ asks a = ∅).
Proof.
  split_and!.
  - intros l l' Hp. split.
    + pose proof (scanBestBid_spec l) as H. pose proof (scanBestBid_spec l') as H'.
      destruct (scanBestBid l) as [b|], (scanBestBid l') as [b'|]; auto.
      * destruct H as [Hin Hmax], H' as [Hin' Hmax']. f_equal.
        rewrite Hp in Hin. rewrite <- Hp in Hin'.
        specialize (Hmax _ Hin'). specialize (Hmax' _ Hin). lia.
      * subst l'. destruct H as [Hin _]. rewrite Hp in Hin. inversion Hin.
      * subst l. destruct H' as [Hin _]. rewrite <- Hp in Hin. inversion Hin.
    + pose proof (scanBestAsk_spec l) as H. pose proof (scanBestAsk_spec l') as H'.
      destruct (scanBestAsk l) as [b|], (scanBestAsk l') as [b'|]; auto.
      * destruct H as [Hin Hmax], H' as [Hin' Hmax']. f_equal.
        rewrite Hp in Hin. rewrite <- Hp in Hin'.
        specialize (Hmax _ Hin'). specialize (Hmax' _ Hin). lia.
      * subst l'. destruct H as [Hin _]. rewrite Hp in Hin. inversion Hin.
      * subst l. destruct H' as [Hin _]. rewrite <- Hp in Hin. inversion Hin.
  - apply bestBid_Some.
  - apply bestAsk_Some.
  - apply bestBid_None.
  - apply bestAsk_None.
Qed.

(** ** Depth updates *)

(** X3.  A depth message whose [domType] is none of 1, 2, 3, 4, 6, 9, 10
    changes nothing.  Whatever its [domType], a depth message leaves the
    trade buffer, [lastMidTick], the timer, the tick size and the contract
    identifier as they are. *)
Theorem X3_handleDepth_other_codes (msg : DepthMessage) (a : MarketAggregator) :
  domType msg ∉ [1; 2; 3; 4; 6; 9; 10] →
  handleDepth msg a = a
  ∧ ∀ msg' : DepthMessage,
      (currentBucketTrades (handleDepth msg' a), lastMidTick (handleDepth msg' a),
       intervalId (handleDepth msg' a), tickSize (handleDepth msg' a),
       contractId (handleDepth msg' a))
      = (currentBucketTrades a, lastMidTick a, intervalId a, tickSize a,
         contractId a).
Proof.
  intros Hcode. split.
  - repeat (apply not_elem_of_cons in Hcode as [? Hcode]).
    destruct (handleDepth_cases msg a) as [[E _]|[[E _]|[[E _]|(_ & _ & _ & E)]]];
      [congruence | exfalso | exfalso | exact E].
    + unfold isAskType in E.
      destruct (Z.eqb_spec (domType msg) 1); [congruence|].
      destruct (Z.eqb_spec (domType msg) 3); [congruence|].
      destruct (Z.eqb_spec (domType msg) 10); [congruence|discriminate].
    + unfold isBidType in E.
      destruct (Z.eqb_spec (domType msg) 2); [congruence|].
      destruct (Z.eqb_spec (domType msg) 4); [congruence|].
      destruct (Z.eqb_spec (domType msg) 9); [congruence|discriminate].
  - intros msg'.
    destruct (handleDepth_cases msg' a) as [[_ E]|[[_ E]|[[_ E]|(_ & _ & _ & E)]]];
      rewrite E; reflexivity.
Qed.

Lemma X3_witness :
  handleDepth (depthMsg 5 100 3) (bookAt 100 104) = bookAt 100 104.
Proof.
  apply (X3_handleDepth_other_codes (depthMsg 5 100 3) (bookAt 100 104)).
  simpl. repeat (apply not_elem_of_cons; split; [discriminate|]).
  apply not_elem_of_nil.
Defined.

Lemma updateLevel_twice (T V1 V2 : Z) (m : gmap Z Z) :
  updateLevel T V2 (updateLevel T V1 m) = updateLevel T V2 m.
Proof.
  unfold updateLevel. destruct (V1 =? 0), (V2 =? 0).
  - apply delete_delete_eq.
  - apply insert_delete_eq.
  - apply delete_insert_eq.
  - apply insert_insert_eq.
Qed.

Lemma updateLevel_comm (T1 T2 V1 V2 : Z) (m : gmap Z Z) :
  T1 ≠ T2 →
  updateLevel T2 V2 (updateLevel T1 V1 m) = updateLevel T1 V1 (updateLevel T2 V2 m).
Proof.
  intros Hne. unfold updateLevel. destruct (V1 =? 0), (V2 =? 0).
  - apply delete_delete.
  - by apply insert_delete_ne.
  - by apply delete_insert_ne.
  - by apply insert_insert_ne.
Qed.

(** X4.  Two updates of the same side and the same tick: the later one
    wins, the earlier one leaves no trace.  Two updates of different ticks, or
    of different sides, can be applied in either order. *)
Theorem X4_depth_updates_compose (m1 m2 : DepthMessage) (a : MarketAggregator) :
  isBidType (domType m1) || isAskType (domType m1) = true →
  isBidType (domType m2) || isAskType (domType m2) = true →
  (isBidType (domType m1) = isBidType (domType m2) →
   tickOf a (d_price m1) = tickOf a (d_price m2) →
   handleDepth m2 (handleDepth m1 a) = handleDepth m2 a)
  ∧ (isBidType (domType m1) ≠ isBidType (domType m2)
     ∨ tickOf a (d_price m1) ≠ tickOf a (d_price m2) →
     handleDepth m2 (handleDepth m1 a) = handleDepth m1 (handleDepth m2 a)).
Proof.
  intros H1 H2.
  assert (Hside : ∀ m, isBidType (domType m) || isAskType (domType m) = true →
            (isBidType (domType m) = true ∧ isAskType (domType m) = false)
            ∨ (isBidType (domType m) = false ∧ isAskType (domType m) = true)).
  { intros m. unfold isBidType, isAskType.
    destruct (Z.eqb_spec (domType m) 2) as [->|]; [auto|].
    destruct (Z.eqb_spec (domType m) 4) as [->|]; [auto|].
    destruct (Z.eqb_spec (domType m) 9) as [->|]; [auto|].
    simpl. auto. }
  destruct (Hside m1 H1) as [[B1 A1]|[B1 A1]], (Hside m2 H2) as [[B2 A2]|[B2 A2]];
    rewrite B1, B2; split;
    try (intros ?; discriminate);
    rewrite ?(handleDepth_bid m1) by assumption;
    rewrite ?(handleDepth_ask m1) by assumption;
    rewrite ?(handleDepth_bid m2) by assumption;
    rewrite ?(handleDepth_ask m2) by assumption;
    destruct a as [cid ts b k tr i m]; unfold set_bids, set_asks, tickOf; simpl.
  - intros _ Ht. unfold tickOf in Ht. simpl in Ht. rewrite Ht.
    by rewrite updateLevel_twice.
  - intros [Hs|Ht]; [congruence|]. unfold tickOf in Ht. simpl in Ht.
    by rewrite updateLevel_comm.
  - intros _. reflexivity.
  - intros _. reflexivity.
  - intros _ Ht. unfold tickOf in Ht. simpl in Ht. rewrite Ht.
    by rewrite updateLevel_twice.
  - intros [Hs|Ht]; [congruence|]. unfold tickOf in Ht. simpl in Ht.
    by rewrite updateLevel_comm.
Qed.

Lemma X4_witness :
  handleDepth (depthMsg 4 101 3) (handleDepth (depthMsg 2 101 9) (bookAt 100 104))
  = handleDepth (depthMsg 4 101 3) (bookAt 100 104).
Proof.
  destruct (X4_depth_updates_compose (depthMsg 2 101 9) (depthMsg 4 101 3)
              (bookAt 100 104) eq_refl eq_refl) as [Hlast _].
  apply Hlast; reflexivity.
Defined.

(** X5.  Depth messages and trade messages act on separate parts of the
    aggregator: a depth message and a trade message can be handled in either
    order with the same result. *)
Theorem X5_depth_and_trade_commute (getTime : string → Z) (d : DepthMessage)
    (tm : TradeMessage) (a : MarketAggregator) :
  handleTrade getTime tm (handleDepth d a) = handleDepth d (handleTrade getTime tm a).
Proof.
  destruct a as [cid ts b k tr i m].
  unfold handleTrade, tradeRecord, handleDepth, tickOf. simpl.
  destruct (domType d) as [|p|p]; try reflexivity;
    do 4 (try destruct p as [p|p|]); reflexivity.
Qed.

(** ** Buckets *)

Lemma fillWindow_empty (W s : Z) : fillWindow W s ∅ = replicate (Z.to_nat W) 0.
Proof.
  destruct (fillWindow_spec W s ∅) as [Hlen Hget].
  apply list_eq. intros i. destruct (decide (i < Z.to_nat W)%nat) as [Hlt|Hge].
  - rewrite Hget by lia. rewrite lookup_empty. simpl.
    symmetry. by apply lookup_replicate_2.
  - rewrite !lookup_ge_None_2; [reflexivity | rewrite length_replicate; lia | lia].
Qed.

(** X6.  When the data pauses (empty book, empty trade buffer) after a
    column has been emitted, [bucket()] keeps emitting: the column is
    anchored at the stored [lastMidTick], both windows are all zeros, it
    carries no trade, and the aggregator is left as it was. *)
Theorem X6_bucket_carries_last_mid (cfg : Config) (now : Z) (a : MarketAggregator) :
  bids a = ∅ → asks a = ∅ → currentBucketTrades a = [] →
  lastMidTick a ≠ 0 →
  JS.valid_array_length (PRICE_WINDOW_TICKS cfg) = true →
  bucket cfg now a =
    (a, Emitted {| t := now; midTick := lastMidTick a;
                   col_bids := replicate (Z.to_nat (PRICE_WINDOW_TICKS cfg)) 0;
                   col_asks := replicate (Z.to_nat (PRICE_WINDOW_TICKS cfg)) 0;
                   trades := [] |}).
Proof.
  intros Hb Ha Ht Hm Hv.
  pose proof (guardMid_no_data a Hb Ha Ht) as Hg.
  rewrite bucket_emit by (rewrite ?Hg; assumption).
  rewrite Hg, Hb, Ha, Ht, !fillWindow_empty.
  f_equal. destruct a; simpl in *; subst; reflexivity.
Qed.

Lemma X6_witness :
  ∃ a col, bucket CONFIG_default 100 (oneTradeAt 50) = (a, Emitted col)
           ∧ bucket CONFIG_default 200 a
             = (a, Emitted {| t := 200; midTick := 50;
                              col_bids := replicate 200 0;
                              col_asks := replicate 200 0;
                              trades := [] |}).
Proof.
  destruct (bucket CONFIG_default 100 (oneTradeAt 50)) as [a out] eqn:E.
  assert (Ha : a = set_trades [] (set_lastMidTick 50 (oneTradeAt 50))
               ∧ ∃ col, out = Emitted col).
  { revert E. vm_compute. intros [= <- <-]. split; [reflexivity | eexists; reflexivity]. }
  destruct Ha as [-> [col ->]].
  exists (set_trades [] (set_lastMidTick 50 (oneTradeAt 50))), col.
  split; [reflexivity|].
  apply (X6_bucket_carries_last_mid CONFIG_default 200
           (set_trades [] (set_lastMidTick 50 (oneTradeAt 50))));
    try reflexivity.
  simpl. lia.
Defined.




Lemma bucket_state (cfg : Config) (now : Z) (a : MarketAggregator) :
  (bids (bucket cfg now a).1, asks (bucket cfg now a).1,
   intervalId (bucket cfg now a).1, tickSize (bucket cfg now a).1,
   contractId (bucket cfg now a).1)
  = (bids a, asks a, intervalId a, tickSize a, contractId a)
  ∧ match (bucket cfg now a).2 with
    | Skipped => (bucket cfg now a).1 = a
    | Emitted col =>
        lastMidTick (bucket cfg now a).1 = midTick col
        ∧ t col = now
        ∧ trades col = currentBucketTrades a
        ∧ currentBucketTrades (bucket cfg now a).1 = []
    | RangeError =>
        lastMidTick (bucket cfg now a).1 = guardMid a ∧ guardMid a ≠ 0
        ∧ currentBucketTrades (bucket cfg now a).1 = currentBucketTrades a
        ∧ JS.valid_array_length (PRICE_WINDOW_TICKS cfg) = false
    end.
Proof.
  unfold bucket. destruct (Z.eqb_spec (guardMid a) 0) as [E|Hne]; [by split|].
  destruct (JS.valid_array_length (PRICE_WINDOW_TICKS cfg)); simpl; auto.
Qed.

(** X8.  What a call of [bucket()] does to the aggregator.  It never
    changes the book, the timer, the tick size or the contract.  When it
    emits, [lastMidTick] becomes the column's [midTick], the column is stamped
    with the current time and carries the buffered trades, and the buffer is
    emptied.  When [new Array(windowSize)] throws, [lastMidTick] has already
    been overwritten with a non-zero tick, nothing was emitted and the
    buffered trades are still there. *)
Theorem X8_bucket_effects (cfg : Config) (now : Z) (a : MarketAggregator) :
  (bids (bucket cfg now a).1, asks (bucket cfg now a).1,
   intervalId (bucket cfg now a).1, tickSize (bucket cfg now a).1,
   contractId (bucket cfg now a).1)
  = (bids a, asks a, intervalId a, tickSize a, contractId a)
  ∧ match (bucket cfg now a).2 with
    | Skipped => (bucket cfg now a).1 = a
    | Emitted col =>
        lastMidTick (bucket cfg now a).1 = midTick col
        ∧ t col = now
        ∧ trades col = currentBucketTrades a
        ∧ currentBucketTrades (bucket cfg now a).1 = []
    | RangeError =>
        lastMidTick (bucket cfg now a).1 = guardMid a ∧ guardMid a ≠ 0
        ∧ currentBucketTrades (bucket cfg now a).1 = currentBucketTrades a
        ∧ JS.valid_array_length (PRICE_WINDOW_TICKS cfg) = false
    end.
Proof. apply bucket_state. Qed.

Lemma Math_round_half_bounds (b k : Z) :
  b ≤ k →
  b ≤ JS.Math_round (JS.div (inject_Z (b + k)) 2) ≤ k
  ∧ (b < k → b < JS.Math_round (JS.div (inject_Z (b + k)) 2)).
Proof.
  intros Hle. rewrite Math_round_half.
  pose proof (Z.div_mod (b + k + 1) 2 ltac:(lia)) as Hdm.
  pose proof (Z.mod_pos_bound (b + k + 1) 2 ltac:(lia)) as Hm.
  split; [split|]; lia.
Qed.

(** X9.  With a book that is not crossed (best bid [b] at or below best ask
    [k]) and a sum [b + k] that is a safe integer, the anchor of the emitted
    column lies between the two.  It is strictly above the best bid when the
    two differ, unless [b + k] is 0 or -1: the rounded mid is then 0, which
    the code takes for "unset", and the anchor is the best bid.  A half
    rounds up, so a one-tick spread is anchored at the ask, unless the ask is
    tick 0. *)
Theorem X9_mid_between_bid_and_ask (cfg : Config) (now : Z)
    (a a' : MarketAggregator) (col : HeatmapColumn) (b k : Z) :
  bestBid a = Some b → bestAsk a = Some k → b ≤ k →
  JS.isSafeInteger (b + k) = true →
  bucket cfg now a = (a', Emitted col) →
  b ≤ midTick col ≤ k
  ∧ (b < k → b + k ≠ 0 → b + k ≠ -1 → b < midTick col)
  ∧ (b < k → b + k = 0 ∨ b + k = -1 → midTick col = b)
  ∧ (k = b + 1 → k ≠ 0 → midTick col = k).
Proof.
  intros Hb Hk Hle Hsafe Hbucket.
  destruct (bucket_Emitted_inv _ _ _ _ _ Hbucket) as [Hg0 Hv].
  rewrite (bucket_emit cfg now a Hg0 Hv) in Hbucket.
  injection Hbucket as _ <-. cbn [midTick].
  rewrite (guardMid_both a b k Hb Hk) in *. cbv zeta in *.
  rewrite (add_safe b k Hsafe) in *.
  destruct (Math_round_half_bounds b k Hle) as [Hin Hlt].
  pose proof (Math_round_half (b + k)) as Hr.
  pose proof (Z.div_mod (b + k + 1) 2 ltac:(lia)) as Hdm.
  pose proof (Z.mod_pos_bound (b + k + 1) 2 ltac:(lia)) as Hm.
  set (r := JS.Math_round (JS.div (inject_Z (b + k)) 2)) in *.
  destruct (Z.eqb_spec r 0) as [E|Hne].
  - destruct (Z.eqb_spec b 0) as [->|Hb0].
    + split; [lia|]. split_and!; intros; lia.
    + split; [lia|]. split_and!; intros; lia.
  - split; [lia|]. split_and!; intros; lia.
Qed.

Lemma X9_witness :
  ∃ col, emitted (bucket CONFIG_default 0 (bookAt 100 101)) = Some col
         ∧ 100 ≤ midTick col ≤ 101 ∧ midTick col = 101.
Proof.
  destruct (bucket CONFIG_default 0 (bookAt 100 101)) as [a' out] eqn:E.
  assert (Hout : ∃ col, out = Emitted col).
  { revert E. vm_compute. intros [= <- <-]. eexists. reflexivity. }
  destruct Hout as (col & ->).
  assert (Hb : bestBid (bookAt 100 101) = Some 100) by (vm_compute; reflexivity).
  assert (Hk : bestAsk (bookAt 100 101) = Some 101) by (vm_compute; reflexivity).
  destruct (X9_mid_between_bid_and_ask CONFIG_default 0 (bookAt 100 101) a' col
              100 101 Hb Hk ltac:(lia) eq_refl E) as (Hin & _ & _ & Hone).
  exists col. split_and!; [reflexivity | lia | lia | apply Hone; lia].
Defined.

(** ** Runs of an aggregator *)

Lemma columnsOf_snoc (log : list LogItem) (it : LogItem) :
  columnsOf (log ++ [it])
  = columnsOf log ++ match it with LogEmit col => [col] | LogTrade _ => [] end.
Proof. unfold columnsOf. rewrite omap_app. destruct it; reflexivity. Qed.

Lemma tradesLogged_snoc (log : list LogItem) (it : LogItem) :
  tradesLogged (log ++ [it])
  = tradesLogged log ++ match it with LogTrade tr => [tr] | LogEmit _ => [] end.
Proof. unfold tradesLogged. rewrite omap_app. destruct it; reflexivity. Qed.

(** X10.  No trade is lost or counted twice across bucket boundaries: at
    any point of a run, the trades that were in the buffer at the start
    followed by all trades received since are exactly the trades of the
    emitted columns, column after column, followed by the trades still in the
    buffer. *)
Theorem X10_trades_are_conserved (cfg : Config) (getTime : string → Z)
    (a0 : MarketAggregator) (evs : list Event) :
  currentBucketTrades a0 ++ tradesLogged (run cfg getTime a0 evs).2
  = concat (trades <$> columnsOf (run cfg getTime a0 evs).2)
    ++ currentBucketTrades (run cfg getTime a0 evs).1.
Proof.
  induction evs as [|e evs IH] using rev_ind.
  - simpl. by rewrite app_nil_r.
  - rewrite run_snoc. destruct (run cfg getTime a0 evs) as [a log].
    simpl in IH. destruct e as [msg|msg|now]; simpl.
    + by rewrite handleDepth_trades.
    + rewrite tradesLogged_snoc, columnsOf_snoc, app_nil_r, !app_assoc.
      by rewrite IH.
    + pose proof (bucket_trades cfg now a) as Hb.
      destruct (bucket cfg now a) as [a' [|c|]]; simpl.
      * by rewrite Hb.
      * destruct Hb as [Htr Hbuf].
        rewrite tradesLogged_snoc, columnsOf_snoc, app_nil_r, Hbuf, app_nil_r.
        rewrite fmap_app, concat_app. simpl. rewrite app_nil_r, Htr. exact IH.
      * by rewrite Hb.
Qed.

Lemma handleDepth_lastMidTick (msg : DepthMessage) (a : MarketAggregator) :
  lastMidTick (handleDepth msg a) = lastMidTick a.
Proof.
  destruct (handleDepth_cases msg a) as [[_ E]|[[_ E]|[[_ E]|(_ & _ & _ & E)]]];
    rewrite E; reflexivity.
Qed.

(** X11.  With a window size that is a valid array length, [lastMidTick]
    is at every point of a run the anchor of the most recent emitted column,
    and still its initial value when no column has been emitted. *)
Theorem X11_lastMidTick_is_the_last_anchor (cfg : Config) (getTime : string → Z)
    (a0 : MarketAggregator) (evs : list Event) :
  JS.valid_array_length (PRICE_WINDOW_TICKS cfg) = true →
  lastMidTick (run cfg getTime a0 evs).1
  = default (lastMidTick a0)
            (midTick <$> last (columnsOf (run cfg getTime a0 evs).2)).
Proof.
  intros Hv. induction evs as [|e evs IH] using rev_ind.
  - reflexivity.
  - rewrite run_snoc. destruct (run cfg getTime a0 evs) as [a log].
    simpl in IH. destruct e as [msg|msg|now]; simpl.
    + by rewrite handleDepth_lastMidTick.
    + rewrite columnsOf_snoc, app_nil_r. exact IH.
    + pose proof (bucket_state cfg now a) as [_ Hb].
      destruct (bucket cfg now a) as [a' [|c|]]; simpl in *.
      * by subst a'.
      * destruct Hb as (Hm & _). rewrite columnsOf_snoc, last_snoc. exact Hm.
      * destruct Hb as (_ & _ & _ & Hf). congruence.
Qed.

Lemma X11_witness :
  lastMidTick (run CONFIG_default noClock freshES demoEvents).1 = 52.
Proof.
  rewrite (X11_lastMidTick_is_the_last_anchor CONFIG_default noClock freshES
             demoEvents eq_refl).
  vm_compute. reflexivity.
Defined.

Lemma handleDepth_book_congr (msg : DepthMessage) (a a' : MarketAggregator) :
  bids a = bids a' → asks a = asks a' → tickSize a = tickSize a' →
  bids (handleDepth msg a) = bids (handleDepth msg a')
  ∧ asks (handleDepth msg a) = asks (handleDepth msg a')
  ∧ tickSize (handleDepth msg a) = tickSize (handleDepth msg a').
Proof.
  destruct a as [cid ts b k tr i m], a' as [cid' ts' b' k' tr' i' m'].
  simpl. intros -> -> ->. unfold handleDepth, tickOf. simpl.
  destruct (domType msg) as [|p|p]; try (by split_and!);
    do 4 (try destruct p as [p|p|]); by split_and!.
Qed.

(** X12.  A reset makes the book independent of everything received
    before it: after a sequence of depth messages that contains a reset, the
    bid and ask mappings are those that the messages from that reset on build
    on any aggregator of the same tick size. *)
Theorem X12_reset_forgets_the_past (pre post : list DepthMessage)
    (r : DepthMessage) (a a' : MarketAggregator) :
  domType r = 6 → tickSize a = tickSize a' →
  bids (applyDepths (pre ++ r :: post) a) = bids (applyDepths (r :: post) a')
  ∧ asks (applyDepths (pre ++ r :: post) a) = asks (applyDepths (r :: post) a').
Proof.
  intros Hr Hts.
  assert (Hkeep : ∀ l x, tickSize (applyDepths l x) = tickSize x).
  { intros l. induction l as [|msg l IH] using rev_ind; intros x; [reflexivity|].
    rewrite applyDepths_snoc.
    destruct (handleDepth_cases msg (applyDepths l x))
      as [[_ E]|[[_ E]|[[_ E]|(_ & _ & _ & E)]]]; rewrite E; simpl; apply IH. }
  assert (H : bids (applyDepths (pre ++ r :: post) a) = bids (applyDepths (r :: post) a')
              ∧ asks (applyDepths (pre ++ r :: post) a) = asks (applyDepths (r :: post) a')
              ∧ tickSize (applyDepths (pre ++ r :: post) a)
                = tickSize (applyDepths (r :: post) a')); [|tauto].
  induction post as [|msg post IH] using rev_ind.
  - change (pre ++ [r]) with (pre ++ [r]). rewrite applyDepths_snoc.
    change (applyDepths [r] a') with (handleDepth r a').
    rewrite !(handleDepth_reset r) by assumption. simpl.
    split_and!; [reflexivity | reflexivity |]. rewrite Hkeep. exact Hts.
  - change (pre ++ r :: post ++ [msg]) with (pre ++ (r :: post) ++ [msg]).
    rewrite app_assoc.
    change (r :: post ++ [msg]) with ((r :: post) ++ [msg]).
    rewrite !applyDepths_snoc.
    destruct IH as (Hb & Ha & Ht). by apply handleDepth_book_congr.
Qed.

Lemma X12_witness :
  bids (applyDepths ([depthMsg 2 90 4; depthMsg 1 95 2]
                       ++ depthMsg 6 0 0 :: [depthMsg 2 100 5])
                    (bookAt 100 104))
  = bids (applyDepths (depthMsg 6 0 0 :: [depthMsg 2 100 5]) freshES).
Proof.
  apply (X12_reset_forgets_the_past [depthMsg 2 90 4; depthMsg 1 95 2]
           [depthMsg 2 100 5] (depthMsg 6 0 0) (bookAt 100 104) freshES);
    reflexivity.
Defined.

(** * Further properties of the server *)

(** ** The clients of a session *)

Lemma has_client_add (sid sid' : string) (ws ws' : nat)
    (c : gmap string (gset nat)) :
  has_client sid' ws' (ClientManager_add sid ws c)
  ↔ (sid' = sid ∧ ws' = ws) ∨ has_client sid' ws' c.
Proof.
  unfold has_client, ClientManager_add.
  destruct (decide (sid' = sid)) as [->|Hne].
  - destruct (c !! sid) as [set|] eqn:E.
    + rewrite lookup_alter_eq, E. simpl. split.
      * intros (s & [= <-] & Hin). apply elem_of_union in Hin as [Hin|Hin].
        -- apply elem_of_singleton in Hin. auto.
        -- right. eauto.
      * intros [[_ ->]|(s & [= <-] & Hin)]; eexists; split; try reflexivity;
          set_solver.
    + rewrite lookup_alter_eq, lookup_insert_eq. simpl. split.
      * intros (s & [= <-] & Hin). left. set_solver.
      * intros [[_ ->]|(s & [=] & _)]. eexists. split; [reflexivity | set_solver].
  - destruct (c !! sid) as [set|] eqn:E.
    + rewrite lookup_alter_ne by congruence. naive_solver.
    + rewrite lookup_alter_ne, lookup_insert_ne by congruence. naive_solver.
Qed.

Lemma has_client_remove (sid sid' : string) (ws ws' : nat)
    (c : gmap string (gset nat)) :
  has_client sid' ws' (ClientManager_remove sid ws c)
  ↔ has_client sid' ws' c ∧ ¬ (sid' = sid ∧ ws' = ws).
Proof.
  unfold has_client, ClientManager_remove.
  destruct (c !! sid) as [set|] eqn:E.
  - destruct (decide (sid' = sid)) as [->|Hne].
    + case_decide as Hsz.
      * apply size_empty_iff in Hsz. rewrite lookup_delete_eq, E. split.
        -- intros (s & [=] & _).
        -- intros [(s & [= <-] & Hin) Hn]. exfalso. set_solver.
      * rewrite lookup_insert_eq, E. split.
        -- intros (s & [= <-] & Hin). split; [exists set; set_solver | set_solver].
        -- intros [(s & [= <-] & Hin) Hn]. eexists. split; [reflexivity|].
           apply elem_of_difference. split; [exact Hin|].
           rewrite elem_of_singleton. intros ->. apply Hn. auto.
    + case_decide.
      * rewrite lookup_delete_ne by congruence. naive_solver.
      * rewrite lookup_insert_ne by congruence. naive_solver.
  - split; [|tauto]. intros (s & Hl & Hin). split; [eauto|].
    intros [-> _]. congruence.
Qed.

Lemma applyClientOp_nonempty (c : gmap string (gset nat)) (op : ClientOp) :
  (∀ sid set, c !! sid = Some set → set ≠ ∅) →
  ∀ sid set, applyClientOp c op !! sid = Some set → set ≠ ∅.
Proof.
  intros Hc sid set. destruct op as [sid0 ws|sid0 ws]; simpl.
  - unfold ClientManager_add. destruct (c !! sid0) as [s0|] eqn:E.
    + rewrite lookup_alter. case_decide as Hd.
      * subst sid0. rewrite E. simpl. intros [= <-]. set_solver.
      * apply Hc.
    + rewrite lookup_alter. case_decide as Hd.
      * subst sid0. rewrite lookup_insert_eq. simpl. intros [= <-]. set_solver.
      * rewrite lookup_insert_ne by congruence. apply Hc.
  - unfold ClientManager_remove. destruct (c !! sid0) as [s0|] eqn:E; [|apply Hc].
    case_decide as Hsz.
    + intros Hl. apply lookup_delete_Some in Hl as [_ Hl]. eauto.
    + rewrite lookup_insert. case_decide.
      * intros [= <-] Hempty. apply Hsz. rewrite Hempty. apply size_empty.
      * apply Hc.
Qed.

(** X13.  The client registry never holds an empty set: whatever
    connections are added and removed, a session that has an entry has at
    least one connection, and removing the last connection of a session
    removes its entry.  Adding makes the connection a client of its session
    and changes no other membership; removing takes exactly that membership
    away. *)
Theorem X13_client_registry (ops : list ClientOp) (sid sid' : string) (ws ws' : nat) :
  (∀ s set, foldl applyClientOp ∅ ops !! s = Some set → set ≠ ∅)
  ∧ (∀ c, has_client sid' ws' (ClientManager_add sid ws c)
          ↔ (sid' = sid ∧ ws' = ws) ∨ has_client sid' ws' c)
  ∧ (∀ c, has_client sid' ws' (ClientManager_remove sid ws c)
          ↔ has_client sid' ws' c ∧ ¬ (sid' = sid ∧ ws' = ws))
  ∧ (∀ c, (∀ w, has_client sid w c → w = ws) →
          ClientManager_getClients sid (ClientManager_remove sid ws c) = None).
Proof.
  split_and!.
  - induction ops as [|op ops IH] using rev_ind.
    + simpl. intros s set Hl. rewrite lookup_empty in Hl. discriminate.
    + rewrite foldl_app. simpl. by apply applyClientOp_nonempty.
  - intros c. apply has_client_add.
  - intros c. apply has_client_remove.
  - intros c Hall. unfold ClientManager_getClients, ClientManager_remove.
    destruct (c !! sid) as [set|] eqn:E; [|exact E].
    assert (Hemp : set ∖ {[ws]} = ∅).
    { apply set_eq. intros w. rewrite elem_of_difference, elem_of_singleton.
      split; [|set_solver]. intros [Hin Hne]. exfalso. apply Hne, Hall.
      exists set. auto. }
    rewrite Hemp. rewrite decide_True by apply size_empty.
    apply lookup_delete_eq.
Qed.

(** X14.  A column is sent to exactly the connections of the owning
    session that are in state [OPEN], once each; a session without an entry
    in the registry gets nothing, and connections of other sessions are never
    written to. *)
Theorem X14_broadcast_recipients (readyState : nat → Z) (sid : string)
    (clients : gmap string (gset nat)) (ws : nat) :
  (ws ∈ broadcastTo readyState sid clients
   ↔ has_client sid ws clients ∧ readyState ws = WebSocket_OPEN)
  ∧ NoDup (broadcastTo readyState sid clients)
  ∧ (clients !! sid = None → broadcastTo readyState sid clients = []).
Proof.
  unfold broadcastTo, ClientManager_getClients, has_client.
  destruct (clients !! sid) as [set|]; split_and!.
  - rewrite list_elem_of_filter, elem_of_elements. naive_solver.
  - apply NoDup_filter, NoDup_elements.
  - discriminate.
  - split; [intros H; inversion H | intros [(s & [=] & _) _]].
  - constructor.
  - reflexivity.
Qed.

(** ** Requests served one at a time *)

Lemma live_unregister (σ σ' : Server) (sid : string) (old : nat) :
  registered_live σ → streams σ !! sid = Some old →
  streams σ' = delete sid (streams σ) →
  (∀ a, a ≠ old → heap σ' !! a = heap σ !! a) →
  registered_live σ'.
Proof.
  intros Hlive Hold Hs Hh sid' addr Hl. rewrite Hs in Hl.
  apply lookup_delete_Some in Hl as [Hne Hl].
  destruct (Hlive _ _ Hl) as (o & Ho & Hsid & Hrest).
  assert (addr ≠ old).
  { intros ->. destruct (Hlive _ _ Hold) as (o' & Ho' & Hsid' & _). congruence. }
  exists o. rewrite Hh by assumption. auto.
Qed.

Lemma live_touch_unregistered (σ σ' : Server) (n : nat) :
  registered_live σ → unregistered n σ →
  streams σ' = streams σ →
  (∀ a, a ≠ n → heap σ' !! a = heap σ !! a) →
  registered_live σ'.
Proof.
  intros Hlive Hun Hs Hh sid addr Hl. rewrite Hs in Hl.
  destruct (Hlive _ _ Hl) as (o & Ho & Hrest).
  assert (addr ≠ n) by (intros ->; by apply (Hun sid)).
  exists o. rewrite Hh by assumption. auto.
Qed.

Lemma live_register (σ : Server) (sid : string) (n : nat) (o : StreamObj) :
  registered_live σ → unregistered n σ →
  heap σ !! n = Some o → sessionId o = sid →
  isConnected (socket o) = true → intervalId (aggregator o) = None →
  registered_live
    (set_streams (<[sid := n]>) (set_heap (alter (set_aggregator (start n)) n) σ)).
Proof.
  intros Hlive Hun Hn Hsid Hconn Htimer sid' addr Hl. simpl in *.
  apply lookup_insert_Some in Hl as [[<- <-]|[Hne Hl]].
  - exists (set_aggregator (start n) o). rewrite lookup_alter_eq, Hn.
    split_and!; auto. simpl. unfold start. rewrite Htimer. simpl. eauto.
  - destruct (Hlive _ _ Hl) as (o' & Ho' & Hrest).
    assert (addr ≠ n) by (intros ->; by apply (Hun sid')).
    exists o'. rewrite lookup_alter_ne by congruence. auto.
Qed.

Lemma unregistered_fresh (σ : Server) :
  registered_if_running σ → unregistered (nextAddr σ) σ.
Proof.
  intros (_ & Hfresh & Hreg) sid Hl. apply Hreg, Hfresh in Hl. lia.
Qed.

Lemma sockets_alloc (σ : Server) (o : StreamObj) :
  sockets_truthy σ → JS.truthy (token (socket o)) = true →
  sockets_truthy (alloc o σ).
Proof.
  intros Hs Ho addr o' Hl. simpl in Hl.
  apply lookup_insert_Some in Hl as [[_ <-]|[_ Hl]]; eauto.
Qed.

Lemma sockets_alter (σ : Server) (f : StreamObj → StreamObj) (n : nat) :
  sockets_truthy σ →
  (∀ o, JS.truthy (token (socket o)) = true → JS.truthy (token (socket (f o))) = true) →
  sockets_truthy (set_heap (alter f n) σ).
Proof.
  intros Hs Hf addr o' Hl. simpl in Hl.
  apply lookup_alter_Some in Hl as [(_ & o & Hl & ->)|[_ Hl]]; eauto.
Qed.

Lemma start_create_live (sid : string) (session : UserSession) (req : StartReq)
    (σ : Server) :
  registered_if_running σ → registered_live σ → sockets_truthy σ →
  JS.truthy (accessToken session) = true →
  registered_live (start_create sid session req σ).1
  ∧ sockets_truthy (start_create sid session req σ).1
  ∧ K_live (start_create sid session req σ).1 (start_create sid session req σ).2.
Proof.
  intros Hwf Hlive Hsock Htok. unfold start_create. cbn [fst snd].
  pose proof (unregistered_fresh σ Hwf) as Hun. split_and!.
  - apply (live_touch_unregistered σ _ (nextAddr σ)); auto.
    intros a Hne. simpl. by rewrite lookup_insert_ne.
  - by apply sockets_alloc.
  - exact Hun.
Qed.

Lemma start_teardown_live (sid : string) (session : UserSession) (req : StartReq)
    (old : nat) (σ σ0 : Server) :
  registered_if_running σ0 → registered_live σ → sockets_truthy σ0 →
  JS.truthy (accessToken session) = true →
  streams σ !! sid = Some old → streams σ0 = streams σ →
  (∀ a, a ≠ old → heap σ0 !! a = heap σ !! a) →
  registered_live (start_teardown sid session req old σ0).1
  ∧ sockets_truthy (start_teardown sid session req old σ0).1
  ∧ K_live (start_teardown sid session req old σ0).1
           (start_teardown sid session req old σ0).2.
Proof.
  intros Hwf0 Hlive Hsock Htok Hold Hs Hh. unfold start_teardown.
  apply start_create_live; [| | |exact Htok].
  - apply wf_unregister; [exact Hwf0 | by rewrite Hs].
  - apply (live_unregister σ _ sid old); auto.
    + simpl. by rewrite Hs.
    + intros a Hne. simpl. rewrite lookup_alter_ne by congruence. by apply Hh.
  - apply sockets_alter; [|auto]. exact Hsock.
Qed.

Lemma start_enter_live (req : StartReq) (σ : Server) :
  server_ok σ →
  registered_live (start_enter req σ).1
  ∧ sockets_truthy (start_enter req σ).1
  ∧ K_live (start_enter req σ).1 (start_enter req σ).2
  ∧ sessionStore (start_enter req σ).1 = sessionStore σ.
Proof.
  intros (Hwf & Hlive & Hst & Hsock). unfold start_enter.
  destruct (r_sessionId req) as [sid|]; [|by split_and!].
  destruct (JS.truthy sid); simpl; [|by split_and!].
  destruct (sessionStore σ !! sid) as [session|] eqn:Hsess; [|by split_and!].
  pose proof (Hst _ _ Hsess) as Htok.
  destruct (negb (JS.truthy (r_contractId req)) || Qeq_bool (r_tickSize req) 0);
    [by split_and!|].
  destruct (streams σ !! sid) as [old|] eqn:Hold.
  - destruct (heap σ !! old) as [o|].
    + destruct (isConnected (socket o)); [by split_and!|].
      destruct (start_teardown_live sid session req old σ σ) as (? & ? & ?); auto.
    + destruct (start_teardown_live sid session req old σ σ) as (? & ? & ?); auto.
  - destruct (start_create_live sid session req σ) as (? & ? & ?); auto.
Qed.

Lemma start_resume_live (ok : bool) (k : StartK) (σ : Server) :
  registered_if_running σ → registered_live σ → sockets_truthy σ →
  K_ok σ k → K_live σ k →
  registered_live (start_resume ok k σ).1
  ∧ sockets_truthy (start_resume ok k σ).1
  ∧ K_live (start_resume ok k σ).1 (start_resume ok k σ).2
  ∧ sessionStore (start_resume ok k σ).1 = sessionStore σ.
Proof.
  intros Hwf Hlive Hsock Hk Hkl.
  destruct k as [sid session req old|sid req n|sid req n|st|];
    simpl in *; [| | |by split_and!|by split_and!].
  - destruct ok; [|by split_and!].
    destruct (start_teardown_live sid session req old σ
                (set_heap (alter (set_socket (set_isConnected false)) old) σ))
      as (? & ? & ?); auto.
    + by apply wf_set_socket.
    + apply sockets_alter; auto.
    + intros a Hne. simpl. by rewrite lookup_alter_ne.
  - destruct ok; [|by split_and!]. simpl.
    destruct Hk as (Hnone & o & Hn & Hsid & Htimer). split_and!.
    + apply (live_touch_unregistered σ _ n); auto.
      intros a Hne. simpl. by rewrite lookup_alter_ne.
    + apply sockets_alter; auto.
    + exact Hkl.
    + exists (set_socket (set_isConnected true) o).
      rewrite lookup_alter_eq, Hn. auto.
    + reflexivity.
  - destruct ok; [|by split_and!]. simpl.
    destruct Hk as (Hnone & o & Hn & Hsid & Htimer).
    destruct Hkl as (Hun & o' & Hn' & Hconn).
    rewrite Hn in Hn'. injection Hn' as <-. split_and!; auto.
    + by eapply live_register.
    + apply (sockets_alter σ (set_aggregator (start n)) n); auto.
Qed.

Lemma start_enter_handler (req : StartReq) (σ : Server) :
  server_ok σ → handler_ok σ (start_enter req σ).1 (start_enter req σ).2.
Proof.
  intros Hok. pose proof Hok as (Hwf & _).
  destruct (start_enter_ok req σ Hwf) as [? ?].
  destruct (start_enter_live req σ Hok) as (? & ? & ? & ?).
  by split_and!.
Qed.

Lemma start_resume_handler (ok : bool) (k : StartK) (σ0 σ : Server) :
  handler_ok σ0 σ k →
  handler_ok σ0 (start_resume ok k σ).1 (start_resume ok k σ).2.
Proof.
  intros (Hwf & Hk & Hl & Hs & Hkl & Hst).
  destruct (start_resume_ok ok k σ Hwf Hk) as [? ?].
  destruct (start_resume_live ok k σ Hwf Hl Hs Hk Hkl) as (? & ? & ? & Hst').
  split_and!; auto. by rewrite Hst'.
Qed.

Lemma startStream_ok (okStop okConnect okSubscribe : bool) (req : StartReq)
    (σ : Server) :
  server_ok σ → server_ok (startStream okStop okConnect okSubscribe req σ).1.
Proof.
  intros Hok. pose proof Hok as (_ & _ & Hst & _).
  assert (Hend : ∀ σ' k, handler_ok σ σ' k → server_ok σ').
  { intros σ' k (? & ? & ? & ? & ? & Hst'). split_and!; auto. by rewrite Hst'. }
  unfold startStream.
  pose proof (start_enter_handler req σ Hok) as H1.
  destruct (start_enter req σ) as [σ1 k1]. cbn [fst snd] in H1.
  assert (H2 : handler_ok σ
                 (match k1 with
                  | KStop _ _ _ _ => start_resume okStop k1 σ1
                  | _ => (σ1, k1)
                  end).1
                 (match k1 with
                  | KStop _ _ _ _ => start_resume okStop k1 σ1
                  | _ => (σ1, k1)
                  end).2).
  { destruct k1; try exact H1. by apply start_resume_handler. }
  destruct (match k1 with
            | KStop _ _ _ _ => start_resume okStop k1 σ1
            | _ => (σ1, k1)
            end) as [σ2 k2]. cbn [fst snd] in H2.
  assert (H3 : handler_ok σ
                 (match k2 with
                  | KConnect _ _ _ => start_resume okConnect k2 σ2
                  | _ => (σ2, k2)
                  end).1
                 (match k2 with
                  | KConnect _ _ _ => start_resume okConnect k2 σ2
                  | _ => (σ2, k2)
                  end).2).
  { destruct k2; try exact H2. by apply start_resume_handler. }
  destruct (match k2 with
            | KConnect _ _ _ => start_resume okConnect k2 σ2
            | _ => (σ2, k2)
            end) as [σ3 k3]. cbn [fst snd] in H3.
  destruct k3; try (by eapply Hend).
  eapply Hend. by apply start_resume_handler.
Qed.

Lemma wf_set_sessionStore (st : gmap string UserSession) (σ : Server) :
  registered_if_running σ → registered_if_running (set_sessionStore st σ).
Proof. intros H. exact H. Qed.

Lemma live_set_sessionStore (st : gmap string UserSession) (σ : Server) :
  registered_live σ → registered_live (set_sessionStore st σ).
Proof. intros H. exact H. Qed.

Lemma live_set_token (tok : string) (addr : nat) (σ : Server) :
  registered_live σ →
  registered_live (set_heap (alter (set_socket (updateToken tok)) addr) σ).
Proof.
  intros Hlive sid a Hl. simpl in *.
  destruct (Hlive _ _ Hl) as (o & Ho & Hsid & Hconn & Htimer).
  rewrite lookup_alter. case_decide as E.
  - subst a. rewrite Ho. simpl. eexists. split; [reflexivity|]. auto.
  - eauto.
Qed.

Lemma stopStream_ok (ok : bool) (sid : string) (σ : Server) :
  server_ok σ → server_ok (stopStream ok sid σ).
Proof.
  intros Hok. pose proof Hok as (Hwf & Hlive & Hst & Hsock). unfold stopStream.
  destruct (streams σ !! sid) as [old|] eqn:Hold; [|exact Hok].
  destruct (heap σ !! old) as [o|] eqn:Ho; [|exact Hok].
  destruct (isConnected (socket o) && negb ok); [exact Hok|].
  split_and!.
  - apply wf_unregister; [apply wf_set_socket; exact Hwf | exact Hold].
  - apply (live_unregister σ _ sid old); auto.
    intros a Hne. simpl. by rewrite !lookup_alter_ne.
  - exact Hst.
  - apply sockets_alter; [apply sockets_alter|]; auto.
Qed.

Lemma refreshEntry_ok (reply : ValidateReply) (now : Z) (sid : string)
    (addr : nat) (σ : Server) :
  server_ok σ → server_ok (refreshEntry reply now sid addr σ).
Proof.
  intros (Hwf & Hlive & Hst & Hsock). unfold refreshEntry.
  destruct (validateAndRefresh_tokens_truthy reply now sid (sessionStore σ) Hst)
    as [Hst' Htok].
  destruct (validateAndRefresh reply now sid (sessionStore σ)) as [store [tok|]];
    simpl in *; [|by split_and!].
  destruct (JS.truthy tok) eqn:E; [|by split_and!]. split_and!.
  - apply (wf_set_socket (updateToken tok) addr (set_sessionStore store σ)).
    exact Hwf.
  - apply (live_set_token tok addr (set_sessionStore store σ)). exact Hlive.
  - exact Hst'.
  - apply (sockets_alter (set_sessionStore store σ)); [exact Hsock|].
    intros o _. exact E.
Qed.

Lemma refreshCycle_ok (replies : string → ValidateReply) (now : Z) (σ : Server) :
  server_ok σ → server_ok (refreshCycle replies now σ).
Proof.
  unfold refreshCycle. generalize (map_to_list (streams σ)). intros l. revert σ.
  induction l as [|[sid addr] l IH]; intros σ Hok; [exact Hok|].
  simpl. apply IH. by apply refreshEntry_ok.
Qed.

Lemma serve_ok (σ : Server) (r : Request) : server_ok σ → server_ok (serve σ r).
Proof.
  intros Hok. pose proof Hok as (Hwf & Hlive & Hst & Hsock).
  destruct r as [reply uuid now user apiKey|ok cookie|o1 o2 o3 req|ok cookie|replies now];
    simpl.
  - unfold loginHandler.
    destruct (negb (JS.truthy user) || negb (JS.truthy apiKey)); [exact Hok|].
    pose proof (login_tokens_truthy reply uuid now user (sessionStore σ) Hst) as Hst'.
    destruct (login reply uuid now user (sessionStore σ)) as [store [s|]];
      simpl in *; by split_and!.
  - unfold logoutHandler. destruct cookie as [sid|]; [|exact Hok].
    destruct (JS.truthy sid); [|exact Hok].
    destruct (stopThrows ok sid σ); [exact Hok|]. simpl.
    destruct (stopStream_ok ok sid σ Hok) as (? & ? & ? & ?).
    split_and!; auto. by apply logout_tokens_truthy.
  - by apply startStream_ok.
  - unfold streamStopHandler. destruct cookie as [sid|]; [|exact Hok].
    destruct (JS.truthy sid); [|exact Hok].
    destruct (stopThrows ok sid σ); [exact Hok|]. by apply stopStream_ok.
  - by apply refreshCycle_ok.
Qed.

Lemma initServer_ok : server_ok initServer.
Proof.
  split_and!.
  - split_and!; simpl.
    + intros addr o Hl. rewrite lookup_empty in Hl. discriminate.
    + intros addr [o Hl]. rewrite lookup_empty in Hl. discriminate.
    + intros sid addr Hl. rewrite lookup_empty in Hl. discriminate.
  - intros sid addr Hl. simpl in Hl. rewrite lookup_empty in Hl. discriminate.
  - intros sid session Hl. simpl in Hl. rewrite lookup_empty in Hl. discriminate.
  - intros addr o Hl. simpl in Hl. rewrite lookup_empty in Hl. discriminate.
Qed.

Lemma serveAll_ok (rs : list Request) : server_ok (serveAll initServer rs).
Proof.
  induction rs as [|r rs IH] using rev_ind; [apply initServer_ok|].
  unfold serveAll. rewrite foldl_app. simpl. by apply serve_ok.
Qed.

Lemma serveAll_own (rs : list Request) : registered_own (serveAll initServer rs).
Proof.
  destruct (serveAll_ok rs) as (_ & Hlive & _). intros sid addr Hl.
  destruct (Hlive _ _ Hl) as (o & Ho & Hs & _). eauto.
Qed.

Lemma runningFor_NoDup (sid : string) (σ : Server) : NoDup (runningFor sid σ).
Proof.
  unfold runningFor.
  eapply sublist_NoDup; [apply (NoDup_fst_map_to_list (heap σ))|].
  apply fmap_sublist, sublist_filter.
Qed.

Lemma running_iff_registered (sid : string) (σ : Server) (addr : nat) :
  registered_if_running σ → registered_live σ →
  addr ∈ runningFor sid σ ↔ streams σ !! sid = Some addr.
Proof.
  intros (Hrun & _ & _) Hlive. rewrite elem_of_runningFor. split.
  - intros (o & Ho & <- & Ht). eauto.
  - intros Hl. destruct (Hlive _ _ Hl) as (o & Ho & Hsid & _ & Ht). eauto.
Qed.

(** X15.  When requests (login, logout, stream start, stream stop, token
    refresh) are served one at a time, whatever their number, order and
    upstream outcomes: a session never has more than one aggregator with an
    armed timer; the aggregators that run for a session are exactly its
    registered stream; and a registered stream is connected, armed and
    broadcasts to the session it is registered for. *)
Theorem X15_one_stream_per_session (rs : list Request) (sid : string) :
  (length (runningFor sid (serveAll initServer rs)) ≤ 1)%nat
  ∧ (∀ addr, addr ∈ runningFor sid (serveAll initServer rs)
             ↔ streams (serveAll initServer rs) !! sid = Some addr)
  ∧ (∀ addr, streams (serveAll initServer rs) !! sid = Some addr →
       ∃ o, heap (serveAll initServer rs) !! addr = Some o
            ∧ sessionId o = sid
            ∧ isConnected (socket o) = true
            ∧ is_Some (intervalId (aggregator o))).
Proof.
  destruct (serveAll_ok rs) as (Hwf & Hlive & _ & _).
  set (σ := serveAll initServer rs) in *. split_and!.
  - pose proof (runningFor_NoDup sid σ) as Hnd.
    destruct (runningFor sid σ) as [|a1 [|a2 l]] eqn:E; simpl; [lia | lia |].
    exfalso. assert (a1 = a2).
    { apply (running_unique sid σ); [exact Hwf | rewrite E .. ].
      - by left.
      - right. by left. }
    subst a2. inversion Hnd as [|? ? Hnotin _]. apply Hnotin. by left.
  - intros addr. by apply running_iff_registered.
  - intros addr. apply Hlive.
Qed.

(** X16.  When requests are served one at a time, no stored session and no
    stream socket ever holds an empty access token. *)
Theorem X16_tokens_are_never_empty (rs : list Request) :
  tokens_truthy (sessionStore (serveAll initServer rs))
  ∧ sockets_truthy (serveAll initServer rs).
Proof. destruct (serveAll_ok rs) as (_ & _ & ? & ?). by split. Qed.

Lemma X15_witness :
  0%nat ∈ runningFor "S" (serveAll initServer [loginS; startS])
  ∧ (length (runningFor "S" (serveAll initServer [loginS; startS; startS])) ≤ 1)%nat.
Proof.
  split.
  - apply (X15_one_stream_per_session [loginS; startS] "S").
    vm_compute. reflexivity.
  - apply (X15_one_stream_per_session [loginS; startS; startS] "S").
Defined.

(** ** The answers of [/stream/start] *)

Ltac start_paths_from sid req σ :=
  destruct (JS.truthy sid) eqn:?Htruthy; simpl;
  [ destruct (sessionStore σ !! sid) as [?session|] eqn:?Hsession; simpl;
    [ destruct (negb (JS.truthy (r_contractId req)) || Qeq_bool (r_tickSize req) 0)
        eqn:?Hbody; simpl;
      [ | destruct (streams σ !! sid) as [?old|] eqn:?Hold; simpl;
          [ destruct (heap σ !! old) as [?o|] eqn:?Ho; simpl;
            [ destruct (isConnected (socket o)) eqn:?Hconn; simpl | ] | ] ]
    | ]
  | ].

Ltac start_paths req σ :=
  unfold startStream, start_enter;
  let s := fresh "sid" in
  destruct (r_sessionId req) as [s|]; simpl; [start_paths_from s req σ | ].

(** X17.  A [/stream/start] handler that runs uninterrupted always ends
    with one of the answers 200, 400, 401, 500, or with a rejection (when the
    old connection cannot be stopped).  When it answers 401 or 400, or
    rejects, the server state is exactly what it was.  When it answers 500,
    the session has no registered stream afterwards, also when it had one
    before the request (the old stream is torn down before the new connection
    is attempted), and the aggregator it created has no armed timer. *)
Theorem X17_start_failures (okStop okConnect okSubscribe : bool)
    (req : StartReq) (σ : Server) :
  ((startStream okStop okConnect okSubscribe req σ).2
   ∈ [KThrew; KDone 200; KDone 400; KDone 401; KDone 500])
  ∧ ((startStream okStop okConnect okSubscribe req σ).2
     ∈ [KThrew; KDone 400; KDone 401] →
     (startStream okStop okConnect okSubscribe req σ).1 = σ)
  ∧ (∀ sid, r_sessionId req = Some sid →
       (startStream okStop okConnect okSubscribe req σ).2 = KDone 500 →
       streams (startStream okStop okConnect okSubscribe req σ).1 !! sid = None
       ∧ ∃ o, heap (startStream okStop okConnect okSubscribe req σ).1
                !! nextAddr σ = Some o
              ∧ intervalId (aggregator o) = None).
Proof.
  assert (Hnot : ∀ k : StartK, k ∈ [KThrew; KDone 400; KDone 401] →
                 k ≠ KDone 200 ∧ k ≠ KDone 500).
  { intros k Hk. rewrite !elem_of_cons in Hk.
    destruct Hk as [->|[->|[->|Hk]]]; [split; discriminate ..|inversion Hk]. }
  start_paths req σ;
    try destruct okStop; simpl;
    try destruct okConnect; simpl;
    try destruct okSubscribe; simpl;
    (split_and!;
     [ rewrite !elem_of_cons; auto 10
     | first [ reflexivity | intros Hk; apply Hnot in Hk as [? ?]; congruence ]
     | intros sid' Hsid Hst; try discriminate Hst; try discriminate Hsid;
       injection Hsid as <-;
       (split;
        [ first [ apply lookup_delete_eq | assumption ]
        | eexists; split;
          [ rewrite ?lookup_alter_eq, lookup_insert_eq; reflexivity | reflexivity ] ]) ]).
Qed.



(** ** [/stream/stop] and [/auth/logout] *)








(** ** Sessions *)

(** X21.  [validateAndRefresh] returns a token exactly when the session
    exists and the upstream reports success, and the token it returns is the
    access token the session has in the store afterwards.  A new non-empty
    token replaces the stored one and moves the expiry to 23 hours from now; a
    success without a new token leaves the store, expiry included, as it was;
    a failure leaves the store as it was.  No other session is touched. *)
Theorem X21_validateAndRefresh (reply : ValidateReply) (now : Z) (sid : string)
    (store : gmap string UserSession) :
  (is_Some (validateAndRefresh reply now sid store).2
   ↔ is_Some (store !! sid) ∧ ∃ nt, reply = Reply true nt)
  ∧ (∀ tok, (validateAndRefresh reply now sid store).2 = Some tok →
       ∃ session session',
         store !! sid = Some session
         ∧ (validateAndRefresh reply now sid store).1 !! sid = Some session'
         ∧ accessToken session' = tok
         ∧ userName session' = userName session)
  ∧ (∀ session tok, store !! sid = Some session →
       reply = Reply true (Some tok) → JS.truthy tok = true →
       (validateAndRefresh reply now sid store).1 !! sid
       = Some {| userName := userName session; accessToken := tok;
                 tokenExpiresAt := now + 23 * 60 * 60 * 1000 |})
  ∧ (∀ session, store !! sid = Some session →
       reply = Reply true None ∨ reply = Reply true (Some "") →
       validateAndRefresh reply now sid store = (store, Some (accessToken session)))
  ∧ ((validateAndRefresh reply now sid store).2 = None →
     (validateAndRefresh reply now sid store).1 = store)
  ∧ (∀ sid', sid' ≠ sid →
       (validateAndRefresh reply now sid store).1 !! sid' = store !! sid').
Proof.
  unfold validateAndRefresh. split_and!.
  - destruct (store !! sid) as [session|];
      [|simpl; split; [by intros [? [=]] | by intros [[? [=]] _]]].
    destruct reply as [|[|] [tok|]]; simpl;
      try (split; [by intros [? [=]] | by intros [_ [? [=]]]]).
    + destruct (JS.truthy tok); simpl; split; eauto.
    + split; eauto.
  - intros tok'. destruct (store !! sid) as [session|] eqn:Hs; [|discriminate].
    destruct reply as [|[|] [tok|]]; simpl; try discriminate.
    + destruct (JS.truthy tok); simpl; intros [= <-]; eexists _, _;
        rewrite ?lookup_insert_eq; by split_and!.
    + intros [= <-]. eexists _, _. by split_and!.
  - intros session tok -> -> ->. simpl. by rewrite lookup_insert_eq.
  - intros session -> [-> | ->]; reflexivity.
  - destruct (store !! sid) as [session|]; [|reflexivity].
    destruct reply as [|[|] [tok|]]; simpl; try reflexivity; try discriminate.
    destruct (JS.truthy tok); discriminate.
  - intros sid' Hne. destruct (store !! sid) as [session|]; [|reflexivity].
    destruct reply as [|[|] [tok|]]; simpl; try reflexivity.
    destruct (JS.truthy tok); simpl; [by rewrite lookup_insert_ne | reflexivity].
Qed.

(** X22.  A login that succeeds stores, under the new session identifier,
    the user name, the token the upstream returned and an expiry 23 hours
    ahead, and [getSession] finds it; a login that fails (request failed, no
    success, or an empty token) leaves the store as it was.  No other session
    is touched.  [logout] removes the session, and undoes a login under an
    identifier that was free. *)
Theorem X22_login_logout (reply : LoginReply) (uuid : string) (now : Z)
    (user : string) (store : gmap string UserSession) :
  (∀ sid, (login reply uuid now user store).2 = Some sid →
     sid = uuid
     ∧ ∃ tok, reply = LoginData true tok ∧ JS.truthy tok = true
              ∧ getSession uuid (login reply uuid now user store).1
                = Some {| userName := user; accessToken := tok;
                          tokenExpiresAt := now + 23 * 60 * 60 * 1000 |})
  ∧ ((login reply uuid now user store).2 = None →
     (login reply uuid now user store).1 = store)
  ∧ (∀ sid', sid' ≠ uuid →
       getSession sid' (login reply uuid now user store).1 = getSession sid' store)
  ∧ getSession uuid (logout uuid (login reply uuid now user store).1) = None
  ∧ (store !! uuid = None → logout uuid (login reply uuid now user store).1 = store).
Proof.
  unfold login, logout, getSession.
  destruct reply as [|[|] tok]; simpl;
    try (split_and!; [discriminate | reflexivity | reflexivity
                     | apply lookup_delete_eq | apply delete_id]).
  destruct (JS.truthy tok) eqn:Htok; simpl.
  - split_and!.
    + intros sid [= <-]. split; [reflexivity|]. exists tok.
      rewrite lookup_insert_eq. by split_and!.
    + discriminate.
    + intros sid' Hne. by rewrite lookup_insert_ne.
    + apply lookup_delete_eq.
    + intros Hfree. by rewrite delete_insert_eq, delete_id.
  - split_and!; [discriminate | reflexivity | reflexivity
                | apply lookup_delete_eq | apply delete_id].
Qed.

(** ** Interleaved handlers, upstream events and timers *)

Lemma keeps_refl (σ : Server) : keeps_objects σ σ.
Proof. intros addr o Ho. eauto. Qed.

Lemma keeps_trans (σ1 σ2 σ3 : Server) :
  keeps_objects σ1 σ2 → keeps_objects σ2 σ3 → keeps_objects σ1 σ3.
Proof.
  intros H12 H23 addr o Ho.
  destruct (H12 _ _ Ho) as (o2 & Ho2 & Hs2 & Hc2).
  destruct (H23 _ _ Ho2) as (o3 & Ho3 & Hs3 & Hc3).
  exists o3. split_and!; congruence.
Qed.

Lemma keeps_alter (f : StreamObj → StreamObj) (n : nat) (σ : Server) :
  (∀ o, sessionId (f o) = sessionId o ∧ s_contractId (f o) = s_contractId o) →
  heap_fresh σ →
  heap_fresh (set_heap (alter f n) σ) ∧ keeps_objects σ (set_heap (alter f n) σ).
Proof.
  intros Hf Hfresh. split.
  - intros addr Hs. simpl in Hs. apply lookup_alter_is_Some in Hs. by apply Hfresh.
  - intros addr o Ho. simpl. rewrite lookup_alter. case_decide as E.
    + subst. rewrite Ho. simpl. eexists. split; [reflexivity|]. apply Hf.
    + eauto.
Qed.

Lemma keeps_set_streams (f : gmap string nat → gmap string nat) (σ : Server) :
  heap_fresh σ →
  heap_fresh (set_streams f σ) ∧ keeps_objects σ (set_streams f σ).
Proof. intros H. split; [exact H | intros addr o Ho; simpl; eauto]. Qed.

Lemma keeps_alloc (o : StreamObj) (σ : Server) :
  heap_fresh σ → heap_fresh (alloc o σ) ∧ keeps_objects σ (alloc o σ).
Proof.
  intros Hfresh. split.
  - intros addr Hs. simpl in *. apply lookup_insert_is_Some in Hs as [<-|[_ Hs]].
    + lia.
    + apply Hfresh in Hs. lia.
  - intros addr o' Ho. simpl. exists o'. split; [|auto].
    rewrite lookup_insert_ne; [exact Ho|].
    intros <-. assert (nextAddr σ < nextAddr σ)%nat by (apply Hfresh; eauto). lia.
Qed.

Lemma keeps_start_teardown (sid : string) (session : UserSession) (req : StartReq)
    (old : nat) (σ : Server) :
  heap_fresh σ →
  heap_fresh (start_teardown sid session req old σ).1
  ∧ keeps_objects σ (start_teardown sid session req old σ).1.
Proof.
  intros Hfresh. unfold start_teardown, start_create. cbn [fst].
  destruct (keeps_alter (set_aggregator stop) old σ) as [F1 K1]; [by split | exact Hfresh |].
  destruct (keeps_set_streams (delete sid)
              (set_heap (alter (set_aggregator stop) old) σ) F1) as [F2 K2].
  destruct (keeps_alloc
              {| socket := new_ProjectXSocket (accessToken session);
                 aggregator := new_MarketAggregator (r_contractId req) (r_tickSize req);
                 s_contractId := r_contractId req; sessionId := sid |}
              _ F2) as [F3 K3].
  split; [exact F3|]. eapply keeps_trans; [exact K1|].
  eapply keeps_trans; [exact K2 | exact K3].
Qed.

Lemma keeps_start_enter (req : StartReq) (σ : Server) :
  heap_fresh σ →
  heap_fresh (start_enter req σ).1 ∧ keeps_objects σ (start_enter req σ).1.
Proof.
  intros Hfresh. unfold start_enter.
  destruct (r_sessionId req) as [sid|]; [|split; [exact Hfresh | apply keeps_refl]].
  destruct (negb (JS.truthy sid)); [split; [exact Hfresh | apply keeps_refl]|].
  destruct (sessionStore σ !! sid) as [session|];
    [|split; [exact Hfresh | apply keeps_refl]].
  destruct (negb (JS.truthy (r_contractId req)) || Qeq_bool (r_tickSize req) 0);
    [split; [exact Hfresh | apply keeps_refl]|].
  destruct (streams σ !! sid) as [old|].
  - destruct (heap σ !! old) as [o|].
    + destruct (isConnected (socket o)); [split; [exact Hfresh | apply keeps_refl]|].
      by apply keeps_start_teardown.
    + by apply keeps_start_teardown.
  - unfold start_create. cbn [fst]. by apply keeps_alloc.
Qed.

Lemma keeps_start_resume (ok : bool) (k : StartK) (σ : Server) :
  heap_fresh σ →
  heap_fresh (start_resume ok k σ).1 ∧ keeps_objects σ (start_resume ok k σ).1.
Proof.
  intros Hfresh.
  destruct k as [sid session req old|sid req n|sid req n|st|]; simpl;
    try (split; [exact Hfresh | apply keeps_refl]);
    (destruct ok; [|split; [exact Hfresh | apply keeps_refl]]).
  - destruct (keeps_alter (set_socket (set_isConnected false)) old σ) as [F1 K1];
      [by split | exact Hfresh |].
    destruct (keeps_start_teardown sid session req old _ F1) as [F2 K2].
    split; [exact F2 | by eapply keeps_trans].
  - simpl. apply keeps_alter; [by split | exact Hfresh].
  - simpl.
    destruct (keeps_alter (set_aggregator (start n)) n σ) as [F1 K1];
      [by split | exact Hfresh |].
    split; [exact F1 | exact K1].
Qed.

Lemma broadcasts_ok_keeps (cfg : Config) (w w' : World) :
  broadcasts_ok cfg w → keeps_objects (server w) (server w') →
  broadcasts w' = broadcasts w → broadcasts_ok cfg w'.
Proof.
  intros Hb Hk Heq sid addr col Hin. rewrite Heq in Hin.
  destruct (Hb _ _ _ Hin) as (Hm & Hlb & Hla & o & Ho & Hs).
  destruct (Hk _ _ Ho) as (o' & Ho' & Hs' & _).
  split_and!; auto. exists o'. split; [exact Ho' | congruence].
Qed.

Lemma stepWorld_ok (cfg : Config) (getTime : string → Z) (w : World) (act : Action) :
  heap_fresh (server w) → broadcasts_ok cfg w →
  heap_fresh (server (stepWorld cfg getTime w act))
  ∧ broadcasts_ok cfg (stepWorld cfg getTime w act).
Proof.
  intros Hfresh Hb. destruct act as [rid req|rid ok|addr msg|addr msg|addr now]; simpl.
  - destruct (keeps_start_enter req (server w) Hfresh) as [F K].
    destruct (start_enter req (server w)) as [σ k]. simpl in *.
    split; [exact F|]. by apply (broadcasts_ok_keeps cfg w).
  - destruct (pending w !! rid) as [k|]; [|by split].
    destruct (keeps_start_resume ok k (server w) Hfresh) as [F K].
    destruct (start_resume ok k (server w)) as [σ k']. simpl in *.
    split; [exact F|]. by apply (broadcasts_ok_keeps cfg w).
  - destruct (heap (server w) !! addr) as [o|]; [|by split].
    destruct (isConnected (socket o) && String.eqb (d_contractId msg) (s_contractId o));
      [|by split].
    destruct (keeps_alter (set_aggregator (handleDepth msg)) addr (server w))
      as [F K]; [by split | exact Hfresh |].
    split; [exact F|]. by apply (broadcasts_ok_keeps cfg w).
  - destruct (heap (server w) !! addr) as [o|]; [|by split].
    destruct (isConnected (socket o) && String.eqb (t_contractId msg) (s_contractId o));
      [|by split].
    destruct (keeps_alter (set_aggregator (handleTrade getTime msg)) addr (server w))
      as [F K]; [by split | exact Hfresh |].
    split; [exact F|]. by apply (broadcasts_ok_keeps cfg w).
  - destruct (heap (server w) !! addr) as [o|] eqn:Ho; [|by split].
    destruct (intervalId (aggregator o)); [|by split].
    destruct (bucket cfg now (aggregator o)) as [a' out] eqn:E. simpl.
    assert (F : heap_fresh (set_heap <[addr:=set_aggregator (λ _, a') o]> (server w))).
    { intros a Hs. simpl in Hs. apply lookup_insert_is_Some in Hs as [<-|[_ Hs]];
        apply Hfresh; eauto. }
    split; [exact F|].
    intros sid a col Hin. apply elem_of_app in Hin as [Hin|Hin].
    + destruct (Hb _ _ _ Hin) as (Hm & Hlb & Hla & o' & Ho' & Hs).
      split_and!; auto. simpl. rewrite lookup_insert. case_decide as Ea.
      * subst a. rewrite Ho in Ho'. injection Ho' as <-. eauto.
      * eauto.
    + destruct out as [|c|]; [inversion Hin | | inversion Hin].
      apply list_elem_of_singleton in Hin. injection Hin as -> -> ->.
      destruct (bucket_Emitted_inv _ _ _ _ _ E) as [Hg0 Hv].
      rewrite (bucket_emit cfg now _ Hg0 Hv) in E. injection E as _ <-.
      cbn [midTick col_bids col_asks]. split_and!.
      * exact Hg0.
      * apply fillWindow_spec.
      * apply fillWindow_spec.
      * simpl. rewrite lookup_insert_eq. eauto.
Qed.

Lemma runWorld_ok (cfg : Config) (getTime : string → Z)
    (store : gmap string UserSession) (acts : list Action) :
  heap_fresh (server (runWorld cfg getTime (initWorld store) acts))
  ∧ broadcasts_ok cfg (runWorld cfg getTime (initWorld store) acts).
Proof.
  induction acts as [|act acts [IHf IHb]] using rev_ind.
  - split.
    + intros addr [o Ho]. simpl in Ho. rewrite lookup_empty in Ho. discriminate.
    + intros sid addr col Hin. inversion Hin.
  - unfold runWorld. rewrite foldl_app. simpl. by apply stepWorld_ok.
Qed.

(** ** The registry under interleaving

    [registered_own] holds in every state that [/stream/start] handlers,
    upstream events and timers reach, in whatever order their segments run. *)

Lemma own_keeps (σ σ' : Server) :
  keeps_objects σ σ' →
  (∀ sid a, streams σ' !! sid = Some a → streams σ !! sid = Some a) →
  registered_own σ → registered_own σ'.
Proof.
  intros K Hsub Hown sid a Hl.
  destruct (Hown _ _ (Hsub _ _ Hl)) as (o & Ho & Hs).
  destruct (K _ _ Ho) as (o' & Ho' & Hs' & _). exists o'. split; congruence.
Qed.

Lemma K_own_keeps (σ σ' : Server) (k : StartK) :
  keeps_objects σ σ' → K_own σ k → K_own σ' k.
Proof.
  intros K. destruct k as [| sid req n | sid req n | |]; simpl; auto;
    intros (o & Ho & Hs); destruct (K _ _ Ho) as (o' & Ho' & Hs' & _);
    exists o'; split; congruence.
Qed.

Lemma start_create_own (sid : string) (session : UserSession) (req : StartReq)
    (σ : Server) :
  heap_fresh σ → registered_own σ →
  registered_own (start_create sid session req σ).1
  ∧ K_own (start_create sid session req σ).1 (start_create sid session req σ).2.
Proof.
  intros F Hown. unfold start_create. cbn [fst snd]. split.
  - apply (own_keeps σ); [by apply keeps_alloc | auto | exact Hown].
  - simpl. rewrite lookup_insert_eq. eauto.
Qed.

Lemma start_teardown_own (sid : string) (session : UserSession) (req : StartReq)
    (old : nat) (σ : Server) :
  heap_fresh σ → registered_own σ →
  registered_own (start_teardown sid session req old σ).1
  ∧ K_own (start_teardown sid session req old σ).1
          (start_teardown sid session req old σ).2.
Proof.
  intros F Hown. unfold start_teardown.
  destruct (keeps_alter (set_aggregator stop) old σ) as [F1 K1]; [by split | exact F |].
  destruct (keeps_set_streams (delete sid)
              (set_heap (alter (set_aggregator stop) old) σ) F1) as [F2 K2].
  apply start_create_own; [exact F2|].
  apply (own_keeps σ); [by eapply keeps_trans | | exact Hown].
  intros sid' a Hl. simpl in Hl. by apply lookup_delete_Some in Hl as [_ Hl].
Qed.

Lemma start_enter_own (req : StartReq) (σ : Server) :
  heap_fresh σ → registered_own σ →
  registered_own (start_enter req σ).1
  ∧ K_own (start_enter req σ).1 (start_enter req σ).2.
Proof.
  intros F Hown. unfold start_enter.
  destruct (r_sessionId req) as [sid|]; [|by split].
  destruct (negb (JS.truthy sid)); [by split|].
  destruct (sessionStore σ !! sid) as [session|]; [|by split].
  destruct (negb (JS.truthy (r_contractId req)) || Qeq_bool (r_tickSize req) 0);
    [by split|].
  destruct (streams σ !! sid) as [old|].
  - destruct (heap σ !! old) as [o|].
    + destruct (isConnected (socket o)); [by split|]. by apply start_teardown_own.
    + by apply start_teardown_own.
  - by apply start_create_own.
Qed.

Lemma start_resume_own (ok : bool) (k : StartK) (σ : Server) :
  heap_fresh σ → registered_own σ → K_own σ k →
  registered_own (start_resume ok k σ).1
  ∧ K_own (start_resume ok k σ).1 (start_resume ok k σ).2.
Proof.
  intros F Hown Hk.
  destruct k as [sid session req old|sid req n|sid req n|st|]; simpl in *;
    try (by split); (destruct ok; [|by split]).
  - destruct (keeps_alter (set_socket (set_isConnected false)) old σ) as [F1 K1];
      [by split | exact F |].
    apply start_teardown_own; [exact F1|].
    apply (own_keeps σ); [exact K1 | auto | exact Hown].
  - destruct (keeps_alter (set_socket (set_isConnected true)) n σ) as [F1 K1];
      [by split | exact F |].
    cbn [fst snd]. split.
    + apply (own_keeps σ); [exact K1 | auto | exact Hown].
    + apply (K_own_keeps σ _ (KSubscribe sid req n) K1 Hk).
  - destruct (keeps_alter (set_aggregator (start n)) n σ) as [F1 K1];
      [by split | exact F |].
    cbn [fst snd]. split; [|exact I].
    intros sid' a Hl. simpl in Hl.
    apply lookup_insert_Some in Hl as [[<- <-]|[_ Hl]].
    + destruct Hk as (o & Ho & Hs). destruct (K1 _ _ Ho) as (o' & Ho' & Hs' & _).
      exists o'. split; [exact Ho' | congruence].
    + destruct (Hown _ _ Hl) as (o & Ho & Hs).
      destruct (K1 _ _ Ho) as (o' & Ho' & Hs' & _).
      exists o'. split; [exact Ho' | congruence].
Qed.

Lemma world_own_keeps (w : World) (σ' : Server)
    (bs : list (string * nat * HeatmapColumn)) :
  world_own w → heap_fresh σ' → keeps_objects (server w) σ' →
  streams σ' = streams (server w) →
  world_own {| server := σ'; pending := pending w; broadcasts := bs |}.
Proof.
  intros (F & Hown & Hpend) F' K Hs. split_and!; simpl.
  - exact F'.
  - apply (own_keeps (server w)); [exact K | | exact Hown]. intros sid a. by rewrite Hs.
  - intros rid k Hl. eapply K_own_keeps; [exact K | eauto].
Qed.

Lemma stepWorld_own (cfg : Config) (getTime : string → Z) (w : World) (act : Action) :
  world_own w → world_own (stepWorld cfg getTime w act).
Proof.
  intros Hw. pose proof Hw as (F & Hown & Hpend).
  destruct act as [rid req|rid ok|addr msg|addr msg|addr now]; simpl.
  - destruct (keeps_start_enter req (server w) F) as [F' K].
    destruct (start_enter_own req (server w) F Hown) as [Hown' Hk].
    destruct (start_enter req (server w)) as [σ k]. simpl in *.
    split_and!; auto. simpl. intros rid' k' Hl.
    apply lookup_insert_Some in Hl as [[_ <-]|[_ Hl]]; [exact Hk|].
    eapply K_own_keeps; [exact K | eauto].
  - destruct (pending w !! rid) as [k|] eqn:Hk0; [|exact Hw].
    destruct (keeps_start_resume ok k (server w) F) as [F' K].
    destruct (start_resume_own ok k (server w) F Hown (Hpend _ _ Hk0)) as [Hown' Hk].
    destruct (start_resume ok k (server w)) as [σ k']. simpl in *.
    split_and!; auto. simpl. intros rid' k'' Hl.
    apply lookup_insert_Some in Hl as [[_ <-]|[_ Hl]]; [exact Hk|].
    eapply K_own_keeps; [exact K | eauto].
  - destruct (heap (server w) !! addr) as [o|]; [|exact Hw].
    destruct (isConnected (socket o) && String.eqb (d_contractId msg) (s_contractId o));
      [|exact Hw].
    destruct (keeps_alter (set_aggregator (handleDepth msg)) addr (server w))
      as [F' K]; [by split | exact F |].
    by apply world_own_keeps.
  - destruct (heap (server w) !! addr) as [o|]; [|exact Hw].
    destruct (isConnected (socket o) && String.eqb (t_contractId msg) (s_contractId o));
      [|exact Hw].
    destruct (keeps_alter (set_aggregator (handleTrade getTime msg)) addr (server w))
      as [F' K]; [by split | exact F |].
    by apply world_own_keeps.
  - destruct (heap (server w) !! addr) as [o|] eqn:Ho; [|exact Hw].
    destruct (intervalId (aggregator o)); [|exact Hw].
    destruct (bucket cfg now (aggregator o)) as [a' out].
    apply world_own_keeps; auto.
    + intros a Hs. simpl in Hs. apply lookup_insert_is_Some in Hs as [<-|[_ Hs]];
        apply F; eauto.
    + intros a o' Ho'. simpl. rewrite lookup_insert. case_decide as Ea.
      * subst a. rewrite Ho in Ho'. injection Ho' as <-. eauto.
      * eauto.
Qed.

Lemma runWorld_own (cfg : Config) (getTime : string → Z)
    (store : gmap string UserSession) (acts : list Action) :
  world_own (runWorld cfg getTime (initWorld store) acts).
Proof.
  induction acts as [|act acts IH] using rev_ind.
  - split_and!.
    + intros addr [o Ho]. simpl in Ho. rewrite lookup_empty in Ho. discriminate.
    + intros sid addr Hl. simpl in Hl. rewrite lookup_empty in Hl. discriminate.
    + intros rid k Hl. simpl in Hl. rewrite lookup_empty in Hl. discriminate.
  - unfold runWorld. rewrite foldl_app. simpl. by apply stepWorld_own.
Qed.

(** X23.  However [/stream/start] handlers, upstream events and timers
    interleave, overlapping requests included: every column that has been
    broadcast went to the session that owns the aggregator it came from, is
    anchored at a non-zero tick, and has bid and ask windows of the configured
    length. *)
Theorem X23_broadcasts_reach_the_owner (cfg : Config) (getTime : string → Z)
    (store : gmap string UserSession) (acts : list Action)
    (sid : string) (addr : nat) (col : HeatmapColumn) :
  (sid, addr, col) ∈ broadcasts (runWorld cfg getTime (initWorld store) acts) →
  midTick col ≠ 0
  ∧ length (col_bids col) = Z.to_nat (PRICE_WINDOW_TICKS cfg)
  ∧ length (col_asks col) = Z.to_nat (PRICE_WINDOW_TICKS cfg)
  ∧ ∃ o, heap (server (runWorld cfg getTime (initWorld store) acts)) !! addr = Some o
         ∧ sessionId o = sid.
Proof. intros Hin. by apply (runWorld_ok cfg getTime store acts). Qed.

Lemma X23_witness :
  ∃ col, broadcasts (runWorld CONFIG_default noClock (initWorld storeS)
                       (overlappingStarts ++ feedFirst)) = [("S", 0%nat, col)]
         ∧ midTick col ≠ 0 ∧ length (col_bids col) = 200%nat.
Proof.
  destruct (broadcasts (runWorld CONFIG_default noClock (initWorld storeS)
                          (overlappingStarts ++ feedFirst)))
    as [|[[sid addr] col] [|b l]] eqn:E;
    [vm_compute in E; discriminate E | | vm_compute in E; discriminate E].
  assert (Hsa : sid = "S" ∧ addr = 0%nat).
  { symmetry in E. vm_compute in E. injection E as -> -> _. by split. }
  destruct Hsa as [-> ->]. exists col. split; [reflexivity|].
  destruct (X23_broadcasts_reach_the_owner CONFIG_default noClock storeS
              (overlappingStarts ++ feedFirst) "S" 0%nat col) as (Hm & Hl & _).
  - rewrite E. by left.
  - split; [exact Hm | exact Hl].
Defined.

Lemma handleDepth_intervalId (msg : DepthMessage) (a : MarketAggregator) :
  intervalId (handleDepth msg a) = intervalId a.
Proof.
  destruct (handleDepth_cases msg a) as [[_ E]|[[_ E]|[[_ E]|(_ & _ & _ & E)]]];
    rewrite E; reflexivity.
Qed.

Lemma run_intervalId (cfg : Config) (getTime : string → Z) (a : MarketAggregator)
    (evs : list Event) :
  intervalId (run cfg getTime a evs).1 = intervalId a.
Proof.
  induction evs as [|e evs IH] using rev_ind; [reflexivity|].
  rewrite run_snoc. destruct (run cfg getTime a evs) as [a' log]. simpl in IH.
  destruct e as [msg|msg|now]; simpl.
  - by rewrite handleDepth_intervalId.
  - exact IH.
  - pose proof (bucket_state cfg now a') as [Hframe _].
    destruct (bucket cfg now a') as [a'' [|c|]]; simpl in *; congruence.
Qed.

(** X24.  The server runs each stream exactly like a stand-alone
    aggregator.  For a connected pair with an armed timer, any sequence of
    upstream messages of its contract and of ticks of its timer leaves its
    aggregator in the state that [handleDepth], [handleTrade] and [bucket]
    produce from the same events in the same order, and appends to the
    broadcasts exactly the columns that run emits, addressed to the pair's
    session.  Every other pair, the registry, the session store and the
    suspended handlers are left as they were. *)
Theorem X24_stream_runs_like_an_aggregator (cfg : Config) (getTime : string → Z)
    (w : World) (addr : nat) (o : StreamObj) (acts : list Action) :
  heap (server w) !! addr = Some o →
  isConnected (socket o) = true →
  is_Some (intervalId (aggregator o)) →
  Forall (feeds addr (s_contractId o)) acts →
  heap (server (runWorld cfg getTime w acts)) !! addr
  = Some (set_aggregator
            (λ _, (run cfg getTime (aggregator o) (omap eventOf acts)).1) o)
  ∧ broadcasts (runWorld cfg getTime w acts)
    = broadcasts w
      ++ ((λ col, (sessionId o, addr, col))
            <$> columnsOf (run cfg getTime (aggregator o) (omap eventOf acts)).2)
  ∧ (∀ a, a ≠ addr →
       heap (server (runWorld cfg getTime w acts)) !! a = heap (server w) !! a)
  ∧ streams (server (runWorld cfg getTime w acts)) = streams (server w)
  ∧ sessionStore (server (runWorld cfg getTime w acts)) = sessionStore (server w)
  ∧ pending (runWorld cfg getTime w acts) = pending w.
Proof.
  intros Ho Hconn Htimer Hfeeds.
  induction acts as [|act acts IH] using rev_ind.
  - simpl. rewrite app_nil_r. split_and!; auto. rewrite Ho. by destruct o.
  - apply Forall_app in Hfeeds as [Hacts Hact]. rewrite Forall_singleton in Hact.
    destruct (IH Hacts) as (Hh & Hb & Hoth & Hs & Hst & Hp). clear IH.
    unfold runWorld in *. rewrite foldl_app. simpl.
    set (w' := foldl (stepWorld cfg getTime) w acts) in *.
    rewrite omap_app. simpl.
    pose proof (run_intervalId cfg getTime (aggregator o) (omap eventOf acts)) as Hi.
    destruct act as [rid req|rid ok|a msg|a msg|a now]; unfold feeds in Hact;
      try contradiction.
    + destruct Hact as [-> Hc]. simpl. rewrite Hh. simpl.
      rewrite Hconn, Hc, String.eqb_refl. simpl.
      fold (run cfg getTime (aggregator o) (omap eventOf acts ++ [EvDepth msg])).
      rewrite run_snoc.
      destruct (run cfg getTime (aggregator o) (omap eventOf acts)) as [ag log].
      simpl in *. split_and!; auto.
      * rewrite lookup_alter_eq, Hh. reflexivity.
      * intros a Hne. rewrite lookup_alter_ne by congruence. by apply Hoth.
    + destruct Hact as [-> Hc]. simpl. rewrite Hh. simpl.
      rewrite Hconn, Hc, String.eqb_refl. simpl.
      fold (run cfg getTime (aggregator o) (omap eventOf acts ++ [EvTrade msg])).
      rewrite run_snoc.
      destruct (run cfg getTime (aggregator o) (omap eventOf acts)) as [ag log].
      simpl in *. split_and!; auto.
      * rewrite lookup_alter_eq, Hh. reflexivity.
      * rewrite columnsOf_snoc, app_nil_r. exact Hb.
      * intros a Hne. rewrite lookup_alter_ne by congruence. by apply Hoth.
    + subst a. simpl. rewrite Hh. simpl. rewrite Hi.
      destruct Htimer as [h Htimer]. rewrite Htimer.
      fold (run cfg getTime (aggregator o) (omap eventOf acts ++ [EvBucket now])).
      rewrite run_snoc.
      destruct (run cfg getTime (aggregator o) (omap eventOf acts)) as [ag log].
      simpl in *.
      destruct (bucket cfg now ag) as [ag' out]. simpl. split_and!; auto.
      * rewrite lookup_insert_eq. by destruct out.
      * rewrite Hb. destruct out as [|c|]; simpl;
          rewrite ?columnsOf_snoc, ?fmap_app, ?app_nil_r, ?app_assoc; reflexivity.
      * intros a Hne. rewrite lookup_insert_ne by congruence. by apply Hoth.
Qed.

Lemma X24_witness :
  broadcastAnchors (runWorld CONFIG_default noClock afterConsecutive
                      [ATrade 1 (tradeMsg 50 1 0); ADepth 1 (depthMsg 2 49 5);
                       ATimer 1 100; ATimer 1 200])
  = [("S", 1%nat, 50); ("S", 1%nat, 49)].
Proof.
  destruct (heap (server afterConsecutive) !! 1%nat) as [o|] eqn:Ho;
    [|vm_compute in Ho; discriminate Ho].
  assert (Hval : o = {| socket := {| token := "jwt-1"; isConnected := true |};
                        aggregator := start 1 (new_MarketAggregator "ES" 1);
                        s_contractId := "ES"; sessionId := "S" |}).
  { symmetry in Ho. vm_compute in Ho. injection Ho as ->. reflexivity. }
  destruct (X24_stream_runs_like_an_aggregator CONFIG_default noClock
              afterConsecutive 1 o
              [ATrade 1 (tradeMsg 50 1 0); ADepth 1 (depthMsg 2 49 5);
               ATimer 1 100; ATimer 1 200] Ho) as (_ & Hb & _).
  - by rewrite Hval.
  - rewrite Hval. simpl. eauto.
  - rewrite Hval. repeat constructor.
  - unfold broadcastAnchors. rewrite Hb, Hval. vm_compute. reflexivity.
Defined.

(** * Properties of the client *)

Lemma elem_of_sidePixels (arr : list Z) (n : nat) (mid top vis len i : Z)
    (p : PixelWrite) :
  p ∈ sidePixels arr n mid top vis len i ↔
  ∃ j : nat,
    arr !! j = Some (px_vol p) ∧ 0 < px_vol p
    ∧ px_tick p = slotTick mid (Z.of_nat n) j
    ∧ 0 ≤ JS.sub top (px_tick p) < vis
    ∧ px_idx p = (JS.sub top (px_tick p) * len + i) * 4.
Proof.
  unfold sidePixels, slotTick. rewrite list_elem_of_omap.
  set (s := JS.sub mid (JS.Math_floor (JS.div (inject_Z (Z.of_nat n)) 2))).
  split.
  - intros ([j vol] & Hin & Hf).
    apply elem_of_lookup_imap in Hin as (j' & v & [= <- <-] & Hl).
    simpl in Hf. destruct (Z.ltb_spec 0 vol) as [Hpos|]; [|discriminate].
    destruct (Z.leb_spec 0 (JS.sub top (JS.add s (Z.of_nat j)))); [|discriminate].
    destruct (Z.ltb_spec (JS.sub top (JS.add s (Z.of_nat j))) vis); [|discriminate].
    simpl in Hf. injection Hf as <-. simpl. exists j. split_and!; auto.
  - intros (j & Hl & Hpos & Htick & [Hr1 Hr2] & Hidx).
    exists (j, px_vol p). split.
    + apply elem_of_lookup_imap. eauto.
    + simpl. destruct (Z.ltb_spec 0 (px_vol p)); [|lia].
      rewrite <- Htick.
      destruct (Z.leb_spec 0 (JS.sub top (px_tick p))); [|lia].
      destruct (Z.ltb_spec (JS.sub top (px_tick p)) vis); [|lia].
      simpl. rewrite <- Hidx. by destruct p.
Qed.

(** X25.  Server and client agree on the window.  For a column emitted by
    [bucket()], the client computes for slot [j] the tick the server filled
    it from, at any magnitude: the bid pixels (resp. ask pixels) that the
    canvas loop writes are exactly the slots whose level in the bid (resp.
    ask) mapping has a positive volume and whose row is visible.  When the
    magnitudes of [topTick] and [midTick] plus the window size add up to a
    safe integer, these are exactly the levels with a positive volume whose
    tick lies in [midTick - floor(W/2), midTick - floor(W/2) + W) and in the
    visible rows, each written at row [topTick - tick].  Levels stored with a
    negative volume are not drawn. *)
Theorem X25_canvas_draws_the_book (cfg : Config) (now : Z) (a a' : MarketAggregator)
    (col : HeatmapColumn) (top vis len i : Z) (p : PixelWrite) :
  bucket cfg now a = (a', Emitted col) →
  let W := PRICE_WINDOW_TICKS cfg in
  let atSlot (m : gmap Z Z) :=
    ∃ j : nat, Z.of_nat j < W
      ∧ px_tick p = slotTick (midTick col) W j
      ∧ m !! px_tick p = Some (px_vol p) ∧ 0 < px_vol p
      ∧ 0 ≤ JS.sub top (px_tick p) < vis
      ∧ px_idx p = (JS.sub top (px_tick p) * len + i) * 4 in
  let inView (m : gmap Z Z) :=
    m !! px_tick p = Some (px_vol p) ∧ 0 < px_vol p
    ∧ midTick col - W / 2 ≤ px_tick p < midTick col - W / 2 + W
    ∧ 0 ≤ top - px_tick p < vis
    ∧ px_idx p = ((top - px_tick p) * len + i) * 4 in
  (p ∈ bidPixels col top vis len i ↔ atSlot (bids a))
  ∧ (p ∈ askPixels col top vis len i ↔ atSlot (asks a))
  ∧ (JS.isSafeInteger (Z.abs top + Z.abs (midTick col) + W) = true →
     (p ∈ bidPixels col top vis len i ↔ inView (bids a))
     ∧ (p ∈ askPixels col top vis len i ↔ inView (asks a))).
Proof.
  intros Hbucket W atSlot inView.
  destruct (bucket_Emitted_inv _ _ _ _ _ Hbucket) as [Hg0 Hv].
  rewrite (bucket_emit cfg now a Hg0 Hv) in Hbucket.
  injection Hbucket as _ <-. subst atSlot inView. unfold bidPixels, askPixels.
  cbn [col_bids col_asks midTick]. fold W.
  assert (HW : 0 ≤ W).
  { unfold JS.valid_array_length in Hv. fold W in Hv.
    apply andb_true_iff in Hv as [Hv _]. by apply Z.leb_le. }
  assert (Hside : ∀ m : gmap Z Z,
            p ∈ sidePixels (fillWindow W (JS.sub (guardMid a) (W / 2)) m)
                  (length (fillWindow W (JS.sub (guardMid a) (W / 2)) (bids a)))
                  (guardMid a) top vis len i
            ↔ ∃ j : nat, Z.of_nat j < W
                ∧ px_tick p = slotTick (guardMid a) W j
                ∧ m !! px_tick p = Some (px_vol p) ∧ 0 < px_vol p
                ∧ 0 ≤ JS.sub top (px_tick p) < vis
                ∧ px_idx p = (JS.sub top (px_tick p) * len + i) * 4).
  { intros m. rewrite elem_of_sidePixels.
    destruct (fillWindow_spec W (JS.sub (guardMid a) (W / 2)) (bids a)) as [Hlb _].
    destruct (fillWindow_spec W (JS.sub (guardMid a) (W / 2)) m) as [Hlen Hget].
    rewrite Hlb, Z2Nat.id by lia.
    assert (Hslot : ∀ j : nat,
              JS.add (JS.sub (guardMid a) (W / 2)) (Z.of_nat j)
              = slotTick (guardMid a) W j).
    { intros j. unfold slotTick. by rewrite Math_floor_half. }
    split.
    - intros (j & Hl & Hpos & Htick & Hrow & Hidx).
      assert (Hj : Z.of_nat j < W).
      { apply lookup_lt_Some in Hl. rewrite Hlen in Hl. lia. }
      rewrite (Hget j Hj), Hslot, <- Htick in Hl. injection Hl as Hl.
      exists j. split_and!; try lia; auto.
      destruct (m !! px_tick p) as [v|]; simpl in Hl; [congruence | lia].
    - intros (j & Hj & Htick & Hl & Hpos & Hrow & Hidx).
      exists j. split_and!; try lia; auto.
      by rewrite (Hget j Hj), Hslot, <- Htick, Hl. }
  split; [apply Hside|]. split; [apply Hside|].
  intros Hsafe.
  assert (Hmid : JS.isSafeInteger (Z.abs (guardMid a) + W) = true)
    by (apply (isSafeInteger_le _ (Z.abs top + Z.abs (guardMid a) + W));
        [lia | exact Hsafe]).
  assert (Hhalf : 0 ≤ W / 2 ≤ W)
    by (split; [apply Z.div_pos; lia | apply Z.div_le_upper_bound; lia]).
  assert (Hrow : ∀ t, guardMid a - W / 2 ≤ t < guardMid a - W / 2 + W →
            JS.sub top t = top - t).
  { intros t Ht. apply sub_safe.
    apply (isSafeInteger_le _ (Z.abs top + Z.abs (guardMid a) + W));
      [lia | exact Hsafe]. }
  assert (Hview : ∀ m : gmap Z Z,
            (∃ j : nat, Z.of_nat j < W
               ∧ px_tick p = slotTick (guardMid a) W j
               ∧ m !! px_tick p = Some (px_vol p) ∧ 0 < px_vol p
               ∧ 0 ≤ JS.sub top (px_tick p) < vis
               ∧ px_idx p = (JS.sub top (px_tick p) * len + i) * 4)
            ↔ m !! px_tick p = Some (px_vol p) ∧ 0 < px_vol p
              ∧ guardMid a - W / 2 ≤ px_tick p < guardMid a - W / 2 + W
              ∧ 0 ≤ top - px_tick p < vis
              ∧ px_idx p = ((top - px_tick p) * len + i) * 4).
  { intros m. split.
    - intros (j & Hj & Htick & Hl & Hpos & Hr & Hidx).
      rewrite (slotTick_safe _ _ _ HW Hmid Hj) in Htick.
      rewrite Hrow in Hr, Hidx by lia. split_and!; auto; lia.
    - intros (Hl & Hpos & Ht & Hr & Hidx).
      exists (Z.to_nat (px_tick p - (guardMid a - W / 2))).
      rewrite slotTick_safe by (auto; lia).
      rewrite Hrow by lia. rewrite Z2Nat.id by lia.
      split_and!; auto; lia. }
  split; (etrans; [apply Hside | apply Hview]).
Qed.

Lemma X25_witness :
  ∃ col, emitted (bucket CONFIG_default 0 (bookAt 100 104)) = Some col
         ∧ {| px_idx := (10 * 3 + 2) * 4; px_tick := 100; px_vol := 5 |}
           ∈ bidPixels col 110 40 3 2.
Proof.
  destruct (bucket CONFIG_default 0 (bookAt 100 104)) as [a' out] eqn:E.
  assert (Hout : ∃ col, out = Emitted col ∧ midTick col = 102).
  { revert E. vm_compute. intros [= <- <-]. eexists. split; reflexivity. }
  destruct Hout as (col & -> & Hmid). exists col. split; [reflexivity|].
  destruct (X25_canvas_draws_the_book CONFIG_default 0 (bookAt 100 104) a' col
              110 40 3 2
              {| px_idx := (10 * 3 + 2) * 4; px_tick := 100; px_vol := 5 |} E)
    as (_ & _ & Hsafe).
  destruct Hsafe as [Hbid _]; [rewrite Hmid; reflexivity|].
  apply Hbid. rewrite Hmid. cbn [px_tick px_vol px_idx].
  split_and!; try reflexivity; try (vm_compute; congruence); lia.
Defined.

(** X26.  The heatmap loop never writes outside the image: for a column
    index inside the buffer, every pixel written for a side starts at a
    non-negative index of [ImageData.data] and its four channels fit in the
    [dataLength * visibleTicks * 4] bytes of the image, whatever the column
    and the zoom. *)
Theorem X26_pixels_stay_inside_the_image (arr : list Z) (n : nat)
    (mid top vis len i : Z) (p : PixelWrite) :
  0 ≤ i < len →
  p ∈ sidePixels arr n mid top vis len i →
  0 ≤ px_idx p ∧ px_idx p + 3 < len * vis * 4.
Proof.
  intros Hi Hin. apply elem_of_sidePixels in Hin as (j & _ & _ & _ & Hrow & ->).
  split; [nia|].
  assert (JS.sub top (px_tick p) * len + i + 1 ≤ vis * len); [|lia].
  assert ((JS.sub top (px_tick p) + 1) * len ≤ vis * len); [|lia].
  apply Z.mul_le_mono_nonneg_r; lia.
Qed.

Lemma X26_witness :
  0 ≤ (10 * 3 + 2) * 4 ∧ (10 * 3 + 2) * 4 + 3 < 3 * 40 * 4.
Proof.
  apply (X26_pixels_stay_inside_the_image [0; 5; 0] 3 100 110 40 3 2
           {| px_idx := (10 * 3 + 2) * 4; px_tick := 100; px_vol := 5 |});
    [lia|].
  vm_compute. by left.
Defined.

Lemma tail_drop {A : Type} (k : nat) (l : list A) :
  tail (drop k l) = drop (S k) l.
Proof. revert l. induction k as [|k IH]; intros [|x l]; simpl; auto. Qed.

(** X27.  The column buffer of the client never holds more than 5000
    columns, and it always holds the most recent ones in the order they
    arrived: after any number of received columns it is the list of all of
    them without the first [n - 5000] when [n] exceeds 5000. *)
Theorem X27_column_buffer (cols : list HeatmapColumn) :
  foldl pushColumn [] cols = drop (length cols - 5000) cols
  ∧ (length (foldl pushColumn [] cols) ≤ 5000)%nat.
Proof.
  assert (H : foldl pushColumn [] cols = drop (length cols - 5000) cols).
  { induction cols as [|c cols IH] using rev_ind; [reflexivity|].
    rewrite foldl_app. simpl. rewrite IH. unfold pushColumn.
    rewrite !length_app, length_drop. simpl.
    destruct (Z.ltb_spec 5000 (Z.of_nat (length cols - (length cols - 5000) + 1))).
    - assert (Hge : (5000 ≤ length cols)%nat) by lia.
      replace (length cols + 1 - 5000)%nat with (S (length cols - 5000)) by lia.
      rewrite <- drop_app_le by lia.
      apply tail_drop.
    - rewrite drop_app_le by lia.
      replace (length cols + 1 - 5000)%nat with (length cols - 5000)%nat by lia.
      reflexivity. }
  split; [exact H|]. rewrite H, length_drop. lia.
Qed.
